(** * Mod-ell reductions of newforms: a shallow embedding of [modell_new.py]

    The development follows the Python source function by function.
    Python exceptions are modelled by an error monad, Python dictionaries
    by finite maps, elements of [GF(ell)] by a residue that remembers its
    parent field. Number fields, rational matrices and primes are
    computed, and so are ranks and kernels of matrices over [GF(ell)];
    the maximal ideals of a finite-dimensional algebra are a parameter
    of the model, and so are the database tables. The [verbose] flags
    only print, except in [reduce_ap_mod_ell], and are left out
    elsewhere. *)

From Stdlib Require Import ZArith QArith Lia.
From Stdlib Require Import Ascii String DecimalString.
From Stdlib Require Zmod.ZmodInv.
From stdpp Require Import gmap strings list fin_maps sorting.

Local Open Scope Z_scope.

(** ** Exceptions *)

Inductive exn : Set :=
| ValueError | AssertionError | TypeError | IndexError
| ZeroDivisionError | KeyError | ArithmeticError.

Inductive result (A : Type) : Type :=
| OK (a : A)
| Raise (e : exn).
Arguments OK {A} a.
Arguments Raise {A} e.

#[global] Instance result_ret : MRet result := fun _ a => OK a.
#[global] Instance result_bind : MBind result := fun _ _ f r =>
  match r with OK a => f a | Raise e => Raise e end.

#[global] Instance result_fmap : FMap result := fun _ _ f r =>
  match r with OK a => OK (f a) | Raise e => Raise e end.

#[global] Instance exn_eq_dec : EqDecision exn.
Proof. solve_decision. Defined.

#[global] Instance result_eq_dec {A} `{EqDecision A} : EqDecision (result A).
Proof. solve_decision. Defined.

(** [assert c] *)
Definition assert (c : bool) : result unit :=
  if c then OK tt else Raise AssertionError.

(** [l[i]] on a Python list, for a non-negative index. *)
Definition getitem {A} (l : list A) (i : nat) : result A :=
  match l !! i with Some a => OK a | None => Raise IndexError end.

(** A list comprehension whose body may raise. *)
Fixpoint mapM {A B} (f : A → result B) (l : list A) : result (list B) :=
  match l with
  | [] => OK []
  | a :: l' => b ← f a; bs ← mapM f l'; OK (b :: bs)
  end.

(** A [for] loop that threads a state and may raise. *)
Fixpoint foldM {A S} (f : S → A → result S) (s : S) (l : list A) : result S :=
  match l with
  | [] => OK s
  | a :: l' => s' ← f s a; foldM f s' l'
  end.

(** ** Sage integers: [prime_to_m_part], [divides], primality *)

(** [Integer.prime_to_m_part]: divide by [gcd(v, m)] until it is 1.
    Every round divides by at least 2, so [|n|] rounds are more than
    enough. Sage raises [ArithmeticError] for [n = 0] and returns 1 for
    [m = 0]. *)
Fixpoint prime_to_m_part_loop (fuel : nat) (v m : Z) : Z :=
  match fuel with
  | O => v
  | S fuel' =>
      let g := Z.gcd v m in
      if g =? 1 then v else prime_to_m_part_loop fuel' (v / g) m
  end.

Definition prime_to_m_part (n m : Z) : result Z :=
  if n =? 0 then Raise ArithmeticError
  else if m =? 0 then OK 1
  else OK (prime_to_m_part_loop (Z.to_nat (Z.abs n)) n m).

(** [a.divides(b)] *)
Definition divides (a b : Z) : bool := b mod a =? 0.

Definition char_order_valid (m ell : Z) : result bool :=
  m1 ← prime_to_m_part m ell;
  OK (divides m1 (ell - 1)).

(** Trial division. *)
Fixpoint no_divisor_from (fuel : nat) (d n : Z) : bool :=
  match fuel with
  | O => true
  | S fuel' => negb (n mod d =? 0) && no_divisor_from fuel' (d + 1) n
  end.

Definition is_prime (n : Z) : bool :=
  (2 <=? n) && no_divisor_from (Z.to_nat (n - 2)) 2 n.

(** [primes_first_n]: the next prime after [p] is at most [p! + 1], so
    that many candidates are enough to find it. *)
Fixpoint Zfact (n : nat) : Z :=
  match n with
  | O => 1
  | S n' => Z.of_nat n * Zfact n'
  end.

Fixpoint find_prime_from (fuel : nat) (c : Z) : Z :=
  match fuel with
  | O => c
  | S fuel' => if is_prime c then c else find_prime_from fuel' (c + 1)
  end.

Definition next_prime (p : Z) : Z :=
  find_prime_from (Z.to_nat (Zfact (Z.to_nat p))) (p + 1).

Fixpoint primes_from (n : nat) (p : Z) : list Z :=
  match n with
  | O => []
  | S n' => let q := next_prime p in q :: primes_from n' q
  end.

Definition primes_first_n (n : nat) : list Z := primes_from n 1.

(** ** The finite field [GF(ell)] *)

(** An element of [GF(ell)] knows its parent, as in Sage. *)
Record GFelt : Set := mkGF { parent : Z; residue : Z }.

#[global] Instance GFelt_eq_dec : EqDecision GFelt.
Proof. solve_decision. Defined.

(** [GF(ell)]: the field is identified with its order. The order must
    be a prime here; Sage also accepts prime powers, for which it builds
    an extension field, and those are outside this model. *)
Definition GF_field (ell : Z) : result Z :=
  if is_prime ell then OK ell else Raise ValueError.

(** [Fl(x)] for an integer [x], where [Fl = GF(ell)]. *)
Definition GF (ell x : Z) : GFelt := mkGF ell (x mod ell).

(** [c * r] for a Python integer [c] and [r] in [GF(ell)]. *)
Definition GF_scale (c : Z) (r : GFelt) : GFelt :=
  GF (parent r) (c * residue r).

(** Arithmetic of two field elements: Sage finds no common parent for
    two different prime fields. *)
Definition GF_binop (op : Z → Z → Z) (a b : GFelt) : result GFelt :=
  if parent a =? parent b then OK (GF (parent a) (op (residue a) (residue b)))
  else Raise TypeError.

Definition GF_add := GF_binop Z.add.
Definition GF_mul := GF_binop Z.mul.

(** [1/a]; by Fermat [a^(ell-2)] for prime [ell]. *)
Definition GF_inv (a : GFelt) : result GFelt :=
  if residue a mod parent a =? 0 then Raise ZeroDivisionError
  else OK (GF (parent a) (residue a ^ (parent a - 2))).

(** [a == n] for a Python integer [n]: [n] is coerced into the field. *)
Definition GF_eq_int (a : GFelt) (n : Z) : bool :=
  residue a mod parent a =? n mod parent a.

(** ** Matrices over a field *)

Record field_ops (F : Type) : Type := {
  f0 : F; f1 : F;
  fadd : F → F → F; fmul : F → F → F;
  fopp : F → F; finv : F → F;
  fis0 : F → bool
}.
Arguments f0 {F}.
Arguments f1 {F}.
Arguments fadd {F}.
Arguments fmul {F}.
Arguments fopp {F}.
Arguments finv {F}.
Arguments fis0 {F}.

Section Matrices.
Context {F : Type} (ops : field_ops F).

Definition vadd (u v : list F) : list F := zip_with (fadd ops) u v.
Definition vscale (c : F) (v : list F) : list F := map (fmul ops c) v.
Definition entry (v : list F) (j : nat) : F := default (f0 ops) (v !! j).
Definition unit_vector (n i : nat) : list F :=
  map (λ j, if Nat.eqb i j then f1 ops else f0 ops) (seq 0 n).
Definition identity_matrix (n : nat) : list (list F) :=
  map (unit_vector n) (seq 0 n).

(** Row vector times matrix. *)
Definition vec_mat (n : nat) (v : list F) (m : list (list F)) : list F :=
  foldr vadd (replicate n (f0 ops)) (zip_with vscale v m).
Definition mat_mul (n : nat) (a b : list (list F)) : list (list F) :=
  map (λ row, vec_mat n row b) a.

(** Subtract from [row] the multiple of [piv] that clears column [c]. *)
Definition clear_col (c : nat) (piv row : list F) : list F :=
  vadd row (vscale (fopp ops (entry row c)) piv).

(** First row with a non-zero entry in column [c], and the others. *)
Fixpoint find_pivot (c : nat) (rows : list (list F))
  : option (list F * list (list F)) :=
  match rows with
  | [] => None
  | r :: rs =>
      if fis0 ops (entry r c) then
        match find_pivot c rs with
        | Some (p, others) => Some (p, r :: others)
        | None => None
        end
      else Some (r, rs)
  end.

(** Gauss-Jordan elimination on the columns [cols]; the pivot rows are
    collected in pivot order, the rows left over have no pivot. *)
Fixpoint gauss_jordan (cols : list nat) (pivots rest : list (list F))
  : list (list F) * list (list F) :=
  match cols with
  | [] => (pivots, rest)
  | c :: cols' =>
      match find_pivot c rest with
      | None => gauss_jordan cols' pivots rest
      | Some (p, others) =>
          let p1 := vscale (finv ops (entry p c)) p in
          gauss_jordan cols'
            (map (clear_col c p1) pivots ++ [p1])
            (map (clear_col c p1) others)
      end
  end.

(** [m.rank()] for a matrix with [n] columns. *)
Definition rank (n : nat) (m : list (list F)) : nat :=
  length (fst (gauss_jordan (seq 0 n) [] m)).

(** Column of the first non-zero entry of a row. *)
Fixpoint leading (row : list F) : option nat :=
  match row with
  | [] => None
  | x :: row' => if fis0 ops x then S <$> leading row' else Some 0%nat
  end.

(** The solution [v] of [m * v = 0] with 1 at the free column [f] and 0
    at the other free columns, read from the reduced rows of [m]. *)
Definition kernel_row (n : nat) (pivots : list (list F)) (f : nat) : list F :=
  map (λ j, if Nat.eqb j f then f1 ops
            else match list_find (λ q, leading q = Some j) pivots with
                 | Some kq => fopp ops (entry kq.2 f)
                 | None => f0 ops
                 end) (seq 0 n).

(** [m.right_kernel().basis()] for a matrix with [n] columns: the
    basis in reduced echelon form of the space of the [v] with
    [m * v = 0]. *)
Definition right_kernel_basis (n : nat) (m : list (list F)) : list (list F) :=
  let pivots := fst (gauss_jordan (seq 0 n) [] m) in
  let free := filter (λ j, Forall (λ q, leading q ≠ Some j) pivots) (seq 0 n) in
  fst (gauss_jordan (seq 0 n) [] (map (kernel_row n pivots) free)).

(** [m.inverse()] for a matrix with [n] rows: it must be square, and
    of full rank. *)
Definition inverse (n : nat) (m : list (list F)) : result (list (list F)) :=
  if forallb (λ row, Nat.eqb (length row) n) m then
    let aug := zip_with app m (identity_matrix n) in
    let '(pivots, _) := gauss_jordan (seq 0 n) [] aug in
    if Nat.eqb (length pivots) n then OK (map (drop n) pivots)
    else Raise ZeroDivisionError
  else Raise ArithmeticError.
End Matrices.

Definition Q_ops : field_ops Q := {|
  f0 := 0%Q; f1 := 1%Q;
  fadd := λ a b, Qred (a + b); fmul := λ a b, Qred (a * b);
  fopp := λ a, Qred (- a); finv := λ a, Qred (/ a);
  fis0 := λ a, Qeq_bool a 0
|}.

(** Residues modulo [ell], for the rank of a matrix over [GF(ell)]. *)
Definition Zmod_ops (ell : Z) : field_ops Z := {|
  f0 := 0; f1 := 1 mod ell;
  fadd := λ a b, (a + b) mod ell; fmul := λ a b, (a * b) mod ell;
  fopp := λ a, (- a) mod ell; finv := λ a, (a ^ (ell - 2)) mod ell;
  fis0 := λ a, a mod ell =? 0
|}.

(** ** Number fields [K = QQ[x]/(f)] *)

(** [nf.hecke_field]: the rationals, or [NumberField(Qx(poly), 'a_')]
    with [poly] the coefficients of the defining polynomial, constant
    term first. *)
Inductive Field : Set :=
| QQ
| NumberField (poly : list Z).

#[global] Instance Field_eq_dec : EqDecision Field.
Proof. solve_decision. Defined.

(** An element of a number field: its parent's polynomial and its
    coordinates in terms of the powers of the generator. *)
Record NFelt : Set := mkNF { nf_poly : list Z; nf_coords : list Q }.

(** [K.degree()] *)
Definition degree (poly : list Z) : nat := (length poly - 1)%nat.

Definition pad (n : nat) (p : list Q) : list Q :=
  take n (p ++ replicate n 0%Q).

Fixpoint poly_add (p q : list Q) : list Q :=
  match p, q with
  | [], _ => q
  | _, [] => p
  | a :: p', b :: q' => Qred (a + b) :: poly_add p' q'
  end.

Fixpoint poly_mul (p q : list Q) : list Q :=
  match p with
  | [] => []
  | a :: p' => poly_add (vscale Q_ops a q) (0%Q :: poly_mul p' q)
  end.

(** Remainder of [p] modulo [f], where [f] has degree [d]: cancel the
    leading coefficient of [p] while its degree is at least [d]. *)
Fixpoint poly_mod (fuel : nat) (f : list Q) (d : nat) (p : list Q) : list Q :=
  match fuel with
  | O => p
  | S fuel' =>
      if (length p <=? d)%nat then p
      else
        let c := Qred (List.last p 0%Q / List.last f 0%Q) in
        let shifted := replicate (length p - 1 - d)%nat 0%Q ++ vscale Q_ops c f in
        let p' := vadd Q_ops p (vscale Q_ops (-1)%Q shifted) in
        poly_mod fuel' f d (take (length p - 1)%nat p')
  end.

Definition K_reduce (poly : list Z) (p : list Q) : NFelt :=
  let d := degree poly in
  mkNF poly (pad d (poly_mod (length p) (map inject_Z poly) d p)).

(** [K(1)], [K.gen()], [x * y], [a ** i] *)
Definition K_one (poly : list Z) : NFelt := K_reduce poly [1%Q].
Definition K_gen (poly : list Z) : NFelt := K_reduce poly [0%Q; 1%Q].
Definition K_mul (x y : NFelt) : NFelt :=
  K_reduce (nf_poly x) (poly_mul (nf_coords x) (nf_coords y)).
Fixpoint K_pow (a : NFelt) (i : nat) : NFelt :=
  match i with
  | O => K_one (nf_poly a)
  | S i' => K_mul a (K_pow a i')
  end.

(** [K(c)] for a list [c] of integers. *)
Definition K_of_list (poly : list Z) (c : list Z) : result NFelt :=
  if Nat.eqb (length c) (degree poly) then OK (mkNF poly (map inject_Z c))
  else Raise ValueError.

(** [x / d] for an integer [d]. *)
Definition K_div_int (x : NFelt) (d : Z) : result NFelt :=
  if d =? 0 then Raise ZeroDivisionError
  else OK (mkNF (nf_poly x) (vscale Q_ops (1 / inject_Z d)%Q (nf_coords x))).

Definition Qvec_eqb (u v : list Q) : bool :=
  Nat.eqb (length u) (length v) && forallb (λ p, Qeq_bool p.1 p.2) (zip u v).

(** [x == 1] *)
Definition K_eq_one (x : NFelt) : bool :=
  Qvec_eqb (nf_coords x) (nf_coords (K_one (nf_poly x))).

(** [K.gen().coordinates_in_terms_of_powers()] *)
Definition coords (b : NFelt) : list Q := nf_coords b.

(** The image in [Fl] of a rational entry [q], for [change_ring]: it
    raises [TypeError] for an entry without image. *)
Definition GF_of_Q (ell : Z) (q : Q) : result GFelt :=
  if Z.pos (Qden q) mod ell =? 0 then Raise TypeError
  else OK (GF ell (Qnum q * Z.pos (Qden q) ^ (ell - 2))).

(** [m.change_ring(Fl)] *)
Definition change_ring (ell : Z) (m : list (list Q)) : result (list (list GFelt)) :=
  mapM (mapM (GF_of_Q ell)) m.

(** [m == 1] for a square matrix over [GF(ell)] *)
Definition matrix_is_one (ell : Z) (m : list (list GFelt)) : bool :=
  bool_decide (m = map (map (mkGF ell)) (identity_matrix (Zmod_ops ell) (length m))).

(** ** Python strings *)

(** [str(n)] for an integer *)
Definition str_of_Z (n : Z) : string := NilZero.string_of_int (Z.to_int n).

(** [str(x)] for [x] in [GF(ell)]: the residue in [0 .. ell-1] *)
Definition str_of_GF (x : GFelt) : string := str_of_Z (residue x mod parent x).

(** [str(l)] for a list, from the [repr] of its items *)
Definition str_of_list (items : list string) : string :=
  "[" +:+ String.concat ", " items +:+ "]".

(** [s.replace(" ", "")] *)
Fixpoint remove_spaces (s : string) : string :=
  match s with
  | EmptyString => EmptyString
  | String c s' =>
      if Ascii.eqb c " "%char then remove_spaces s' else String c (remove_spaces s')
  end.

(** [s[:-1]] and [s[1:-1]] *)
Fixpoint drop_last (s : string) : string :=
  match s with
  | EmptyString => EmptyString
  | String c EmptyString => EmptyString
  | String c s' => String c (drop_last s')
  end.

Definition slice_1_m1 (s : string) : string :=
  match s with
  | EmptyString => EmptyString
  | String _ s' => drop_last s'
  end.

(** [s.split(c)] for a one-character separator *)
Fixpoint split_on (c : ascii) (s : string) : list string :=
  match s with
  | EmptyString => [EmptyString]
  | String a s' =>
      if Ascii.eqb a c then EmptyString :: split_on c s'
      else match split_on c s' with
           | [] => [String a EmptyString]
           | w :: ws => String a w :: ws
           end
  end.

(** [l[:n]] for an integer [n], negative [n] counting from the end *)
Definition slice_to {A} (l : list A) (n : Z) : list A :=
  if 0 <=? n then take (Z.to_nat n) l
  else take (length l - Z.to_nat (- n))%nat l.

(** ** Newforms, reductions and records *)

(** The attributes of a [WebNewform] that the script reads. *)
Record WebNewform : Set := {
  label : string;
  level : Z;
  weight : Z;
  dim : Z;
  char_order : Z;
  field_poly : option (list Z);
  hecke_ring_cyclotomic_generator : Z;
  hecke_ring_numerators : option (list (list Z));
  hecke_ring_denominators : list Z;
  hecke_ring_character_values : option (list (Z * list Z))
}.

(** A reduction map as [make_reductions] returns it: a vector over
    [GF(ell)] from [reduction_maps], or the closure
    [lambda elt: Fl(QQ(elt))] of the branch [K == QQ]. *)
Inductive reduction : Set :=
| RedVector (v : list GFelt)
| RedLambda (ell : Z).

(** Calling the closure on an integer. *)
Definition call_lambda (ell : Z) (elt : Z) : GFelt := GF ell elt.

(** A newform with the attributes that [get_forms] attaches to it. *)
Record Newform : Set := {
  web : WebNewform;
  hecke_field : Field;
  reductions : list reduction;
  an : list (list Z);
  ap : list (list Z)
}.

(** The newform-mod-ell dictionary of [nf_mod_ell]; the keys ['ell']
    and ['index'] are set later, by [run]. *)
Record nf_record : Set := {
  rec_label : string;
  rec_N : Z;
  rec_k : Z;
  rec_d : Z;
  rec_ap : gmap Z GFelt;
  rec_chi_mod_ell : list (Z * GFelt);
  rec_ell : option Z;
  rec_index : option Z
}.

Definition set_ell (r : nf_record) (ell : Z) : nf_record :=
  {| rec_label := rec_label r; rec_N := rec_N r; rec_k := rec_k r;
     rec_d := rec_d r; rec_ap := rec_ap r;
     rec_chi_mod_ell := rec_chi_mod_ell r;
     rec_ell := Some ell; rec_index := rec_index r |}.

Definition set_index (r : nf_record) (i : Z) : nf_record :=
  {| rec_label := rec_label r; rec_N := rec_N r; rec_k := rec_k r;
     rec_d := rec_d r; rec_ap := rec_ap r;
     rec_chi_mod_ell := rec_chi_mod_ell r;
     rec_ell := rec_ell r; rec_index := Some i |}.

(** [d[key]] for a key that may be missing *)
Definition getkey {A} (o : option A) : result A :=
  match o with Some a => OK a | None => Raise KeyError end.

(** [dict(pairs)]: a later pair overrides an earlier one. *)
Definition dict_of_pairs {A} (pairs : list (Z * A)) : gmap Z A :=
  foldl (λ m kv, <[kv.1 := kv.2]> m) ∅ pairs.

(** [enumerate(l)] *)
Definition enumerate {A} (l : list A) : list (nat * A) :=
  zip (seq 0 (length l)) l.

(** The database tables and Sage's algebra, as the script sees them. *)
Record Database : Type := {
  mf_newforms_search : Z → Z → list string;
  by_label : string → WebNewform;
  mf_hecke_nf_lucky : string → option (list (list Z) * list (list Z))
}.

(** A maximal ideal [M] of a [FiniteDimensionalAlgebra], with the
    value the script asks Sage for: [M.basis_matrix()], whose rows span
    the ideal. *)
Record Ideal : Set := {
  basis_matrix : list (list GFelt)
}.

(** ** The reduction engine *)

(** [sum(l)] starts from the integer 0. *)
Definition py_sum (l : list GFelt) : result (Z + GFelt) :=
  match l with
  | [] => OK (inl 0)
  | x :: l' => s ← foldM GF_add (GF (parent x) (0 + residue x)) l'; OK (inr s)
  end.

(** [Fl(x)] for the value of a sum. *)
Definition GF_coerce (ell : Z) (x : Z + GFelt) : result GFelt :=
  match x with
  | inl z => OK (GF ell z)
  | inr e => if parent e =? ell then OK e else Raise TypeError
  end.

Definition apply_red (coeffs : list Z) (red : reduction) : result GFelt :=
  match red with
  | RedLambda _ => Raise TypeError          (* [red[0]] on a function *)
  | RedVector red =>
      r0 ← getitem red 0;
      let Fl := parent r0 in
      s ← py_sum (zip_with GF_scale coeffs red);
      GF_coerce Fl s
  end.

Definition reduce_an_mod_ell (nf : Newform) (red : reduction) : result (list GFelt) :=
  mapM (λ an, apply_red an red) (an nf).

(** With [verbose] the first ten [ap] are also reduced for printing. *)
Definition reduce_ap_mod_ell (nf : Newform) (red : reduction) (verbose : bool)
  : result (gmap Z GFelt) :=
  _ ← (if verbose then
         mapM (λ ip, a ← getitem (ap nf) ip.1; apply_red a red)
              (enumerate (primes_first_n 10))
       else OK []);
  pairs ← mapM (λ ip, a ← getitem (ap nf) ip.1; v ← apply_red a red; OK (ip.2, v))
               (enumerate (primes_first_n (length (ap nf))));
  OK (dict_of_pairs pairs).

Definition reduce_chi_mod_ell (nf : Newform) (red : reduction)
  : result (list (Z * GFelt)) :=
  if char_order (web nf) =? 1 then OK []
  else
    match hecke_ring_character_values (web nf) with
    | None => Raise TypeError               (* iterating over [None] *)
    | Some values =>
        mapM (λ ac, v ← apply_red ac.2 red; OK (ac.1, v)) values
    end.

Definition nf_mod_ell (nf : Newform) (red : reduction) : result nf_record :=
  ap ← reduce_ap_mod_ell nf red false;
  chi ← reduce_chi_mod_ell nf red;
  OK {| rec_label := label (web nf); rec_N := level (web nf);
        rec_k := weight (web nf); rec_d := dim (web nf);
        rec_ap := ap; rec_chi_mod_ell := chi;
        rec_ell := None; rec_index := None |}.

Definition compare_record (nf1 nf2 : nf_record) : result bool :=
  e1 ← getkey (rec_ell nf1);
  e2 ← getkey (rec_ell nf2);
  OK ((e1 =? e2) && bool_decide (rec_ap nf1 = rec_ap nf2)).

(** The loop of [reduction_maps] over the candidate vectors. The
    assignment [v = [vi*v0inv for vi in v]] rebinds the loop variable:
    the list [vv] is left as it was. *)
Fixpoint rescale_loop (vv : list (list GFelt)) : result unit :=
  match vv with
  | [] => OK tt
  | v :: vv' =>
      v0 ← getitem v 0;
      if negb (GF_eq_int v0 1) then
        if GF_eq_int v0 0 then Raise ValueError
        else
          v0inv ← GF_inv v0;
          v ← mapM (λ vi, GF_mul vi v0inv) v;
          rescale_loop vv'
      else rescale_loop vv'
  end.

(** A non-empty vector over [GF(ell)]. *)
Definition vector_over (ell : Z) (red : list GFelt) : Prop :=
  red ≠ [] ∧ Forall (λ r, parent r = ell) red.

Section Pipeline.

(** [FiniteDimensionalAlgebra(Fl, structure).maximal_ideals()] *)
Variable maximal_ideals : Z → list (list (list GFelt)) → list Ideal.

(** The tables [db.mf_newforms], [db.mf_hecke_nf] and [WebNewform.by_label] *)
Variable db : Database.

(** Lines 106-109: the matrices of multiplication by each [beta] on
    the order, in terms of the [betas], reduced modulo [ell]. *)
Definition structure_matrices (betas : list NFelt) (ell : Z)
  : result (list (list (list GFelt))) :=
  let d := length betas in
  U ← inverse Q_ops d (map coords betas);
  mapM (λ bi,
      change_ring ell (mat_mul Q_ops d (map (λ bj, coords (K_mul bi bj)) betas) U))
    betas.

(** [M.basis_matrix().right_kernel().basis()], a list of vectors over
    [GF(ell)] with [d] coordinates. *)
Definition kernel_basis (d : nat) (ell : Z) (M : Ideal) : list (list GFelt) :=
  map (map (GF ell))
      (right_kernel_basis (Zmod_ops ell) d (map (map residue) (basis_matrix M))).

(** Lines 112-117: the first kernel vector of each maximal ideal whose
    basis matrix has rank [d - 1]. *)
Definition candidate_vectors (d : nat) (ell : Z) (structure : list (list (list GFelt)))
  : result (list (list GFelt)) :=
  let MM := maximal_ideals ell structure in
  mapM (λ M, getitem (kernel_basis d ell M) 0)
       (filter (λ M, rank (Zmod_ops ell) d (map (map residue) (basis_matrix M))
                     = (d - 1)%nat) MM).

Definition reduction_maps (betas : list NFelt) (ell : Z) : result (list (list GFelt)) :=
  b0 ← getitem betas 0;
  _ ← assert (K_eq_one b0);
  Fl ← GF_field ell;
  structure ← structure_matrices betas Fl;
  s0 ← getitem structure 0;
  _ ← assert (matrix_is_one Fl s0);
  vv ← candidate_vectors (length betas) Fl structure;
  _ ← rescale_loop vv;
  OK vv.

(** Lines 168-177: the basis of the Hecke order. *)
Definition hecke_betas (nf : Newform) (poly : list Z) : result (list NFelt) :=
  match hecke_ring_numerators (web nf) with
  | None | Some [] =>
      let a := K_gen poly in
      OK (map (K_pow a) (seq 0 (degree poly)))
  | Some numerators =>
      mapM (λ cd, c ← K_of_list poly cd.1; K_div_int c cd.2)
           (zip numerators (hecke_ring_denominators (web nf)))
  end.

Definition make_reductions (nf : Newform) (ell : Z) : result (list reduction) :=
  match hecke_field nf with
  | QQ => Fl ← GF_field ell; OK [RedLambda Fl]
  | NumberField poly =>
      _ ← assert (hecke_ring_cyclotomic_generator (web nf) =? 0);
      betas ← hecke_betas nf poly;
      vv ← reduction_maps betas ell;
      OK (map RedVector vv)
  end.

(** The three fatal conditions of one form, with the exception each
    one raises: a cyclotomic generator, a structure matrix of
    [betas[0]] that is not the identity, a candidate vector whose first
    coordinate is zero. *)
Inductive fatal_condition (nf : Newform) (ell : Z) : exn → Prop :=
| unsupported_basis poly :
    hecke_field nf = NumberField poly →
    hecke_ring_cyclotomic_generator (web nf) ≠ 0 →
    fatal_condition nf ell AssertionError
| internal_inconsistency poly betas b0 structure s0 :
    hecke_field nf = NumberField poly →
    hecke_ring_cyclotomic_generator (web nf) = 0 →
    hecke_betas nf poly = OK betas →
    betas !! 0%nat = Some b0 → K_eq_one b0 = true →
    is_prime ell = true →
    structure_matrices betas ell = OK structure →
    structure !! 0%nat = Some s0 → matrix_is_one ell s0 = false →
    fatal_condition nf ell AssertionError
| degenerate_normalization poly betas b0 structure s0 vv v v0 :
    hecke_field nf = NumberField poly →
    hecke_ring_cyclotomic_generator (web nf) = 0 →
    hecke_betas nf poly = OK betas →
    betas !! 0%nat = Some b0 → K_eq_one b0 = true →
    is_prime ell = true →
    structure_matrices betas ell = OK structure →
    structure !! 0%nat = Some s0 → matrix_is_one ell s0 = true →
    candidate_vectors (length betas) ell structure = OK vv →
    Forall (vector_over ell) vv →
    v ∈ vv → v !! 0%nat = Some v0 → GF_eq_int v0 0 = true →
    fatal_condition nf ell ValueError.

(** [f.field_poly == None] and the truth value of [f.field_poly] *)
Definition field_poly_is_None (f : WebNewform) : bool :=
  match field_poly f with None => true | Some _ => false end.
Definition field_poly_truthy (f : WebNewform) : option (list Z) :=
  match field_poly f with
  | Some (c :: p) => Some (c :: p)
  | _ => None
  end.

(** The forms of level [N] and weight [k] with a valid character
    order, and those of them that have a field polynomial. *)
Definition valid_forms (N k ell : Z) : list WebNewform :=
  filter (λ f, char_order_valid (char_order f) ell = OK true)
         (map (by_label db) (mf_newforms_search db N k)).

Definition forms_with_field (N k ell : Z) : list (WebNewform * list Z) :=
  omap (λ f, p ← field_poly_truthy f; Some (f, p)) (valid_forms N k ell).

(** Lines 292-303: the body of the loop over the forms. *)
Definition with_hecke_field (fp : WebNewform * list Z) : Newform :=
  {| web := fp.1; hecke_field := NumberField fp.2;
     reductions := []; an := []; ap := [] |}.

Definition attach_reductions (ell : Z) (fp : WebNewform * list Z) : result Newform :=
  reds ← make_reductions (with_hecke_field fp) ell;
  match mf_hecke_nf_lucky db (label fp.1) with
  | None => Raise TypeError               (* [anap['an']] on [None] *)
  | Some anap =>
      OK {| web := fp.1; hecke_field := NumberField fp.2;
            reductions := reds; an := anap.1; ap := anap.2 |}
  end.

Definition get_forms (N k ell : Z)
  : result (list Newform * list (string * Z * Z)) :=
  if ell =? 0 then Raise ZeroDivisionError
  else if N mod ell =? 0 then OK ([], [])
  else
    (* line 277 tests the order of every form found, and the test may raise *)
    _ ← mapM (λ f, char_order_valid (char_order f) ell)
             (map (by_label db) (mf_newforms_search db N k));
    let forms_with_no_field :=
      map (λ f, (label f, dim f, ell))
          (filter (λ f, field_poly_is_None f = true) (valid_forms N k ell)) in
    forms ← mapM (attach_reductions ell) (forms_with_field N k ell);
    let forms := filter (λ f, reductions f ≠ []) forms in
    OK (forms, forms_with_no_field).

(** The state of [run]: the dictionaries [nf], [nnf] and [nfx]. *)
Record run_state : Set := {
  st_nf : gmap Z (list nf_record);
  st_nnf : gmap Z Z;
  st_nfx : gmap Z (list (string * Z * Z))
}.

(** Lines 459-466: one reduction of one form. *)
Definition add_reduction (ell : Z) (f : Newform) (st : run_state) (red : reduction)
  : result run_state :=
  nfr ← nf_mod_ell f red;
  let nfr := set_ell nfr ell in
  seen ← getkey (st_nf st !! ell);
  cmps ← mapM (compare_record nfr) seen;
  let n_previous := foldr (λ (b : bool) n, (if b then 1 else 0) + n) 0 cmps in
  nnf ← (if n_previous =? 0
         then n ← getkey (st_nnf st !! ell); OK (<[ell := n + 1]> (st_nnf st))
         else OK (st_nnf st));
  let nfr := set_index nfr (n_previous + 1) in
  OK {| st_nf := <[ell := seen ++ [nfr]]> (st_nf st);
        st_nnf := nnf; st_nfx := st_nfx st |}.

(** Lines 448-471: one triple [(ell, k, N)]. *)
Definition sweep_triple (ell k : Z) (st : run_state) (N : Z) : result run_state :=
  ffs ← get_forms N k ell;
  st ← match ffs.2 with
       | [] => OK st
       | _ => missing ← getkey (st_nfx st !! ell);
              OK {| st_nf := st_nf st; st_nnf := st_nnf st;
                    st_nfx := <[ell := missing ++ ffs.2]> (st_nfx st) |}
       end;
  foldM (λ st f, foldM (add_reduction ell f) st (reductions f)) st ffs.1.

(** [range(2, 1 + max(ell+1, 4))] *)
Definition weights (ell : Z) : list Z := seqZ 2 (1 + Z.max (ell + 1) 4 - 2).

Definition run_sweep (levels ells : list Z) : result run_state :=
  let st := {| st_nf := dict_of_pairs (map (λ ell, (ell, [])) ells);
               st_nnf := dict_of_pairs (map (λ ell, (ell, 0)) ells);
               st_nfx := dict_of_pairs (map (λ ell, (ell, [])) ells) |} in
  foldM (λ st ell,
      foldM (λ st k, foldM (sweep_triple ell k) st levels) st (weights ell))
    st ells.

Definition run (levels ells : list Z)
  : result (gmap Z (list nf_record) * gmap Z (list (string * Z * Z))) :=
  st ← run_sweep levels ells;
  OK (st_nf st, st_nfx st).

End Pipeline.

(** ** Output *)

Definition unpack4 (parts : list string) : result (string * string * string * string) :=
  match parts with
  | [N; k; c; id] => OK (N, k, c, id)
  | _ => Raise ValueError
  end.

(** [sorted(d.keys())] *)
Definition sorted_keys {A} (d : gmap Z A) : list Z :=
  merge_sort Z.le (map fst (map_to_list d)).

Definition nf_to_string (nfr : nf_record) (nap : option Z) : result string :=
  let label := rec_label nfr in
  '(N, k, c, id) ← unpack4 (split_on "." label);
  ell ← str_of_Z <$> getkey (rec_ell nfr);
  aplist ← mapM (λ p, getkey (rec_ap nfr !! p)) (sorted_keys (rec_ap nfr));
  let aplist :=
    match nap with
    | Some n => if negb (n =? 0) && (n <? Z.of_nat (length aplist))
                then slice_to aplist n else aplist
    | None => aplist
    end in
  let ap := slice_1_m1 (remove_spaces (str_of_list (map str_of_GF aplist))) in
  index ← str_of_Z <$> getkey (rec_index nfr);
  let dim := str_of_Z (rec_d nfr) in
  let chi_mod_ell :=
    remove_spaces (str_of_list
      (map (λ av, str_of_list [str_of_Z av.1; str_of_GF av.2]) (rec_chi_mod_ell nfr))) in
  OK (String.concat ":" [label; N; k; c; id; dim; ell; index; chi_mod_ell; ap]).

(** ** Properties stated about the engine *)

(** [m1] is the largest divisor of [m] coprime to [ell]. *)
Definition prime_to_part (m ell m1 : Z) : Prop :=
  0 < m1 ∧ (m1 | m) ∧ Z.gcd m1 ell = 1 ∧
  ∀ d, 0 < d → (d | m) → Z.gcd d ell = 1 → d ≤ m1.

(** Two records count as the same reduction for [compare_record]. *)
Definition same_reduction (r r' : nf_record) : bool :=
  match compare_record r r' with OK true => true | _ => false end.

(** Every record carries 1 + the number of earlier equal records. *)
Definition multiplicity_indexed (l : list nf_record) : Prop :=
  ∀ i r, l !! i = Some r →
    rec_index r
    = Some (1 + Z.of_nat (length (filter (λ r', same_reduction r r' = true) (take i l)))).

Definition distinct_count (l : list nf_record) : Z :=
  Z.of_nat (length (filter (λ r, rec_index r = Some 1) l)).

(** The invariant of the accumulation lists of [run]. *)
Definition indexed_state (st : run_state) : Prop :=
  ∀ ell l, st_nf st !! ell = Some l →
    multiplicity_indexed l
    ∧ Forall (λ r, rec_ell r = Some ell) l
    ∧ st_nnf st !! ell = Some (distinct_count l).

(** Coordinates of [betas[i]] in terms of the [betas]. *)
Definition basis_coeffs (d i : nat) : list Z :=
  map (λ j, if Nat.eqb i j then 1 else 0) (seq 0 d).

(** [v] respects the product of [betas[i]] and [betas[j]], read from
    row [j] of the [i]-th structure matrix. *)
Definition multiplicative_at (structure : list (list (list GFelt)))
    (v : reduction) (i j : nat) : result bool :=
  si ← getitem structure i;
  row ← getitem si j;
  x ← apply_red (map residue row) v;
  a ← apply_red (basis_coeffs (length structure) i) v;
  b ← apply_red (basis_coeffs (length structure) j) v;
  ab ← GF_mul a b;
  OK (bool_decide (x = ab)).

(** Entrywise congruence modulo [ell]. *)
Definition congruent (ell : Z) (x y : list Z) : Prop :=
  Forall2 (λ a b, a mod ell = b mod ell) x y.

(** [x] is, modulo [ell], a combination of the rows of [M]. *)
Definition in_row_space (ell : Z) (n : nat) (M : list (list Z)) (x : list Z) : Prop :=
  ∃ c, congruent ell x (vec_mat (Zmod_ops ell) n c M).

(** The products [e_j * x] and [x * e_i] in the algebra whose [i]-th
    structure matrix holds the coordinates of [e_j * e_i] in row [j]. *)
Definition left_mul (ell : Z) (table : list (list (list Z))) (j : nat) (x : list Z)
  : list Z :=
  vec_mat (Zmod_ops ell) (length table) x (map (λ Si, default [] (Si !! j)) table).
Definition right_mul (ell : Z) (table : list (list (list Z))) (i : nat) (x : list Z)
  : list Z :=
  vec_mat (Zmod_ops ell) (length table) x (default [] (table !! i)).

(** The rows of [M] span an ideal of the algebra of [structure]: they
    have as many coordinates as the algebra has dimensions, and the
    products of a row with the basis elements stay in their span. *)
Definition is_ideal (ell : Z) (structure : list (list (list GFelt)))
    (M : list (list GFelt)) : Prop :=
  let d := length structure in
  let table := map (map (map residue)) structure in
  let rows := map (map residue) M in
  Forall (λ w, length w = d) rows
  ∧ ∀ i w, (i < d)%nat → w ∈ rows →
      in_row_space ell d rows (left_mul ell table i w)
      ∧ in_row_space ell d rows (right_mul ell table i w).

(** The dot product of two integer vectors, over the shorter one, and
    the sum of [g j] over the indices [j] of a list. *)
Definition dotZ (x y : list Z) : Z := foldr Z.add 0 (zip_with Z.mul x y).
Definition sumf (idx : list nat) (g : nat → Z) : Z :=
  foldr (λ j a, g j + a) 0 idx.

(** [row * u = 0] modulo [ell]. *)
Definition annihilates (ell : Z) (u row : list Z) : Prop :=
  eqm ell (dotZ row u) 0.

(** A row [q] of a reduced echelon form with its pivot column [ck]:
    1 at the pivot, 0 before it and at the pivots [pcs] of the other
    rows. *)
Definition pivot_row (ell : Z) (pcs : list nat) (q : list Z) (ck : nat) : Prop :=
  eqm ell (entry (Zmod_ops ell) q ck) 1
  ∧ (∀ j, (j < ck)%nat → eqm ell (entry (Zmod_ops ell) q j) 0)
  ∧ (∀ ck', ck' ∈ pcs → ck' ≠ ck → eqm ell (entry (Zmod_ops ell) q ck') 0).

(** The state of [gauss_jordan] on a matrix with [n] columns when the
    columns before [c] are done: the pivot rows with their columns
    [pcs], and the rows left over, zero before [c]. *)
Definition rref_inv (ell : Z) (n c : nat) (pcs : list nat)
    (pivots rest : list (list Z)) : Prop :=
  Forall (λ r, length r = n) pivots ∧ Forall (λ r, length r = n) rest
  ∧ StronglySorted lt pcs ∧ Forall (λ j, (j < c)%nat) pcs
  ∧ Forall2 (pivot_row ell pcs) pivots pcs
  ∧ Forall (λ r, ∀ j, (j < c)%nat → eqm ell (entry (Zmod_ops ell) r j) 0) rest.

(** The dot product of an integer vector and a vector of residues,
    over the length of the shorter one. *)
Definition dot (coeffs : list Z) (red : list GFelt) : Z :=
  foldr Z.add 0 (zip_with (λ c r, c * residue r) coeffs red).

(** ** Example data *)

(** The order [ZZ[a]], [a^2 = 7], and its two maximal ideals above 3,
    [(a + 1)] and [(a - 1)], spanned by [1 + a] and by [1 + 2a]. *)
Definition sqrt7_poly : list Z := [-7; 0; 1].
Definition sqrt7_betas : list NFelt := map (K_pow (K_gen sqrt7_poly)) (seq 0 2).

Definition ideals_sqrt7 (ell : Z) (_ : list (list (list GFelt))) : list Ideal :=
  [ {| basis_matrix := [[GF ell 1; GF ell 1]] |};
    {| basis_matrix := [[GF ell 1; GF ell 2]] |} ].

(** The algebra of a field of degree 1 is [GF(ell)] itself: its only
    maximal ideal is zero, with an empty basis matrix. *)
Definition zero_ideal : Ideal := {| basis_matrix := [] |}.
Definition ideals_degree_one (ell : Z) (_ : list (list (list GFelt))) : list Ideal :=
  [ zero_ideal ].

Definition rational_form (N : Z) (lbl : string) (cyc : Z) : WebNewform :=
  {| label := lbl; level := N; weight := 2; dim := 1; char_order := 1;
     field_poly := Some [0; 1];
     hecke_ring_cyclotomic_generator := cyc;
     hecke_ring_numerators := None; hecke_ring_denominators := [];
     hecke_ring_character_values := None |}.

(** A table of forms of weight 2: level, form, stored [ap]. *)
Definition table_db (table : list (Z * WebNewform * list (list Z))) : Database :=
  {| mf_newforms_search := λ N k,
       if k =? 2 then map (λ e, label e.1.2) (filter (λ e, e.1.1 = N) table) else [];
     by_label := λ lbl,
       default (rational_form 0 lbl 0)
               ((λ e, e.1.2) <$> head (filter (λ e, label e.1.2 = lbl) table));
     mf_hecke_nf_lucky := λ lbl,
       (λ e, ([], e.2)) <$> head (filter (λ e, label e.1.2 = lbl) table) |}.

(** Five forms whose [ap] modulo 2 are A, B, A, A, C. *)
Definition db_ex : Database := table_db
  [ (11, rational_form 11 "11.2.a.a" 0, [[-2]; [-1]; [1]]);
    (13, rational_form 13 "13.2.a.a" 0, [[-1]; [-1]; [1]]);
    (15, rational_form 15 "15.2.a.a" 0, [[0]; [1]; [3]]);
    (17, rational_form 17 "17.2.a.a" 0, [[2]; [-1]; [-1]]);
    (19, rational_form 19 "19.2.a.a" 0, [[-1]; [0]; [-2]]) ].

(** The second form has a cyclotomic generator. *)
Definition db_cyclotomic : Database := table_db
  [ (11, rational_form 11 "11.2.a.a" 0, [[-2]; [-1]; [1]]);
    (13, rational_form 13 "13.2.e.a" 6, [[-1]; [-1]; [1]]);
    (15, rational_form 15 "15.2.a.a" 0, [[0]; [1]; [3]]) ].

Definition nf_degree_one : Newform :=
  {| web := rational_form 11 "11.2.a.a" 0; hecke_field := NumberField [0; 1];
     reductions := [RedVector [GF 2 1]]; an := []; ap := [[-2]; [-1]; [1]] |}.

Definition record_11 : nf_record :=
  {| rec_label := "11.2.a.a"; rec_N := 11; rec_k := 2; rec_d := 1;
     rec_ap := dict_of_pairs [(2, GF 2 1); (3, GF 2 0); (5, GF 2 1)];
     rec_chi_mod_ell := []; rec_ell := Some 2; rec_index := Some 1 |}.


(** ** Output files and the comparison with older records *)

(** [open(filename, mode)] for the two modes the script uses. *)
Inductive file_mode : Set := mode_w | mode_a.

Definition newline : string := String (ascii_of_nat 10) EmptyString.

(** The files after [o = open(filename, mode)], one [o.write(line)] for
    each line, and [o.close()]. *)
Definition write_lines (fs : gmap string string) (filename : string)
    (mode : file_mode) (lines : list string) : gmap string string :=
  let old := match mode with
             | mode_w => EmptyString
             | mode_a => default EmptyString (fs !! filename)
             end in
  <[filename := old +:+ String.concat "" lines]> fs.

(** [data_output]: the files after a call that returns. What is left of
    the file when [nf_to_string] raises in the middle is not modelled. *)
Definition data_output (fs : gmap string string) (nf_list : list nf_record)
    (filename : string) (mode : file_mode) (nap : option Z)
  : result (gmap string string) :=
  lines ← mapM (λ nf, s ← nf_to_string nf nap; OK (s +:+ newline)) nf_list;
  OK (write_lines fs filename mode lines).

(** [extra_output]: one line [label:dim:ell] for each triple. *)
Definition extra_line (nf : string * Z * Z) : string :=
  nf.1.1 +:+ ":" +:+ str_of_Z nf.1.2 +:+ ":" +:+ str_of_Z nf.2 +:+ newline.

Definition extra_output (fs : gmap string string) (nf_list : list (string * Z * Z))
    (filename : string) (mode : file_mode) : gmap string string :=
  write_lines fs filename mode (map extra_line nf_list).

(** [compare_new_old]: [new_f['ap_mod_ell']] is walked in the order of
    its keys, so it is kept as the list of its items; [old_f['ap']] is
    only looked up. *)
Record new_record (V : Type) : Type := {
  new_N : Z;
  new_ap_mod_ell : list (Z * V)
}.
Arguments new_N {V}.
Arguments new_ap_mod_ell {V}.

Record old_record (V : Type) : Type := {
  old_N : Z;
  old_ap : gmap Z V
}.
Arguments old_N {V}.
Arguments old_ap {V}.

Fixpoint compare_ap_loop {V} `{EqDecision V} (items : list (Z * V)) (old : gmap Z V)
  : result bool :=
  match items with
  | [] => OK true
  | pv :: items' =>
      w ← getkey (old !! pv.1);
      if decide (pv.2 ≠ w) then OK false else compare_ap_loop items' old
  end.

Definition compare_new_old {V} `{EqDecision V} (new_f : new_record V) (old_f : old_record V)
  : result bool :=
  if negb (old_N old_f =? new_N new_f) then OK false
  else compare_ap_loop (new_ap_mod_ell new_f) (old_ap old_f).

(** [c in s] for a character. *)
Fixpoint contains (c : ascii) (s : string) : bool :=
  match s with
  | EmptyString => false
  | String a s' => Ascii.eqb a c || contains c s'
  end.

(** A form over [QQ(a)], [a^2 = 5], stored with the basis
    [1, (1 + a)/2] of its Hecke order. *)
Definition nf_sqrt5 : Newform :=
  {| web := {| label := "23.2.a.a"; level := 23; weight := 2; dim := 2;
               char_order := 1; field_poly := Some [-5; 0; 1];
               hecke_ring_cyclotomic_generator := 0;
               hecke_ring_numerators := Some [[1; 0]; [1; 1]];
               hecke_ring_denominators := [1; 2];
               hecke_ring_character_values := None |};
     hecke_field := NumberField [-5; 0; 1];
     reductions := []; an := []; ap := [] |}.

(** Where the records and the triples that [run] collects come from. *)
Definition record_from (maximal_ideals : Z → list (list (list GFelt)) → list Ideal)
    (db : Database) (levels : list Z) (ell : Z) (r : nf_record) : Prop :=
  ∃ N k forms missing f red r0 n,
    N ∈ levels ∧ k ∈ weights ell
    ∧ get_forms maximal_ideals db N k ell = OK (forms, missing)
    ∧ f ∈ forms ∧ red ∈ reductions f
    ∧ nf_mod_ell f red = OK r0
    ∧ r = set_index (set_ell r0 ell) n.

Definition triple_from (maximal_ideals : Z → list (list (list GFelt)) → list Ideal)
    (db : Database) (levels : list Z) (ell : Z) (t : string * Z * Z) : Prop :=
  ∃ N k forms missing,
    N ∈ levels ∧ k ∈ weights ell
    ∧ get_forms maximal_ideals db N k ell = OK (forms, missing)
    ∧ t ∈ missing.

(** The invariant of [run] on the keys and the origin of its lists. *)
Definition sweep_invariant (maximal_ideals : Z → list (list (list GFelt)) → list Ideal)
    (db : Database) (levels ells : list Z) (st : run_state) : Prop :=
  dom (st_nf st) = list_to_set ells
  ∧ dom (st_nnf st) = list_to_set ells
  ∧ dom (st_nfx st) = list_to_set ells
  ∧ (∀ ell l r, st_nf st !! ell = Some l → r ∈ l →
       ell ∈ ells ∧ record_from maximal_ideals db levels ell r)
  ∧ (∀ ell l t, st_nfx st !! ell = Some l → t ∈ l →
       ell ∈ ells ∧ triple_from maximal_ideals db levels ell t).

(** A table with one form of level 37 and dimension 2 whose field
    polynomial is not stored. *)
Definition db_deferred : Database := table_db
  [ (37, {| label := "37.2.e.a"; level := 37; weight := 2; dim := 2;
            char_order := 1; field_poly := None;
            hecke_ring_cyclotomic_generator := 0;
            hecke_ring_numerators := None; hecke_ring_denominators := [];
            hecke_ring_character_values := None |}, []) ].

(** * Lemmas and theorems *)

(** *** The error monad *)

Lemma bind_OK {A B} (m : result A) (f : A → result B) b :
  m ≫= f = OK b ↔ ∃ a, m = OK a ∧ f a = OK b.
Proof.
  destruct m as [a|e]; simpl; split.
  - eauto.
  - by intros (? & [= ->] & ?).
  - done.
  - by intros (? & ? & ?).
Qed.

Lemma OK_inj {A} (a b : A) : OK a = OK b → a = b.
Proof. by intros [= ->]. Qed.

(** Split a hypothesis [x ← m; k x = OK b] into its steps. *)
Ltac bind_inv H :=
  repeat match type of H with
  | _ ≫= _ = OK _ =>
      let a := fresh "a" in
      let Ha := fresh "H" a in
      apply bind_OK in H as (a & Ha & H)
  end.

Lemma mapM_OK {A B} (f : A → result B) l bs :
  mapM f l = OK bs ↔ Forall2 (λ a b, f a = OK b) l bs.
Proof.
  revert bs. induction l as [|a l IH]; intros bs; simpl.
  - split; [intros [= <-]; constructor | intros ->%Forall2_nil_inv_l; done].
  - rewrite bind_OK. split.
    + intros (b & Hb & Hrest). apply bind_OK in Hrest as (bs' & Hbs & [= <-]).
      constructor; [done | by apply IH].
    + intros (b & bs' & Hb & Hbs & ->)%Forall2_cons_inv_l.
      exists b. split; [done|]. apply bind_OK. exists bs'. split; [by apply IH | done].
Qed.

Lemma mapM_total {A B} (f : A → result B) l :
  Forall (λ a, ∃ b, f a = OK b) l → ∃ bs, mapM f l = OK bs.
Proof.
  induction 1 as [|a l [b Hb] _ [bs Hbs]]; simpl; [eauto|].
  exists (b :: bs). by rewrite Hb, Hbs.
Qed.

Lemma mapM_Raise {A B} (f : A → result B) l a e :
  a ∈ l → f a = Raise e → ∃ e', mapM f l = Raise e'.
Proof.
  induction l as [|x l IH]; intros Hin Hf; [by apply elem_of_nil in Hin|].
  simpl. destruct (f x) as [b|e0] eqn:Hx; simpl; [|eauto].
  apply elem_of_cons in Hin as [->|Hin]; [congruence|].
  destruct (IH Hin Hf) as [e' ->]. simpl. eauto.
Qed.

Lemma foldM_Raise {A S} (f : S → A → result S) l a :
  a ∈ l → (∀ s, ∃ e, f s a = Raise e) → ∀ s, ∃ e, foldM f s l = Raise e.
Proof.
  induction l as [|x l IH]; intros Hin Hf s; [by apply elem_of_nil in Hin|].
  simpl. apply elem_of_cons in Hin as [->|Hin].
  - destruct (Hf s) as [e ->]. simpl. eauto.
  - destruct (f s x) as [s'|e]; simpl; [by apply IH | eauto].
Qed.

Lemma foldM_invariant {A S} (P : S → Prop) (f : S → A → result S) l :
  (∀ s a s', P s → f s a = OK s' → P s') →
  ∀ s s', P s → foldM f s l = OK s' → P s'.
Proof.
  intros Hstep. induction l as [|a l IH]; intros s s' Hs; simpl.
  - by intros [= <-].
  - intros (s1 & H1 & H2)%bind_OK. eapply IH; [|done]. by eapply Hstep.
Qed.

(** *** [apply_red] is the dot product *)

Lemma GF_mod_mod ell x : GF ell (x mod ell) = GF ell x.
Proof.
  unfold GF. f_equal. destruct (Z.eq_dec ell 0) as [->|].
  - by rewrite !Z.mod_0_r.
  - by rewrite Z.mod_mod.
Qed.

Lemma GF_add_GF ell x y : GF_add (GF ell x) (GF ell y) = OK (GF ell (x + y)).
Proof.
  unfold GF_add, GF_binop. simpl. rewrite Z.eqb_refl. f_equal.
  unfold GF. f_equal. destruct (Z.eq_dec ell 0) as [->|].
  - by rewrite !Z.mod_0_r.
  - by rewrite <- Z.add_mod.
Qed.

Lemma foldM_GF_add ell ys : ∀ s,
  foldM GF_add (GF ell s) (map (GF ell) ys) = OK (GF ell (s + foldr Z.add 0 ys)).
Proof.
  induction ys as [|y ys IH]; intros s; simpl.
  - by rewrite Z.add_0_r.
  - rewrite GF_add_GF. simpl. rewrite IH. do 2 f_equal. lia.
Qed.

Lemma zip_with_GF_scale ell red : Forall (λ r, parent r = ell) red →
  ∀ coeffs, zip_with GF_scale coeffs red
            = map (GF ell) (zip_with (λ c r, c * residue r) coeffs red).
Proof.
  induction 1 as [|r red Hr _ IH]; intros [|c coeffs]; simpl; try done.
  rewrite IH. unfold GF_scale. by rewrite Hr.
Qed.

Lemma apply_red_dot ell red coeffs : vector_over ell red →
  apply_red coeffs (RedVector red) = OK (GF ell (dot coeffs red)).
Proof.
  intros [Hne Hall]. unfold apply_red, dot.
  rewrite (zip_with_GF_scale ell red Hall).
  destruct red as [|r0 red]; [done|]. simpl getitem. simpl mbind.
  apply Forall_cons in Hall as Hr0. destruct Hr0 as [Hr0 _]. rewrite Hr0.
  destruct (zip_with _ coeffs (r0 :: red)) as [|y ys]; simpl; [done|].
  rewrite Z.add_0_l. change (y mod ell) with (residue (GF ell y)).
  change ({| parent := ell; residue := residue (GF ell y) mod ell |})
    with (GF ell (residue (GF ell y))).
  simpl residue. rewrite GF_mod_mod.
  rewrite foldM_GF_add. simpl. by rewrite Z.eqb_refl.
Qed.

(** The dot product is linear in the coefficients. *)
Lemma dot_add c1 : ∀ c2 red, length c1 = length c2 →
  dot (zip_with Z.add c1 c2) red = dot c1 red + dot c2 red.
Proof.
  unfold dot. induction c1 as [|a c1 IH]; intros [|b c2] red Hlen; try done.
  destruct red as [|r red]; [done|]. simpl in *.
  rewrite IH by lia. lia.
Qed.

Lemma dot_scale k c : ∀ red, dot (map (Z.mul k) c) red = k * dot c red.
Proof.
  unfold dot. induction c as [|a c IH]; intros [|r red]; simpl; try lia.
  rewrite IH. lia.
Qed.

Lemma dot_basis d i red r :
  (i < d)%nat → red !! i = Some r → dot (basis_coeffs d i) red = residue r.
Proof.
  unfold dot, basis_coeffs. intros Hi Hr.
  assert (∀ n (l : list GFelt) j, (j < n)%nat → l !! j = Some r → ∀ s,
    foldr Z.add 0
      (zip_with (λ c0 r0, c0 * residue r0)
         (map (λ k, if Nat.eqb (s + j) k then 1 else 0) (seq s n)) l) = residue r) as H.
  { clear. induction n as [|n IH]; intros l j Hj Hl s; [lia|].
    destruct l as [|x l]; [done|]. simpl.
    destruct j as [|j].
    - injection Hl as ->. rewrite Nat.add_0_r, Nat.eqb_refl.
      assert (∀ m t (l' : list GFelt), (s < t)%nat →
        foldr Z.add 0 (zip_with (λ c0 r0, c0 * residue r0)
          (map (λ k, if Nat.eqb s k then 1 else 0) (seq t m)) l') = 0) as Hz.
      { clear. induction m as [|m IHm]; intros t [|y l'] Ht; simpl; try done.
        destruct (Nat.eqb_spec s t); [lia|]. rewrite IHm by lia. lia. }
      rewrite Hz by lia. lia.
    - destruct (Nat.eqb_spec (s + S j) s); [lia|].
      replace (s + S j)%nat with (S s + j)%nat by lia.
      rewrite (IH l j) by (done || lia). lia. }
  by apply (H d red i Hi Hr 0%nat).
Qed.

Lemma dot_mod ell c1 : ∀ c2 red,
  Forall2 (λ a b, a mod ell = b mod ell) c1 c2 →
  dot c1 red mod ell = dot c2 red mod ell.
Proof.
  unfold dot. intros c2 red H. revert red.
  induction H as [|a b c1 c2 Hab _ IH]; intros [|r red]; simpl; try done.
  destruct (Z.eq_dec ell 0) as [->|Hell].
  { rewrite !Z.mod_0_r in *. specialize (IH red). rewrite !Z.mod_0_r in IH. congruence. }
  rewrite Z.add_mod, (Z.add_mod (b * _)) by done.
  rewrite IH. rewrite Z.mul_mod, (Z.mul_mod b) by done. by rewrite Hab.
Qed.
Lemma divides_spec a b : divides a b = true ↔ (a | b).
Proof.
  unfold divides. rewrite Z.eqb_eq. destruct (Z.eq_dec a 0) as [->|Ha].
  - rewrite Z.mod_0_r. split; [intros ->; exists 0; lia | intros [c ->]; lia].
  - by rewrite Z.mod_divide.
Qed.

(** *** Primality by trial division *)

Lemma no_divisor_from_spec n : ∀ fuel d, 0 < d →
  no_divisor_from fuel d n = true ↔ ∀ i, d ≤ i < d + Z.of_nat fuel → ¬ (i | n).
Proof.
  induction fuel as [|fuel IH]; intros d Hd; simpl.
  - split; [intros _ i; lia | done].
  - rewrite andb_true_iff, negb_true_iff, IH by lia.
    rewrite <- not_true_iff_false. fold (divides d n). rewrite divides_spec.
    split.
    + intros [H1 H2] i Hi. destruct (Z.eq_dec i d) as [->|]; [done|].
      apply H2. lia.
    + intros H. split; [apply H; lia | intros i Hi; apply H; lia].
Qed.

Lemma no_divisor_from_false n : ∀ fuel d, 0 < d →
  no_divisor_from fuel d n = false → ∃ i, d ≤ i < d + Z.of_nat fuel ∧ (i | n).
Proof.
  induction fuel as [|fuel IH]; intros d Hd; simpl; [done|].
  rewrite andb_false_iff, negb_false_iff. intros [H|H].
  - exists d. split; [lia|]. by apply divides_spec.
  - destruct (IH (d + 1)) as (i & Hi & Hdiv); [lia | done |].
    exists i. split; [lia | done].
Qed.

Lemma is_prime_spec n : is_prime n = true ↔ Z.prime n.
Proof.
  unfold is_prime, Z.prime. rewrite andb_true_iff, Z.leb_le.
  rewrite no_divisor_from_spec by lia. split.
  - intros [H1 H2]. split; [lia|]. intros i Hi. apply H2. lia.
  - intros [H1 H2]. split; [lia|]. intros i Hi. apply H2. lia.
Qed.

Lemma exists_prime_divisor n : 2 ≤ n → ∃ q, Z.prime q ∧ (q | n).
Proof.
  intros Hn. assert (0 ≤ n) as Hnn by lia. revert Hn.
  pattern n. apply Z_lt_induction; [|done]. clear n Hnn.
  intros n IH Hn. destruct (is_prime n) eqn:Hp.
  - exists n. split; [by apply is_prime_spec | apply Z.divide_refl].
  - unfold is_prime in Hp. rewrite andb_false_iff, Z.leb_gt in Hp.
    destruct Hp as [?|Hp]; [lia|].
    apply no_divisor_from_false in Hp as (i & Hi & Hd); [|lia].
    destruct (IH i) as (q & Hq & Hqi); [lia | lia |].
    exists q. split; [done|]. by etrans.
Qed.

Lemma Zfact_pos n : 0 < Zfact n.
Proof. induction n; simpl Zfact; lia. Qed.

Lemma divide_Zfact q : ∀ n, 0 < q ≤ Z.of_nat n → (q | Zfact n).
Proof.
  induction n as [|n IH]; intros Hq; [lia|].
  change (Zfact (S n)) with (Z.of_nat (S n) * Zfact n).
  destruct (Z.eq_dec q (Z.of_nat (S n))) as [->|].
  - apply Z.divide_factor_l.
  - apply Z.divide_mul_r, IH. lia.
Qed.

(** Euclid: there is a prime in [(p, p! + 1]]. *)
Lemma prime_above p : 0 ≤ p →
  ∃ q, Z.prime q ∧ p < q ≤ Zfact (Z.to_nat p) + 1.
Proof.
  intros Hp. pose proof (Zfact_pos (Z.to_nat p)) as Hf.
  destruct (exists_prime_divisor (Zfact (Z.to_nat p) + 1)) as (q & Hq & Hd); [lia|].
  pose proof (Z.prime_ge_2 _ Hq) as Hq2.
  exists q. split; [done|]. split.
  - destruct (Z.lt_ge_cases p q) as [|Hle]; [done|]. exfalso.
    assert (q | Zfact (Z.to_nat p)) as Hd' by (apply divide_Zfact; lia).
    assert (q | 1) as H1.
    { replace 1 with (Zfact (Z.to_nat p) + 1 - Zfact (Z.to_nat p)) by lia.
      by apply Z.divide_sub_r. }
    apply Z.divide_pos_le in H1; lia.
  - apply Z.divide_pos_le in Hd; lia.
Qed.

Lemma find_prime_from_spec q : Z.prime q →
  ∀ fuel c, c ≤ q < c + Z.of_nat fuel →
    Z.prime (find_prime_from fuel c)
    ∧ c ≤ find_prime_from fuel c ≤ q
    ∧ ∀ i, c ≤ i < find_prime_from fuel c → ¬ Z.prime i.
Proof.
  intros Hq. induction fuel as [|fuel IH]; intros c Hc; [lia|].
  simpl. destruct (is_prime c) eqn:Hp.
  - split; [by apply is_prime_spec|]. split; [lia|]. intros i; lia.
  - assert (¬ Z.prime c) as Hnp by (rewrite <- is_prime_spec; congruence).
    assert (c ≠ q) by congruence.
    destruct (IH (c + 1)) as (H1 & H2 & H3); [lia|].
    split; [done|]. split; [lia|]. intros i Hi.
    destruct (Z.eq_dec i c) as [->|]; [done|]. apply H3. lia.
Qed.

Lemma next_prime_spec p : 1 ≤ p →
  Z.prime (next_prime p) ∧ p < next_prime p
  ∧ ∀ i, p < i < next_prime p → ¬ Z.prime i.
Proof.
  intros Hp. destruct (prime_above p) as (q & Hq & Hpq); [lia|].
  pose proof (Zfact_pos (Z.to_nat p)) as Hf.
  destruct (find_prime_from_spec q Hq (Z.to_nat (Zfact (Z.to_nat p))) (p + 1))
    as (H1 & H2 & H3); [lia|].
  fold (next_prime p) in *. split; [done|]. split; [lia|].
  intros i Hi. apply H3. lia.
Qed.

(** The list holds consecutive primes: every prime between [p] and an
    element of the list is in the list. *)
Lemma primes_from_spec : ∀ n p, 1 ≤ p →
  length (primes_from n p) = n
  ∧ Forall Z.prime (primes_from n p)
  ∧ Forall (λ q, p < q) (primes_from n p)
  ∧ StronglySorted Z.lt (primes_from n p)
  ∧ ∀ q r, Z.prime q → p < q → r ∈ primes_from n p → q < r → q ∈ primes_from n p.
Proof.
  induction n as [|n IH]; intros p Hp; simpl.
  - repeat split; try constructor. intros q r _ _ Hr. by apply elem_of_nil in Hr.
  - destruct (next_prime_spec p Hp) as (Hnp & Hlt & Hmin).
    destruct (IH (next_prime p)) as (Hlen & Hpr & Hgt & Hsort & Hall); [lia|].
    split; [by rewrite Hlen|]. split; [by constructor|].
    split; [constructor; [done|]; eapply Forall_impl; [done|]; simpl; lia|].
    split; [constructor; [done|]; done|].
    intros q r Hq Hpq Hr Hqr. apply elem_of_cons in Hr as [->|Hr].
    + exfalso. by apply (Hmin q).
    + destruct (Z.lt_trichotomy q (next_prime p)) as [Hc|[->|Hc]].
      * exfalso. by apply (Hmin q).
      * left.
      * right. by apply (Hall q r).
Qed.

Lemma primes_first_n_spec n :
  length (primes_first_n n) = n
  ∧ Forall Z.prime (primes_first_n n)
  ∧ StronglySorted Z.lt (primes_first_n n)
  ∧ ∀ q r, Z.prime q → r ∈ primes_first_n n → q < r → q ∈ primes_first_n n.
Proof.
  destruct (primes_from_spec n 1) as (H1 & H2 & H3 & H4 & H5); [lia|].
  repeat split; try done. intros q r Hq. apply H5; [done|].
  pose proof (Z.prime_ge_2 _ Hq). lia.
Qed.

Lemma primes_first_n_NoDup n : NoDup (primes_first_n n).
Proof.
  destruct (primes_first_n_spec n) as (_ & _ & Hs & _).
  induction Hs as [|a l Hl IH Ha]; constructor; [|done].
  intros Hin. rewrite Forall_forall in Ha. specialize (Ha _ Hin). lia.
Qed.
Lemma prime_gcd_cases ell v :
  Z.prime ell → Z.gcd v ell = 1 ∨ Z.gcd v ell = ell.
Proof.
  intros Hp. pose proof (Z.gcd_nonneg v ell) as Hnn.
  pose proof (Z.gcd_divide_r v ell) as Hd.
  pose proof (Z.prime_ge_2 _ Hp).
  destruct (Z.divide_prime_r _ _ Hp Hd) as [H'|[H'|[H'|H']]]; lia.
Qed.

Lemma prime_to_m_part_loop_spec ell : Z.prime ell →
  ∀ fuel v, 0 < v → v ≤ Z.of_nat fuel →
    ∃ k, 0 ≤ k ∧ v = ell ^ k * prime_to_m_part_loop fuel v ell
         ∧ 0 < prime_to_m_part_loop fuel v ell
         ∧ Z.gcd (prime_to_m_part_loop fuel v ell) ell = 1.
Proof.
  intros Hp. pose proof (Z.prime_ge_2 _ Hp) as Hge.
  induction fuel as [|fuel IH]; intros v Hv Hle; [lia|].
  simpl. destruct (Z.eqb_spec (Z.gcd v ell) 1) as [Hg|Hg].
  - exists 0. rewrite Z.pow_0_r. repeat split; lia.
  - destruct (prime_gcd_cases ell v Hp) as [?|Hg']; [done|]. rewrite Hg'.
    assert (Hdiv : (ell | v)) by (rewrite <- Hg'; apply Z.gcd_divide_l).
    destruct Hdiv as [q Hq]. subst v. rewrite Z.div_mul by lia.
    assert (0 < q) by nia.
    destruct (IH q) as (k & Hk & Heq & Hpos & Hcop); [lia | nia |].
    exists (k + 1). rewrite Z.pow_add_r, Z.pow_1_r by lia.
    repeat split; [lia | | done | done].
    rewrite Heq at 1. ring.
Qed.

Lemma prime_to_m_part_spec m ell : 0 < m → Z.prime ell →
  ∃ k m1, prime_to_m_part m ell = OK m1
          ∧ 0 ≤ k ∧ m = ell ^ k * m1 ∧ prime_to_part m ell m1.
Proof.
  intros Hm Hp. pose proof (Z.prime_ge_2 _ Hp) as Hge.
  unfold prime_to_m_part.
  destruct (Z.eqb_spec m 0); [lia|]. destruct (Z.eqb_spec ell 0); [lia|].
  destruct (prime_to_m_part_loop_spec ell Hp (Z.to_nat (Z.abs m)) m)
    as (k & Hk & Heq & Hpos & Hcop); [lia | lia |].
  set (m1 := prime_to_m_part_loop _ _ _) in *.
  exists k, m1. split; [done|]. split; [done|]. split; [done|].
  repeat split; [done | exists (ell ^ k); lia | done |].
  intros d Hd Hdm Hdc. apply Z.divide_pos_le; [done|].
  apply Z.gauss with (ell ^ k); [by rewrite <- Heq|].
  by apply Z.coprime_pow_r.
Qed.

Lemma prime_to_part_unique m ell a b :
  prime_to_part m ell a → prime_to_part m ell b → a = b.
Proof.
  intros (Ha & Hda & Hca & Hma) (Hb & Hdb & Hcb & Hmb).
  pose proof (Hma b Hb Hdb Hcb). pose proof (Hmb a Ha Hda Hca). lia.
Qed.

(** C5: for a positive [m] and a prime [ell], [char_order_valid m ell]
    returns [True] exactly when the largest divisor of [m] coprime to
    [ell] divides [ell - 1], that is when [m = ell^k * m1] with [m1]
    dividing [ell - 1]; it returns [True] for [m = 1], [False] for
    (3, 2) and [True] for (1, 5). *)
Theorem char_order_valid_spec (m ell : Z) (Hm : 0 < m) (Hell : Z.prime ell) :
  (char_order_valid m ell = OK true
     ↔ ∃ m1, prime_to_part m ell m1 ∧ (m1 | ell - 1))
  ∧ (char_order_valid m ell = OK true
     ↔ ∃ k m1, 0 ≤ k ∧ m = ell ^ k * m1 ∧ (m1 | ell - 1))
  ∧ (∃ b, char_order_valid m ell = OK b)
  ∧ char_order_valid 1 ell = OK true
  ∧ char_order_valid 3 2 = OK false
  ∧ char_order_valid 1 5 = OK true.
Proof.
  pose proof (Z.prime_ge_2 _ Hell) as Hge.
  destruct (prime_to_m_part_spec m ell Hm Hell) as (k & m0 & Hm0 & Hk & Heq & Hpart).
  assert (Hvalid : char_order_valid m ell = OK true ↔ (m0 | ell - 1)).
  { unfold char_order_valid. rewrite Hm0. cbn [mbind result_bind].
    rewrite <- divides_spec. split; [by intros [= ->] | by intros ->]. }
  split; [|split; [|split; [|split; [|split]]]].
  - rewrite Hvalid. split.
    + intros Hd. eauto.
    + intros (m1 & Hm1 & Hd). by rewrite (prime_to_part_unique _ _ _ _ Hpart Hm1).
  - rewrite Hvalid. split.
    + intros Hd. eauto.
    + intros (k' & m1 & Hk' & Heq' & Hd).
      assert (Hpk : 0 < ell ^ k') by (apply Z.pow_pos_nonneg; lia).
      assert (Hm1 : 0 < m1) by nia.
      assert (Hc1 : Z.gcd m1 ell = 1).
      { rewrite Z.gcd_comm. apply Z.coprime_prime_l; [done|]. intros Hdiv.
        assert (Hl : (ell | ell - 1)) by (eapply Z.divide_trans; eauto).
        apply Z.divide_pos_le in Hl; lia. }
      destruct Hpart as (Hp0 & Hpd & Hpc & Hmax).
      assert (Hle1 : m1 ≤ m0).
      { apply Hmax; [done | exists (ell ^ k'); lia | done]. }
      assert (Hdiv2 : (m0 | m1)).
      { apply Z.gauss with (ell ^ k'); [rewrite <- Heq'; done|].
        by apply Z.coprime_pow_r. }
      apply Z.divide_pos_le in Hdiv2; [|done].
      by replace m0 with m1 by lia.
  - unfold char_order_valid. rewrite Hm0. cbn [mbind result_bind]. eauto.
  - unfold char_order_valid, prime_to_m_part.
    destruct (Z.eqb_spec ell 0); [lia|]. simpl.
    replace (Z.to_nat 1) with 1%nat by done. simpl.
    rewrite Z.gcd_1_l. simpl. f_equal. apply divides_spec, Z.divide_1_l.
  - reflexivity.
  - reflexivity.
Qed.

Lemma char_order_valid_spec_witness :
  char_order_valid 20 5 = OK true
  ↔ ∃ k m1, 0 ≤ k ∧ 20 = 5 ^ k * m1 ∧ (m1 | 5 - 1).
Proof.
  apply (char_order_valid_spec 20 5).
  - lia.
  - apply is_prime_spec. vm_compute. reflexivity.
Defined.

(** *** Dictionaries *)

Lemma dict_of_pairs_list_to_map {A} (pairs : list (Z * A)) :
  dict_of_pairs pairs = list_to_map (reverse pairs).
Proof.
  unfold dict_of_pairs.
  assert (∀ m : gmap Z A,
    foldl (λ m kv, <[kv.1 := kv.2]> m) m pairs
    = foldr (λ kv m, <[kv.1 := kv.2]> m) m (reverse pairs)) as H.
  { induction pairs as [|[k v] l IH]; intros m; simpl; [done|].
    rewrite reverse_cons, foldr_app. simpl. by rewrite IH. }
  rewrite H. generalize (reverse pairs). intros l.
  induction l as [|[k v] l IH]; simpl; [done|]. by rewrite IH.
Qed.

Lemma dict_of_pairs_lookup {A} (pairs : list (Z * A)) k v :
  NoDup pairs.*1 → dict_of_pairs pairs !! k = Some v ↔ (k, v) ∈ pairs.
Proof.
  intros Hnd. rewrite dict_of_pairs_list_to_map.
  rewrite <- elem_of_list_to_map by (by rewrite fmap_reverse, reverse_Permutation).
  by rewrite elem_of_reverse.
Qed.

Lemma dict_of_pairs_dom {A} (pairs : list (Z * A)) :
  dom (dict_of_pairs pairs) = list_to_set pairs.*1.
Proof.
  rewrite dict_of_pairs_list_to_map, dom_list_to_map_L, fmap_reverse.
  apply set_eq. intros x. by rewrite !elem_of_list_to_set, elem_of_reverse.
Qed.

Lemma enumerate_lookup {A} (l : list A) i :
  enumerate l !! i = (λ a, (i, a)) <$> l !! i.
Proof.
  unfold enumerate. rewrite lookup_zip_with.
  destruct (l !! i) as [a|] eqn:Ha; simpl.
  - apply lookup_lt_Some in Ha as Hi. by rewrite lookup_seq_lt.
  - apply lookup_ge_None in Ha. by rewrite lookup_seq_ge.
Qed.

Lemma enumerate_snd {A} (l : list A) : (enumerate l).*2 = l.
Proof. unfold enumerate. apply snd_zip. by rewrite length_seq. Qed.

(** *** [reduce_ap_mod_ell] *)

Lemma reduce_ap_pairs nf red pairs :
  mapM (λ ip : nat * Z, a ← getitem (ap nf) ip.1; v ← apply_red a red; OK (ip.2, v))
       (enumerate (primes_first_n (length (ap nf)))) = OK pairs →
  pairs.*1 = primes_first_n (length (ap nf))
  ∧ ∀ i p, primes_first_n (length (ap nf)) !! i = Some p →
      ∃ a v, ap nf !! i = Some a ∧ apply_red a red = OK v ∧ pairs !! i = Some (p, v).
Proof.
  intros H%mapM_OK. split.
  - rewrite <- (enumerate_snd (primes_first_n _)).
    induction H as [|[i p] [q v] l l' Hx _ IH]; simpl; [done|]. f_equal; [|done].
    apply bind_OK in Hx as (a & _ & Hx). apply bind_OK in Hx as (w & _ & Hx).
    by injection Hx as <- _.
  - intros i p Hp.
    assert (enumerate (primes_first_n (length (ap nf))) !! i = Some (i, p)) as He
      by (by rewrite enumerate_lookup, Hp).
    destruct (Forall2_lookup_l _ _ _ _ _ H He) as ([q v] & Hq & Hx).
    apply bind_OK in Hx as (a & Ha & Hx). apply bind_OK in Hx as (w & Hw & Hx).
    injection Hx as <- <-. exists a, w. split; [|done].
    unfold getitem in Ha. simpl in Ha. by destruct (ap nf !! i) as [a'|]; simplify_eq.
Qed.

Lemma reduce_ap_mod_ell_OK nf red verbose d :
  reduce_ap_mod_ell nf red verbose = OK d →
  dom d = list_to_set (primes_first_n (length (ap nf)))
  ∧ ∀ i p, primes_first_n (length (ap nf)) !! i = Some p →
      ∃ a v, ap nf !! i = Some a ∧ apply_red a red = OK v ∧ d !! p = Some v.
Proof.
  unfold reduce_ap_mod_ell. intros (_ & _ & H)%bind_OK.
  apply bind_OK in H as (pairs & Hpairs & [= <-]).
  destruct (reduce_ap_pairs _ _ _ Hpairs) as [Hkeys Hvals]. split.
  - by rewrite dict_of_pairs_dom, Hkeys.
  - intros i p Hp. destruct (Hvals i p Hp) as (a & v & Ha & Hv & Hl).
    exists a, v. split; [done|]. split; [done|].
    apply dict_of_pairs_lookup; [rewrite Hkeys; apply primes_first_n_NoDup|].
    by eapply list_elem_of_lookup_2.
Qed.

Lemma reduce_ap_mod_ell_total nf ell red :
  vector_over ell red → ∃ d, reduce_ap_mod_ell nf (RedVector red) false = OK d.
Proof.
  intros Hred.
  destruct (mapM_total
    (λ ip : nat * Z, a ← getitem (ap nf) ip.1; v ← apply_red a (RedVector red); OK (ip.2, v))
    (enumerate (primes_first_n (length (ap nf))))) as [pairs Hp].
  2:{ exists (dict_of_pairs pairs). unfold reduce_ap_mod_ell.
      apply bind_OK. exists []. split; [done|].
      apply bind_OK. exists pairs. split; done. }
  apply Forall_forall. intros [i p] Hin.
  apply list_elem_of_lookup in Hin as [j Hj]. rewrite enumerate_lookup in Hj.
  destruct (primes_first_n _ !! j) as [q|] eqn:Hq; [|done]. injection Hj as <- <-.
  apply lookup_lt_Some in Hq.
  destruct (primes_first_n_spec (length (ap nf))) as (Hlen & _). rewrite Hlen in Hq.
  destruct (lookup_lt_is_Some_2 _ _ Hq) as [a Ha].
  exists (q, GF ell (dot a red)). apply bind_OK. exists a.
  split; [unfold getitem; cbn [fst]; by rewrite Ha|].
  apply bind_OK. eexists. split; [by apply apply_red_dot | done].
Qed.

Lemma compare_record_true r1 r2 :
  compare_record r1 r2 = OK true
  ↔ (∃ ell, rec_ell r1 = Some ell ∧ rec_ell r2 = Some ell) ∧ rec_ap r1 = rec_ap r2.
Proof.
  unfold compare_record.
  destruct (rec_ell r1) as [e1|], (rec_ell r2) as [e2|]; simpl;
    try (split; [done | by intros [(? & ? & ?) _]]).
  split.
  - intros [= H]. apply andb_true_iff in H as [->%Z.eqb_eq H%bool_decide_eq_true]. eauto.
  - intros [(ell & [= ->] & [= ->]) Hap]. by rewrite Z.eqb_refl, bool_decide_eq_true_2.
Qed.

(** C9 (as amended): for a non-empty vector [red] over [GF(ell)] and
    [coeffs] of any length, [apply_red] returns the dot product of the
    two vectors over the length of the shorter one, as an element of
    [GF(ell)]; there is no length check. For an empty [red] it raises
    [IndexError]. *)
Theorem apply_red_zip_dot_product (ell : Z) (coeffs : list Z) (red : list GFelt)
    (Hred : Forall (λ r, parent r = ell) red) :
  (red ≠ [] → apply_red coeffs (RedVector red) = OK (GF ell (dot coeffs red)))
  ∧ dot coeffs red = dot (take (length red) coeffs) (take (length coeffs) red)
  ∧ (red = [] → apply_red coeffs (RedVector red) = Raise IndexError).
Proof.
  split; [|split].
  - intros Hne. by apply apply_red_dot.
  - unfold dot. f_equal. clear Hred.
    revert red. induction coeffs as [|c coeffs IH]; intros [|r red]; simpl; try done.
    by rewrite <- IH.
  - by intros ->.
Qed.

Lemma apply_red_length_mismatch :
  length [1; 2; 3] ≠ length [GF 5 1; GF 5 1]
  ∧ apply_red [1; 2; 3] (RedVector [GF 5 1; GF 5 1]) = OK (GF 5 3)
  ∧ ¬ ∃ e, apply_red [1; 2; 3] (RedVector [GF 5 1; GF 5 1]) = Raise e.
Proof. split; [done|]. split; [reflexivity|]. intros [e He]. discriminate He. Qed.

Lemma apply_red_zip_dot_product_witness :
  apply_red [1; 2; 3] (RedVector [GF 5 1; GF 5 1]) = OK (GF 5 (dot [1; 2; 3] [GF 5 1; GF 5 1])).
Proof.
  apply (apply_red_zip_dot_product 5 [1; 2; 3] [GF 5 1; GF 5 1]).
  - repeat constructor.
  - done.
Defined.
(** C10: the keys of the dictionary of [reduce_ap_mod_ell] are the
    first [len(nf.ap)] primes, the value at the i-th prime is
    [apply_red(nf.ap[i], red)], and the call returns for every vector
    over [GF(ell)]. [compare_record] answers true exactly for equal
    [ell] and equal dictionaries; two such dictionaries are equal
    exactly when they store the same number of [ap] with the same
    value at every index. *)
Theorem reduce_ap_mod_ell_keys (nf : Newform) (red : reduction) (verbose : bool)
    (d : gmap Z GFelt) (Hd : reduce_ap_mod_ell nf red verbose = OK d) :
  let ps := primes_first_n (length (ap nf)) in
  (length ps = length (ap nf) ∧ Forall Z.prime ps ∧ StronglySorted Z.lt ps
   ∧ ∀ q r, Z.prime q → r ∈ ps → q < r → q ∈ ps)
  ∧ dom d = list_to_set ps
  ∧ size d = length (ap nf)
  ∧ (∀ i p, ps !! i = Some p →
       ∃ a v, ap nf !! i = Some a ∧ apply_red a red = OK v ∧ d !! p = Some v)
  ∧ (∀ ell v, vector_over ell v →
       ∃ d0, reduce_ap_mod_ell nf (RedVector v) false = OK d0)
  ∧ (∀ r1 r2, compare_record r1 r2 = OK true
       ↔ (∃ ell, rec_ell r1 = Some ell ∧ rec_ell r2 = Some ell)
         ∧ rec_ap r1 = rec_ap r2)
  ∧ (∀ nf' red' verbose' d', reduce_ap_mod_ell nf' red' verbose' = OK d' →
       d = d' ↔
       length (ap nf) = length (ap nf')
       ∧ ∀ i a a', ap nf !! i = Some a → ap nf' !! i = Some a' →
           apply_red a red = apply_red a' red').
Proof.
  intros ps. pose proof (primes_first_n_spec (length (ap nf))) as Hps.
  destruct (reduce_ap_mod_ell_OK _ _ _ _ Hd) as [Hdom Hval].
  assert (Hsize : size d = length (ap nf)).
  { rewrite <- size_dom, Hdom, size_list_to_set by apply primes_first_n_NoDup.
    apply Hps. }
  split; [done|]. split; [done|]. split; [done|]. split; [done|].
  split; [intros ell v; apply reduce_ap_mod_ell_total|].
  split; [apply compare_record_true|].
  intros nf' red' verbose' d' Hd'.
  destruct (reduce_ap_mod_ell_OK _ _ _ _ Hd') as [Hdom' Hval'].
  assert (Hsize' : size d' = length (ap nf')).
  { rewrite <- size_dom, Hdom', size_list_to_set by apply primes_first_n_NoDup.
    apply primes_first_n_spec. }
  split.
  - intros <-. split; [congruence|]. intros i a a' Ha Ha'.
    assert (length (ap nf') = length (ap nf)) as Hlen by congruence.
    destruct (lookup_lt_is_Some_2 ps i) as [p Hp].
    { unfold ps. destruct Hps as [-> _]. by eapply lookup_lt_Some. }
    destruct (Hval i p Hp) as (b & v & Hb & Hv & Hl).
    destruct (Hval' i p) as (b' & v' & Hb' & Hv' & Hl'); [by rewrite Hlen|].
    simplify_eq. congruence.
  - intros [Hlen Hall]. apply map_eq. intros p.
    destruct (decide (p ∈ ps)) as [Hin|Hnin].
    + apply list_elem_of_lookup in Hin as [i Hp].
      destruct (Hval i p Hp) as (b & v & Hb & Hv & Hl).
      destruct (Hval' i p) as (b' & v' & Hb' & Hv' & Hl'); [by rewrite <- Hlen|].
      rewrite Hl, Hl'. specialize (Hall i b b' Hb Hb'). congruence.
    + assert (d !! p = None) as ->.
      { apply not_elem_of_dom. rewrite Hdom. by rewrite elem_of_list_to_set. }
      symmetry. apply not_elem_of_dom. rewrite Hdom', <- Hlen.
      by rewrite elem_of_list_to_set.
Qed.

Lemma reduce_ap_mod_ell_keys_witness :
  ∃ d, reduce_ap_mod_ell nf_degree_one (RedVector [GF 2 1]) false = OK d
       ∧ dom d = list_to_set (primes_first_n 3).
Proof.
  eexists. split; [reflexivity|].
  apply (reduce_ap_mod_ell_keys nf_degree_one (RedVector [GF 2 1]) false).
  vm_compute. reflexivity.
Defined.

(** *** [get_forms] and the sweep of [run] *)

Section Sweep.
Variable maximal_ideals : Z → list (list (list GFelt)) → list Ideal.
Variable db : Database.

Lemma const_dict_lookup {A} (c : A) (ells : list Z) k x :
  dict_of_pairs (map (λ ell, (ell, c)) ells) !! k = Some x → x = c.
Proof.
  rewrite dict_of_pairs_list_to_map. intros H%elem_of_list_to_map_2.
  apply elem_of_reverse, list_elem_of_fmap in H as (e & [= _ ->] & _). done.
Qed.

Lemma const_dict_dom {A} (c : A) (ells : list Z) k :
  is_Some (dict_of_pairs (map (λ ell, (ell, c)) ells) !! k) ↔ k ∈ ells.
Proof.
  rewrite <- elem_of_dom, dict_of_pairs_dom, elem_of_list_to_set.
  by rewrite <- list_fmap_compose, list_fmap_id.
Qed.

Lemma count_true_filter {A} (f : A → result bool) (g : A → bool) l cmps :
  (∀ a b, f a = OK b → g a = b) →
  mapM f l = OK cmps →
  foldr (λ (b : bool) n, (if b then 1 else 0) + n) 0 cmps
  = Z.of_nat (length (filter (λ a, g a = true) l)).
Proof.
  intros Hfg H%mapM_OK. induction H as [|a b l bs Hab _ IH]; simpl; [done|].
  rewrite IH, filter_cons. specialize (Hfg a b Hab).
  destruct b; [rewrite decide_True by done | rewrite decide_False by congruence];
    simpl length; lia.
Qed.

Lemma distinct_count_snoc l r :
  distinct_count (l ++ [r])
  = distinct_count l + (if decide (rec_index r = Some 1) then 1 else 0).
Proof.
  unfold distinct_count. rewrite filter_app, length_app, filter_cons, filter_nil.
  case_decide; simpl; lia.
Qed.

Lemma add_reduction_indexed ell f st red st' :
  indexed_state st → add_reduction ell f st red = OK st' → indexed_state st'.
Proof.
  intros Hinv H. unfold add_reduction in H.
  apply bind_OK in H as (nfr & _ & H).
  apply bind_OK in H as (seen & Hseen & H).
  apply bind_OK in H as (cmps & Hcmps & H).
  apply bind_OK in H as (nnf & Hnnf & [= <-]).
  assert (st_nf st !! ell = Some seen) as Hl
    by (by destruct (st_nf st !! ell); simplify_eq/=).
  destruct (Hinv ell seen Hl) as (Hidx & Hells & Hcnt).
  set (n_previous := foldr _ 0 cmps) in *.
  assert (n_previous
          = Z.of_nat (length (filter (λ r', same_reduction (set_ell nfr ell) r' = true) seen)))
    as Hprev.
  { apply (count_true_filter (compare_record (set_ell nfr ell))); [|done].
    intros a b Hab. unfold same_reduction. rewrite Hab. by destruct b. }
  intros ell' l'. simpl. destruct (decide (ell = ell')) as [<-|Hne].
  - rewrite lookup_insert_eq. intros [= <-]. split; [|split].
    + intros i r Hr. destruct (decide (i < length seen)%nat) as [Hi|Hi].
      * rewrite lookup_app_l in Hr by done. rewrite take_app_le by lia.
        by apply Hidx.
      * apply lookup_lt_Some in Hr as Hi'. rewrite length_app in Hi'. simpl in Hi'.
        assert (i = length seen) as -> by lia.
        rewrite list_lookup_middle in Hr by done. injection Hr as <-.
        rewrite take_app_length.
        change (Some (n_previous + 1)
                = Some (1 + Z.of_nat (length
                    (filter (λ r', same_reduction (set_ell nfr ell) r' = true) seen)))).
        rewrite <- Hprev. f_equal. lia.
    + apply Forall_app. split; [done|]. by constructor.
    + rewrite distinct_count_snoc. cbn [rec_index set_index].
      destruct (Z.eqb_spec n_previous 0) as [Hz|Hz].
      * apply bind_OK in Hnnf as (n & Hn & [= <-]). rewrite lookup_insert_eq.
        rewrite Hcnt in Hn. injection Hn as <-. rewrite Hz.
        by rewrite decide_True.
      * injection Hnnf as <-. rewrite Hcnt. rewrite decide_False; [f_equal; lia|].
        intros [= ?]. lia.
  - rewrite lookup_insert_ne by done. intros Hl'.
    destruct (Hinv ell' l' Hl') as (? & ? & Hc). split; [done|]. split; [done|].
    destruct (n_previous =? 0).
    + apply bind_OK in Hnnf as (n & Hn & [= <-]). by rewrite lookup_insert_ne.
    + by injection Hnnf as <-.
Qed.

Lemma sweep_triple_indexed ell k st N st' :
  indexed_state st → sweep_triple maximal_ideals db ell k st N = OK st' → indexed_state st'.
Proof.
  intros Hinv H. unfold sweep_triple in H.
  apply bind_OK in H as (ffs & _ & H). apply bind_OK in H as (st1 & Hst1 & H).
  assert (indexed_state st1) as Hinv1.
  { destruct ffs.2; [by injection Hst1 as <-|].
    apply bind_OK in Hst1 as (missing & _ & [= <-]). done. }
  revert H. apply foldM_invariant; [|done].
  intros s f s' Hs. apply foldM_invariant; [|done].
  intros ? ? ?. apply add_reduction_indexed.
Qed.

Lemma run_sweep_indexed levels ells st :
  run_sweep maximal_ideals db levels ells = OK st → indexed_state st.
Proof.
  unfold run_sweep. apply foldM_invariant.
  - intros s ell s' Hs. apply foldM_invariant; [|done].
    intros s1 k s1' Hs1. apply foldM_invariant; [|done].
    intros ? ? ?. apply sweep_triple_indexed.
  - intros ell l. simpl. intros Hl.
    assert (is_Some (dict_of_pairs (map (λ ell0 : Z, (ell0, 0)) ells) !! ell)) as [n Hn].
    { apply const_dict_dom. eapply (const_dict_dom (A:=list nf_record)). eauto. }
    apply const_dict_lookup in Hl as ->. rewrite Hn.
    apply const_dict_lookup in Hn as ->.
    split; [|split; [constructor | done]].
    intros i r Hr. by rewrite lookup_nil in Hr.
Qed.

(** Exceptions leave the sweep at once. *)
Lemma get_forms_Raise N k ell fp e :
  ell ≠ 0 → N mod ell ≠ 0 → fp ∈ forms_with_field db N k ell →
  make_reductions maximal_ideals (with_hecke_field fp) ell = Raise e →
  ∃ e', get_forms maximal_ideals db N k ell = Raise e'.
Proof.
  intros Hell HN Hin Hraise. unfold get_forms.
  destruct (Z.eqb_spec ell 0); [done|]. destruct (Z.eqb_spec (N mod ell) 0); [done|].
  destruct (mapM _ (map (by_label db) (mf_newforms_search db N k))) as [checked|e0];
    [|simpl; eauto].
  cbn [mbind result_bind].
  destruct (mapM_Raise (attach_reductions maximal_ideals db ell) _ fp e Hin) as [e' ->];
    [|simpl; eauto].
  unfold attach_reductions. by rewrite Hraise.
Qed.

Lemma run_sweep_Raise levels ells ell k N e :
  ell ∈ ells → k ∈ weights ell → N ∈ levels →
  get_forms maximal_ideals db N k ell = Raise e →
  ∃ e', run_sweep maximal_ideals db levels ells = Raise e'.
Proof.
  intros Hell Hk HN Hraise. unfold run_sweep.
  apply (foldM_Raise _ ells ell Hell). intros st.
  apply (foldM_Raise _ (weights ell) k Hk). intros st1.
  apply (foldM_Raise _ levels N HN). intros st2.
  exists e. unfold sweep_triple. by rewrite Hraise.
Qed.

End Sweep.

(** *** The fatal conditions of one form *)

Lemma rescale_loop_zero ell vv v v0 :
  1 < ell → Forall (vector_over ell) vv →
  v ∈ vv → v !! 0%nat = Some v0 → GF_eq_int v0 0 = true →
  rescale_loop vv = Raise ValueError.
Proof.
  intros Hell Hall. revert v v0.
  induction Hall as [|x vv [Hne Hx] _ IH]; intros v v0 Hin Hv0 Hzero;
    [by apply elem_of_nil in Hin|].
  destruct x as [|x0 x]; [done|]. simpl.
  apply Forall_cons in Hx as Hx0. destruct Hx0 as [Hp0 Hx'].
  destruct (GF_eq_int x0 1) eqn:H1; simpl.
  - apply elem_of_cons in Hin as [->|Hin]; [|by eapply IH].
    injection Hv0 as <-. unfold GF_eq_int in *. rewrite Hp0 in *.
    apply Z.eqb_eq in H1, Hzero. rewrite Z.mod_0_l in Hzero by lia.
    rewrite Z.mod_1_l in H1 by lia. lia.
  - destruct (GF_eq_int x0 0) eqn:H0; [done|].
    apply elem_of_cons in Hin as [->|Hin]; [injection Hv0 as <-; congruence|].
    unfold GF_inv. unfold GF_eq_int in H0. rewrite Z.mod_0_l in H0 by lia.
    rewrite H0. simpl.
    destruct (mapM_total (λ vi, GF_mul vi (GF (parent x0) (residue x0 ^ (parent x0 - 2))))
                (x0 :: x)) as [w Hw].
    { eapply Forall_impl; [exact Hx|]. intros r Hr. simpl in Hr.
      unfold GF_mul, GF_binop. simpl. rewrite Hr, Hp0, Z.eqb_refl. eauto. }
    simpl in Hw. rewrite Hw. simpl. by eapply IH.
Qed.

Lemma rescale_loop_OK vv :
  rescale_loop vv = OK tt →
  Forall (λ v, ∃ v0, v !! 0%nat = Some v0
                     ∧ (GF_eq_int v0 1 = true ∨ GF_eq_int v0 0 = false)) vv.
Proof.
  induction vv as [|v vv IH]; [constructor|]. simpl.
  destruct v as [|v0 v]; [done|]. simpl.
  destruct (GF_eq_int v0 1) eqn:H1; simpl.
  - intros H. constructor; [eauto | by apply IH].
  - destruct (GF_eq_int v0 0) eqn:H0; [done|].
    intros H. apply bind_OK in H as (v0inv & _ & H).
    apply bind_OK in H as (w & _ & H). constructor; [eauto | by apply IH].
Qed.

Lemma make_reductions_fatal maximal_ideals nf ell e :
  fatal_condition maximal_ideals nf ell e →
  make_reductions maximal_ideals nf ell = Raise e.
Proof.
  intros Hf. unfold make_reductions.
  destruct Hf as [poly Hk Hc | poly betas b0 s s0 Hk Hc Hb Hb0 H1 Hp Hs Hs0 Hid
                 | poly betas b0 s s0 vv v v0 Hk Hc Hb Hb0 H1 Hp Hs Hs0 Hid Hvv Hall Hin Hv0 Hz];
    rewrite Hk.
  - by destruct (Z.eqb_spec (hecke_ring_cyclotomic_generator (web nf)) 0).
  - rewrite Hc, Hb. simpl. unfold reduction_maps, getitem, GF_field.
    rewrite Hb0. simpl. rewrite H1, Hp. simpl. rewrite Hs. simpl.
    rewrite Hs0. simpl. by rewrite Hid.
  - rewrite Hc, Hb. simpl. unfold reduction_maps, getitem, GF_field.
    rewrite Hb0. simpl. rewrite H1, Hp. simpl. rewrite Hs. simpl.
    rewrite Hs0. simpl. rewrite Hid. simpl. rewrite Hvv. simpl.
    rewrite (rescale_loop_zero ell vv v v0); try done.
    apply is_prime_spec, Z.prime_ge_2 in Hp. lia.
Qed.

(** C4 (as amended): when a form that the sweep reaches meets one of
    the three fatal conditions, [make_reductions] raises the exception
    of that condition, and since nothing catches it, [get_forms] raises
    for that triple and [run] raises too: no results are returned. *)
Theorem fatal_condition_aborts_sweep
    (maximal_ideals : Z → list (list (list GFelt)) → list Ideal) (db : Database)
    (levels ells : list Z) (ell k N : Z) (fp : WebNewform * list Z) (e : exn)
    (Hell : ell ∈ ells) (Hk : k ∈ weights ell) (HN : N ∈ levels)
    (Hgood : ell ≠ 0 ∧ N mod ell ≠ 0)
    (Hform : fp ∈ forms_with_field db N k ell)
    (Hfatal : fatal_condition maximal_ideals (with_hecke_field fp) ell e) :
  make_reductions maximal_ideals (with_hecke_field fp) ell = Raise e
  ∧ (∃ e', get_forms maximal_ideals db N k ell = Raise e')
  ∧ (∃ e', run maximal_ideals db levels ells = Raise e').
Proof.
  pose proof (make_reductions_fatal _ _ _ _ Hfatal) as Hraise.
  destruct Hgood as [H0 Hmod].
  destruct (get_forms_Raise maximal_ideals db N k ell fp e H0 Hmod Hform Hraise)
    as [e1 He1].
  split; [done|]. split; [eauto|].
  destruct (run_sweep_Raise maximal_ideals db levels ells ell k N e1 Hell Hk HN He1)
    as [e2 He2].
  exists e2. unfold run. by rewrite He2.
Qed.

Lemma fatal_condition_aborts_sweep_witness :
  ∃ e', run ideals_degree_one db_cyclotomic [11; 13; 15] [2] = Raise e'.
Proof.
  apply (fatal_condition_aborts_sweep ideals_degree_one db_cyclotomic
           [11; 13; 15] [2] 2 2 13 (rational_form 13 "13.2.e.a" 6, [0; 1])
           AssertionError).
  - set_solver.
  - vm_compute. set_solver.
  - set_solver.
  - split; [lia | vm_compute; lia].
  - vm_compute. set_solver.
  - apply (unsupported_basis _ _ _ [0; 1]); [reflexivity | simpl; lia].
Defined.

Lemma run_stops_at_fatal_form :
  run ideals_degree_one db_cyclotomic [11; 13; 15] [2] = Raise AssertionError
  ∧ (∃ f, get_forms ideals_degree_one db_cyclotomic 15 2 2 = OK ([f], []))
  ∧ ¬ ∃ res, run ideals_degree_one db_cyclotomic [11; 13; 15] [2] = OK res.
Proof.
  assert (run ideals_degree_one db_cyclotomic [11; 13; 15] [2] = Raise AssertionError)
    as H by (vm_compute; reflexivity).
  split; [done|]. split; [eexists; vm_compute; reflexivity|].
  intros [res Hres]. congruence.
Qed.

(** *** Shapes of vectors and matrices *)

Section Shapes.
Context {F : Type} (fops : field_ops F).

Lemma vadd_length (u v : list F) :
  length u = length v → length (vadd fops u v) = length u.
Proof. intros H. unfold vadd. rewrite length_zip_with. lia. Qed.

Lemma vscale_length c (v : list F) : length (vscale fops c v) = length v.
Proof. unfold vscale. by rewrite length_map. Qed.

Lemma clear_col_length c (piv row : list F) :
  length row = length piv → length (clear_col fops c piv row) = length row.
Proof.
  intros H. unfold clear_col. rewrite vadd_length; [done|]. by rewrite vscale_length.
Qed.

Lemma vec_mat_length n (c : list F) (rows : list (list F)) :
  Forall (λ r, length r = n) rows → length (vec_mat fops n c rows) = n.
Proof.
  unfold vec_mat. intros H. revert c.
  induction H as [|r rows Hr _ IH]; intros [|a c]; simpl;
    try (by rewrite length_replicate).
  rewrite vadd_length; rewrite vscale_length; [done|]. by rewrite IH.
Qed.

Lemma find_pivot_Forall (P : list F → Prop) c rows p others :
  find_pivot fops c rows = Some (p, others) → Forall P rows → P p ∧ Forall P others.
Proof.
  revert p others. induction rows as [|r rows IH]; intros p others H Hall; [done|].
  apply Forall_cons in Hall as [Hr Hrows]. cbn [find_pivot] in H.
  destruct (fis0 fops (entry fops r c)).
  - destruct (find_pivot fops c rows) as [[p' others']|]; [|done].
    injection H as <- <-. destruct (IH p' others' eq_refl Hrows) as [Hp Ho].
    split; [done|]. by constructor.
  - by injection H as <- <-.
Qed.

Lemma gauss_jordan_shape n cols : ∀ pivots rest,
  Forall (λ r, length r = n) pivots → Forall (λ r, length r = n) rest →
  Forall (λ r, length r = n) (gauss_jordan fops cols pivots rest).1.
Proof.
  induction cols as [|c cols IH]; intros pivots rest Hp Hr; [done|].
  cbn [gauss_jordan]. destruct (find_pivot fops c rest) as [[p others]|] eqn:Hf;
    [|by apply IH].
  destruct (find_pivot_Forall _ _ _ _ _ Hf Hr) as [Hlp Hlo].
  set (p1 := vscale fops (finv fops (entry fops p c)) p).
  assert (length p1 = n) as Hlp1 by (unfold p1; by rewrite vscale_length).
  apply IH.
  - apply Forall_app. split; [|by constructor]. apply Forall_fmap.
    eapply Forall_impl; [exact Hp|]. intros q Hq. simpl. cbv beta in Hq.
    rewrite clear_col_length; lia.
  - apply Forall_fmap. eapply Forall_impl; [exact Hlo|]. intros q Hq. simpl.
    cbv beta in Hq. rewrite clear_col_length; lia.
Qed.

Lemma length_unit_vector n i : length (unit_vector fops n i) = n.
Proof. unfold unit_vector. by rewrite length_map, length_seq. Qed.

Lemma inverse_shape n (m U : list (list F)) :
  inverse fops n m = OK U → Forall (λ r, length r = n) U.
Proof.
  unfold inverse. destruct (forallb _ m) eqn:Hm; [|done].
  destruct (gauss_jordan fops (seq 0 n) [] (zip_with app m (identity_matrix fops n)))
    as [pivots rest] eqn:Hgj.
  destruct (Nat.eqb (length pivots) n); [|done]. intros [= <-].
  assert (Forall (λ r, length r = (n + n)%nat) pivots) as Hp.
  { change pivots with (pivots, rest).1. rewrite <- Hgj.
    apply gauss_jordan_shape; [constructor|].
    rewrite forallb_forall in Hm. apply Forall_forall. intros r Hr.
    apply list_elem_of_lookup in Hr as [i Hi].
    apply lookup_zip_with_Some in Hi as (a & b & -> & Ha & Hb).
    rewrite length_app. f_equal.
    - apply Nat.eqb_eq, Hm, list_elem_of_In. by eapply list_elem_of_lookup_2.
    - unfold identity_matrix in Hb. apply list_lookup_fmap_Some in Hb as (k & -> & _).
      apply length_unit_vector. }
  apply Forall_fmap. eapply Forall_impl; [exact Hp|]. intros r Hr. simpl.
  cbv beta in Hr. rewrite length_drop. lia.
Qed.
End Shapes.

Lemma structure_matrices_shape betas ell structure :
  structure_matrices betas ell = OK structure →
  length structure = length betas
  ∧ Forall (λ Si, length Si = length betas
                  ∧ Forall (λ r, length r = length betas) Si) structure.
Proof.
  unfold structure_matrices. intros H. apply bind_OK in H as (U & HU & H).
  apply inverse_shape in HU. apply mapM_OK in H. split.
  - by apply Forall2_length in H.
  - eapply Forall2_Forall_r; [exact H|]. apply Forall_true. intros bi Si Hi.
    unfold change_ring in Hi. apply mapM_OK in Hi.
    pose proof (Forall2_length _ _ _ Hi) as Hl.
    unfold mat_mul in Hl. rewrite !length_map in Hl. split; [done|].
    eapply Forall2_Forall_r; [exact Hi|]. apply Forall_fmap, Forall_true.
    intros bj grow Hrow. simpl in Hrow. apply mapM_OK, Forall2_length in Hrow.
    rewrite <- Hrow. by apply vec_mat_length.
Qed.

(** *** Linear algebra over [GF(ell)] *)

#[local] Existing Instances eqm_setoid Zplus_eqm Zminus_eqm Zmult_eqm Zopp_eqm.

Section Residues.
Variable ell : Z.
Hypothesis Hell : Z.prime ell.

Local Infix "≅" := (eqm ell) (at level 70).
Local Notation "'ops'" := (Zmod_ops ell).
Local Notation "'ent'" := (entry (Zmod_ops ell)).

Lemma ell_ge_2 : 2 ≤ ell.
Proof. by apply Z.prime_ge_2. Qed.

Lemma one_not_zero : ¬ 1 ≅ 0.
Proof.
  pose proof ell_ge_2. unfold eqm.
  rewrite Z.mod_1_l, Z.mod_0_l by lia. lia.
Qed.

Lemma eqm_0_mod a : a ≅ 0 ↔ a mod ell = 0.
Proof. pose proof ell_ge_2. unfold eqm. by rewrite Z.mod_0_l by lia. Qed.

Lemma fis0_spec a : fis0 ops a = true ↔ a ≅ 0.
Proof. simpl. rewrite Z.eqb_eq. symmetry. apply eqm_0_mod. Qed.

Lemma finv_ok a : ¬ a ≅ 0 → finv ops a * a ≅ 1.
Proof.
  intros Ha. pose proof ell_ge_2. rewrite eqm_0_mod in Ha. simpl.
  rewrite (Zmod_eqm ell). unfold eqm. rewrite (Z.mod_1_l ell) by lia.
  rewrite <- (ZmodInv.Z.fermat_nz ell a Hell Ha). f_equal.
  replace (ell - 1) with ((ell - 2) + 1) by lia.
  rewrite Z.pow_add_r by lia. by rewrite Z.pow_1_r.
Qed.

Lemma eqm_cancel a b : ¬ b ≅ 0 → a * b ≅ 0 → a ≅ 0.
Proof.
  intros Hb Hab. pose proof ell_ge_2. rewrite eqm_0_mod in *.
  apply (Z.cong_mul_cancel_r_coprime a b ell); [lia | | done].
  unfold Z.coprime. rewrite Z.gcd_comm. apply Z.coprime_prime_l; [done|].
  intros Hd. apply Hb. apply Z.mod_divide; [lia | done].
Qed.

(** Entries of sums and multiples. *)
Lemma ent_vadd u v j :
  length u = length v → ent (vadd ops u v) j ≅ ent u j + ent v j.
Proof.
  intros Hlen. unfold entry, vadd. rewrite lookup_zip_with.
  destruct (u !! j) as [a|] eqn:Hu, (v !! j) as [b|] eqn:Hv; simpl.
  - apply Zmod_eqm.
  - apply lookup_lt_Some in Hu. apply lookup_ge_None in Hv. lia.
  - apply lookup_lt_Some in Hv. apply lookup_ge_None in Hu. lia.
  - reflexivity.
Qed.

Lemma ent_vscale c v j : ent (vscale ops c v) j ≅ c * ent v j.
Proof.
  unfold entry, vscale. rewrite list_lookup_fmap.
  destruct (v !! j) as [a|]; simpl; [apply Zmod_eqm | by rewrite Z.mul_0_r].
Qed.

Lemma length_vadd (u v : list Z) :
  length u = length v → length (vadd ops u v) = length u.
Proof. intros H. unfold vadd. rewrite length_zip_with. lia. Qed.

Lemma length_vscale c (v : list Z) : length (vscale ops c v) = length v.
Proof. unfold vscale. by rewrite length_map. Qed.

Lemma ent_clear_col c piv row j :
  length row = length piv →
  ent (clear_col ops c piv row) j ≅ ent row j - ent row c * ent piv j.
Proof.
  intros Hlen. unfold clear_col.
  rewrite ent_vadd by (by rewrite length_vscale).
  rewrite ent_vscale. simpl. rewrite (Zmod_eqm ell).
  replace (ent row j - ent row c * ent piv j)
    with (ent row j + - ent row c * ent piv j) by ring. done.
Qed.

Lemma length_clear_col c (piv row : list Z) :
  length row = length piv → length (clear_col ops c piv row) = length row.
Proof. intros H. unfold clear_col. rewrite length_vadd; [done|]. by rewrite length_vscale. Qed.

Lemma ent_ge (v : list Z) j : (length v ≤ j)%nat → ent v j = 0.
Proof. intros H. unfold entry. by rewrite lookup_ge_None_2. Qed.

(** Sums over lists of indices. *)
Lemma sumf_perm idx idx' g : idx ≡ₚ idx' → sumf idx g = sumf idx' g.
Proof.
  unfold sumf. induction 1 as [|j l l' _ IH|i j l|l1 l2 l3 _ IH1 _ IH2]; simpl.
  - done.
  - by rewrite IH.
  - lia.
  - congruence.
Qed.

Lemma sumf_eqm idx g h :
  (∀ j, j ∈ idx → g j ≅ h j) → sumf idx g ≅ sumf idx h.
Proof.
  unfold sumf. induction idx as [|j idx IH]; intros H; simpl; [done|].
  rewrite (H j) by (by left). rewrite IH; [done|]. intros i Hi. apply H. by right.
Qed.

Lemma sumf_zero idx g : (∀ j, j ∈ idx → g j ≅ 0) → sumf idx g ≅ 0.
Proof.
  intros H. rewrite (sumf_eqm idx g (λ _, 0) H). clear H.
  unfold sumf. induction idx as [|j idx IH]; simpl; [done|]. by rewrite IH.
Qed.

Lemma sumf_single idx g j0 :
  NoDup idx → j0 ∈ idx → (∀ j, j ∈ idx → j ≠ j0 → g j ≅ 0) → sumf idx g ≅ g j0.
Proof.
  intros Hnd Hin Hz. apply elem_of_Permutation in Hin as [idx' Hp].
  rewrite (sumf_perm _ _ g Hp). unfold sumf. simpl. fold (sumf idx' g).
  rewrite Hp in Hnd. apply NoDup_cons in Hnd as [Hnot _].
  rewrite sumf_zero; [by rewrite Z.add_0_r|].
  intros j Hj. apply Hz; [rewrite Hp; by right|]. intros ->. done.
Qed.

Lemma sumf_add idx g h : sumf idx (λ j, g j + h j) = sumf idx g + sumf idx h.
Proof. unfold sumf. induction idx as [|j idx IH]; simpl; [done|]. rewrite IH. lia. Qed.

Lemma sumf_scale idx c g : sumf idx (λ j, c * g j) = c * sumf idx g.
Proof. unfold sumf. induction idx as [|j idx IH]; simpl; [lia|]. rewrite IH. lia. Qed.

Lemma sumf_seq_shift s n g : sumf (seq (S s) n) g = sumf (seq s n) (λ j, g (S j)).
Proof.
  unfold sumf. revert s. induction n as [|n IH]; intros s; simpl; [done|].
  by rewrite IH.
Qed.

(** The dot product as a sum over the columns. *)
Lemma dotZ_sumf (x y : list Z) n :
  length x = n → length y = n →
  dotZ x y = sumf (seq 0 n) (λ j, ent x j * ent y j).
Proof.
  revert x y. induction n as [|n IH]; intros [|a x] [|b y] Hx Hy; try done.
  simpl in *. change (seq 1 n) with (seq (S 0) n).
  unfold sumf at 1. simpl. fold (sumf (seq 1 n) (λ j, ent (a :: x) j * ent (b :: y) j)).
  rewrite sumf_seq_shift. unfold dotZ. simpl. fold (dotZ x y).
  rewrite (IH x y) by lia. done.
Qed.

Lemma dotZ_comm (x y : list Z) : dotZ x y = dotZ y x.
Proof.
  unfold dotZ. revert y. induction x as [|a x IH]; intros [|b y]; simpl; try done.
  rewrite IH. lia.
Qed.

Lemma dotZ_vadd (a b u : list Z) n :
  length a = n → length b = n → length u = n →
  dotZ (vadd ops a b) u ≅ dotZ a u + dotZ b u.
Proof.
  intros Ha Hb Hu.
  rewrite (dotZ_sumf _ u n), (dotZ_sumf a u n), (dotZ_sumf b u n), <- sumf_add;
    try done; [|by rewrite length_vadd by lia].
  apply sumf_eqm. intros j _. rewrite ent_vadd by lia. ring_simplify. reflexivity.
Qed.

Lemma dotZ_vscale c (a u : list Z) n :
  length a = n → length u = n →
  dotZ (vscale ops c a) u ≅ c * dotZ a u.
Proof.
  intros Ha Hu.
  rewrite (dotZ_sumf _ u n), (dotZ_sumf a u n), <- sumf_scale;
    try done; [|by rewrite length_vscale].
  apply sumf_eqm. intros j _. rewrite ent_vscale. by rewrite Z.mul_assoc.
Qed.

Lemma dotZ_congruent (a b u : list Z) :
  congruent ell a b → dotZ a u ≅ dotZ b u.
Proof.
  unfold dotZ. intros H. revert u.
  induction H as [|x y a b Hxy _ IH]; intros [|z u]; simpl; try done.
  change (x ≅ y) in Hxy. by rewrite Hxy, IH.
Qed.

(** Gauss-Jordan elimination: what [find_pivot] finds, and the
    invariants of the loop. *)
Lemma find_pivot_None c rows :
  find_pivot ops c rows = None → Forall (λ r, ent r c ≅ 0) rows.
Proof.
  induction rows as [|r rows IH]; intros H; [constructor|]. cbn [find_pivot] in H.
  destruct (fis0 ops (ent r c)) eqn:H0; [|done].
  destruct (find_pivot ops c rows) as [[p others]|]; [done|].
  constructor; [by apply fis0_spec | by apply IH].
Qed.

Lemma find_pivot_Some c rows p others :
  find_pivot ops c rows = Some (p, others) →
  ¬ ent p c ≅ 0 ∧ rows ≡ₚ p :: others.
Proof.
  revert p others. induction rows as [|r rows IH]; intros p others H; [done|].
  cbn [find_pivot] in H. destruct (fis0 ops (ent r c)) eqn:H0.
  - destruct (find_pivot ops c rows) as [[p' others']|]; [|done].
    injection H as <- <-. destruct (IH p' others' eq_refl) as [Hp Hperm].
    split; [done|]. rewrite Hperm. apply perm_swap.
  - injection H as <- <-. split; [|done]. rewrite <- fis0_spec. congruence.
Qed.

Lemma Forall2_with {A B} (P : A → B → Prop) (Q : A → Prop) (R : B → Prop) l k :
  Forall2 P l k → Forall Q l → Forall R k →
  Forall2 (λ x y, Q x ∧ R y ∧ P x y) l k.
Proof.
  induction 1 as [|x y l k Hxy _ IH]; intros Hl Hk; [constructor|].
  apply Forall_cons in Hl as [Hx Hl]. apply Forall_cons in Hk as [Hy Hk].
  constructor; [done | by apply IH].
Qed.

(** A property of rows that sums and multiples keep is kept by the
    elimination. *)
Lemma gauss_jordan_linear n (P : list Z → Prop) :
  (∀ c a, length a = n → P a → P (vscale ops c a)) →
  (∀ a b, length a = n → length b = n → P a → P b → P (vadd ops a b)) →
  ∀ cols pivots rest,
    Forall (λ r, length r = n ∧ P r) pivots →
    Forall (λ r, length r = n ∧ P r) rest →
    Forall (λ r, length r = n ∧ P r) (gauss_jordan ops cols pivots rest).1
    ∧ Forall (λ r, length r = n ∧ P r) (gauss_jordan ops cols pivots rest).2.
Proof.
  intros Hscale Hadd.
  assert (Hclear : ∀ c piv row, (length piv = n ∧ P piv) → (length row = n ∧ P row) →
            length (clear_col ops c piv row) = n ∧ P (clear_col ops c piv row)).
  { intros c piv row [Hl1 HP1] [Hl2 HP2]. split.
    - rewrite length_clear_col; lia.
    - unfold clear_col. apply Hadd; try done; [by rewrite length_vscale | by apply Hscale]. }
  induction cols as [|c cols IH]; intros pivots rest Hp Hr; [done|].
  cbn [gauss_jordan]. destruct (find_pivot ops c rest) as [[p others]|] eqn:Hf.
  - apply find_pivot_Some in Hf as [_ Hperm]. rewrite Hperm in Hr.
    apply Forall_cons in Hr as [[Hlp HPp] Hothers].
    set (p1 := vscale ops (finv ops (ent p c)) p).
    assert (length p1 = n ∧ P p1) as Hp1.
    { split; [unfold p1; by rewrite length_vscale | by apply Hscale]. }
    apply IH.
    + apply Forall_app. split; [|by constructor].
      apply Forall_fmap. eapply Forall_impl; [exact Hp|]. intros q Hq. by apply Hclear.
    + apply Forall_fmap. eapply Forall_impl; [exact Hothers|]. intros q Hq. by apply Hclear.
  - by apply IH.
Qed.

Lemma gauss_jordan_length n cols pivots rest :
  Forall (λ r, length r = n) pivots → Forall (λ r, length r = n) rest →
  Forall (λ r, length r = n) (gauss_jordan ops cols pivots rest).1
  ∧ Forall (λ r, length r = n) (gauss_jordan ops cols pivots rest).2.
Proof.
  intros Hp Hr.
  destruct (gauss_jordan_linear n (λ _, True) (λ _ _ _ _, I) (λ _ _ _ _ _ _, I)
              cols pivots rest) as [H1 H2].
  - eapply Forall_impl; [exact Hp|]. done.
  - eapply Forall_impl; [exact Hr|]. done.
  - split; (eapply Forall_impl; [eassumption|]); by intros r [? _].
Qed.

(** What is orthogonal to the rows after the elimination was so before. *)
Lemma annihilates_clear_back u n c p1 row :
  length u = n → length p1 = n → length row = n →
  annihilates ell u p1 → annihilates ell u (clear_col ops c p1 row) →
  annihilates ell u row.
Proof.
  unfold annihilates. intros Hu Hp Hr H1 H2. unfold clear_col in H2.
  rewrite (dotZ_vadd _ _ _ n), (dotZ_vscale _ _ _ n), H1 in H2;
    try done; [|by rewrite length_vscale].
  rewrite Z.mul_0_r, Z.add_0_r in H2. done.
Qed.

Lemma annihilates_clear u n c p1 row :
  length u = n → length p1 = n → length row = n →
  annihilates ell u p1 → annihilates ell u row →
  annihilates ell u (clear_col ops c p1 row).
Proof.
  unfold annihilates. intros Hu Hp Hr H1 H2. unfold clear_col.
  rewrite (dotZ_vadd _ _ _ n), (dotZ_vscale _ _ _ n), H1, H2;
    try done; [|by rewrite length_vscale].
  by rewrite Z.mul_0_r.
Qed.

Lemma annihilates_unscale u n k p :
  length u = n → length p = n → ¬ k ≅ 0 →
  annihilates ell u (vscale ops (finv ops k) p) → annihilates ell u p.
Proof.
  unfold annihilates. intros Hu Hp Hk H.
  rewrite (dotZ_vscale _ _ _ n) in H by done.
  assert (k * (finv ops k * dotZ p u) ≅ 0) as H' by (by rewrite H, Z.mul_0_r).
  rewrite Z.mul_assoc, (Z.mul_comm k), (finv_ok k Hk), Z.mul_1_l in H'. done.
Qed.

Lemma gauss_jordan_annihilates_back n u cols : ∀ pivots rest,
  length u = n →
  Forall (λ r, length r = n) pivots → Forall (λ r, length r = n) rest →
  Forall (annihilates ell u) (gauss_jordan ops cols pivots rest).1 →
  Forall (annihilates ell u) (gauss_jordan ops cols pivots rest).2 →
  Forall (annihilates ell u) pivots ∧ Forall (annihilates ell u) rest.
Proof.
  induction cols as [|c cols IH]; intros pivots rest Hu Hlp Hlr H1 H2; [done|].
  cbn [gauss_jordan] in H1, H2.
  destruct (find_pivot ops c rest) as [[p others]|] eqn:Hf; [|by apply IH].
  apply find_pivot_Some in Hf as [Hpc Hperm]. rewrite Hperm in Hlr |- *.
  apply Forall_cons in Hlr as [Hlenp Hlo].
  set (p1 := vscale ops (finv ops (ent p c)) p) in *.
  assert (length p1 = n) as Hlp1 by (unfold p1; by rewrite length_vscale).
  destruct (IH (map (clear_col ops c p1) pivots ++ [p1])
              (map (clear_col ops c p1) others) Hu) as [Hnewp Hnewr]; try done.
  { apply Forall_app. split; [|by constructor]. apply Forall_fmap.
    eapply Forall_impl; [exact Hlp|]. intros q Hq. simpl. cbv beta in Hq. rewrite length_clear_col; lia. }
  { apply Forall_fmap. eapply Forall_impl; [exact Hlo|]. intros q Hq. simpl. cbv beta in Hq.
    rewrite length_clear_col; lia. }
  apply Forall_app in Hnewp as [Hnewp Hp1]. apply Forall_cons in Hp1 as [Hp1 _].
  split; [|constructor].
  - rewrite Forall_forall in Hnewp, Hlp |- *. intros q Hq.
    eapply annihilates_clear_back; [exact Hu | exact Hlp1 | by apply Hlp | exact Hp1 |].
    apply Hnewp, list_elem_of_fmap. eauto.
  - by eapply annihilates_unscale.
  - rewrite Forall_forall in Hnewr, Hlo |- *. intros q Hq.
    eapply annihilates_clear_back; [exact Hu | exact Hlp1 | by apply Hlo | exact Hp1 |].
    apply Hnewr, list_elem_of_fmap. eauto.
Qed.

(** And what is orthogonal to the rows before is so after. *)
Lemma gauss_jordan_annihilates n u cols pivots rest :
  length u = n →
  Forall (λ r, length r = n) pivots → Forall (λ r, length r = n) rest →
  Forall (annihilates ell u) pivots → Forall (annihilates ell u) rest →
  Forall (annihilates ell u) (gauss_jordan ops cols pivots rest).1
  ∧ Forall (annihilates ell u) (gauss_jordan ops cols pivots rest).2.
Proof.
  intros Hu Hlp Hlr Hp Hr.
  destruct (gauss_jordan_linear n (annihilates ell u)) with (cols := cols)
    (pivots := pivots) (rest := rest) as [H1 H2].
  - intros c a Ha H. unfold annihilates in *.
    by rewrite (dotZ_vscale _ _ _ n), H, Z.mul_0_r.
  - intros a b Ha Hb H1 H2. unfold annihilates in *.
    by rewrite (dotZ_vadd _ _ _ n), H1, H2.
  - rewrite Forall_forall in Hlp, Hp |- *. intros r Hr'. split; [by apply Hlp | by apply Hp].
  - rewrite Forall_forall in Hlr, Hr |- *. intros r Hr'. split; [by apply Hlr | by apply Hr].
  - split; (eapply Forall_impl; [eassumption|]); by intros r [_ ?].
Qed.

(** The reduced echelon form. *)
Lemma rref_step_none n c pcs pivots rest :
  rref_inv ell n c pcs pivots rest → find_pivot ops c rest = None →
  rref_inv ell n (S c) pcs pivots rest.
Proof.
  intros (Hlp & Hlr & Hs & Hlt & Hpiv & Hz) Hf.
  apply find_pivot_None in Hf.
  split; [done|]. split; [done|]. split; [done|]. split; [|split; [done|]].
  - eapply Forall_impl; [exact Hlt|]. intros j Hj. simpl in *. lia.
  - rewrite Forall_forall in Hz, Hf |- *. intros r Hr j Hj.
    destruct (decide (j = c)) as [->|]; [by apply Hf|]. apply Hz; [done | lia].
Qed.

Lemma rref_step_some n c pcs pivots rest p others :
  rref_inv ell n c pcs pivots rest → find_pivot ops c rest = Some (p, others) →
  rref_inv ell n (S c) (pcs ++ [c])
    (map (clear_col ops c (vscale ops (finv ops (ent p c)) p)) pivots
       ++ [vscale ops (finv ops (ent p c)) p])
    (map (clear_col ops c (vscale ops (finv ops (ent p c)) p)) others).
Proof.
  intros (Hlp & Hlr & Hs & Hlt & Hpiv & Hz) Hf.
  apply find_pivot_Some in Hf as [Hpc Hperm].
  rewrite Hperm in Hlr, Hz.
  apply Forall_cons in Hlr as [Hlenp Hlo]. apply Forall_cons in Hz as [Hzp Hzo].
  set (p1 := vscale ops (finv ops (ent p c)) p).
  assert (length p1 = n) as Hlp1 by (unfold p1; by rewrite length_vscale).
  assert (ent p1 c ≅ 1) as Hp1c.
  { unfold p1. rewrite ent_vscale. by apply finv_ok. }
  assert (∀ j, (j < c)%nat → ent p1 j ≅ 0) as Hp1z.
  { intros j Hj. unfold p1. rewrite ent_vscale, (Hzp j Hj). by rewrite Z.mul_0_r. }
  assert (∀ q, length q = n → length (clear_col ops c p1 q) = n) as Hlc.
  { intros q Hq. rewrite length_clear_col; lia. }
  split; [|split; [|split; [|split; [|split]]]].
  - apply Forall_app. split; [|by constructor]. apply Forall_fmap.
    eapply Forall_impl; [exact Hlp|]. intros q Hq. by apply Hlc.
  - apply Forall_fmap. eapply Forall_impl; [exact Hlo|]. intros q Hq. by apply Hlc.
  - apply StronglySorted_app_2; [|done|repeat constructor].
    rewrite Forall_forall in Hlt. intros x1 x2 Hx1 ->%list_elem_of_singleton. by apply Hlt.
  - apply Forall_app. split; [|by repeat constructor].
    eapply Forall_impl; [exact Hlt|]. intros j Hj. simpl in *. lia.
  - apply Forall2_app.
    + apply Forall2_fmap_l.
      eapply Forall2_impl; [exact (Forall2_with _ _ _ _ _ Hpiv Hlp Hlt)|].
      intros q ck (Hlq & Hck & H1 & Hbefore & Hothers). cbv beta in Hlq, Hck.
      split; [|split].
      * rewrite ent_clear_col by lia. rewrite H1, (Hp1z ck Hck).
        by rewrite Z.mul_0_r.
      * intros j Hj. rewrite ent_clear_col by lia.
        rewrite (Hbefore j Hj), (Hp1z j) by lia. by rewrite Z.mul_0_r.
      * intros ck' Hin Hne. rewrite ent_clear_col by lia.
        apply elem_of_app in Hin as [Hin | ->%list_elem_of_singleton].
        -- rewrite (Hothers ck' Hin Hne). rewrite Forall_forall in Hlt.
           rewrite (Hp1z ck' (Hlt ck' Hin)). by rewrite Z.mul_0_r.
        -- rewrite Hp1c. by rewrite Z.mul_1_r, Z.sub_diag.
    + constructor; [|constructor]. split; [done|]. split; [done|].
      intros ck' Hin Hne. apply elem_of_app in Hin as [Hin | ->%list_elem_of_singleton];
        [|done]. rewrite Forall_forall in Hlt. by apply Hp1z, Hlt.
  - apply Forall_fmap. rewrite Forall_forall in Hzo, Hlo |- *. intros r Hr j Hj. simpl.
    rewrite ent_clear_col by (rewrite (Hlo r Hr); lia).
    destruct (decide (j = c)) as [->|Hne].
    + rewrite Hp1c. by rewrite Z.mul_1_r, Z.sub_diag.
    + rewrite (Hzo r Hr j), (Hp1z j) by lia. by rewrite Z.mul_0_r.
Qed.

Lemma gauss_jordan_rref n m : ∀ c pcs pivots rest,
  (c + m = n)%nat → rref_inv ell n c pcs pivots rest →
  ∃ pcs', rref_inv ell n n pcs'
            (gauss_jordan ops (seq c m) pivots rest).1
            (gauss_jordan ops (seq c m) pivots rest).2.
Proof.
  induction m as [|m IH]; intros c pcs pivots rest Hc Hinv.
  - assert (c = n) as -> by lia. by exists pcs.
  - cbn [seq gauss_jordan].
    destruct (find_pivot ops c rest) as [[p others]|] eqn:Hf.
    + eapply (IH (S c)); [lia|]. by apply (rref_step_some n c pcs pivots rest).
    + eapply (IH (S c)); [lia|]. by apply rref_step_none.
Qed.

Lemma rref_start n (m : list (list Z)) :
  Forall (λ r, length r = n) m → rref_inv ell n 0 [] [] m.
Proof.
  intros Hm. split; [constructor|]. split; [done|]. split; [constructor|].
  split; [constructor|]. split; [constructor|].
  apply Forall_true. intros r j Hj. lia.
Qed.

(** The pivot column of a reduced row is the column of its first
    non-zero entry. *)
Lemma leading_spec (q : list Z) j :
  leading ops q = Some j
  ↔ ¬ ent q j ≅ 0 ∧ ∀ i, (i < j)%nat → ent q i ≅ 0.
Proof.
  revert j. induction q as [|x q IH]; intros j.
  - split; [done|]. intros [H _]. destruct H. reflexivity.
  - cbn [leading]. destruct (fis0 ops x) eqn:Hx.
    + apply fis0_spec in Hx. destruct j as [|j].
      * split; [by destruct (leading ops q)|]. by intros [H _].
      * destruct (leading ops q) as [k|]; simpl.
        -- split.
           ++ intros [= ->]. destruct (proj1 (IH j) eq_refl) as [H1 H2]. split; [done|].
              intros [|i] Hi; [done|]. apply H2. lia.
           ++ intros [H1 H2]. f_equal. f_equal.
              assert (Some k = Some j) as [= ->]; [|done].
              apply IH. split; [done|].
              intros i Hi. apply (H2 (S i)). lia.
        -- split; [done|]. intros [H1 H2].
           assert (None = Some j) as Hn; [|done].
           apply IH. split; [done|].
           intros i Hi. apply (H2 (S i)). lia.
    + assert (¬ x ≅ 0) as Hx' by (rewrite <- fis0_spec; congruence).
      split.
      * intros [= <-]. split; [done|]. intros i Hi. lia.
      * intros [H1 H2]. destruct j as [|j]; [done|]. destruct Hx'. apply (H2 0%nat). lia.
Qed.

Lemma pivot_row_leading pcs q ck : pivot_row ell pcs q ck → leading ops q = Some ck.
Proof.
  intros (H1 & H2 & _). apply leading_spec. split; [|done].
  rewrite H1. apply one_not_zero.
Qed.

(** The kernel. *)
Lemma sorted_lt_NoDup (l : list nat) : StronglySorted lt l → NoDup l.
Proof.
  induction 1 as [|x l _ IH Hx]; constructor; [|done].
  intros Hin. rewrite Forall_forall in Hx. specialize (Hx x Hin). lia.
Qed.

Lemma sumf_app l1 l2 g : sumf (l1 ++ l2) g = sumf l1 g + sumf l2 g.
Proof. unfold sumf. induction l1 as [|j l1 IH]; simpl; [done|]. rewrite IH. lia. Qed.

(** The columns are the pivot columns and the free ones. *)
Lemma free_column n (pcs : list nat) :
  NoDup pcs → Forall (λ j, (j < n)%nat) pcs → S (length pcs) = n →
  ∃ f, seq 0 n ≡ₚ (pcs ++ [f]) ∧ (f ∉ pcs) ∧ (f < n)%nat.
Proof.
  intros Hnd Hlt Hlen. rewrite Forall_forall in Hlt.
  assert (pcs ⊆+ seq 0 n) as Hsub.
  { apply NoDup_submseteq; [done|]. intros x Hx. apply elem_of_seq.
    specialize (Hlt x Hx). lia. }
  apply submseteq_Permutation in Hsub as [k Hk].
  assert (length k = 1%nat) as Hk1.
  { apply Permutation_length in Hk. rewrite length_seq, length_app in Hk. lia. }
  destruct k as [|f [|]]; try done. exists f. split; [done|].
  pose proof (NoDup_seq 0 n) as Hnds. rewrite Hk in Hnds.
  apply NoDup_app in Hnds as (_ & Hdisj & _). split.
  - intros Hin. apply (Hdisj f Hin). by left.
  - assert (f ∈ seq 0 n) as Hf by (rewrite Hk; apply elem_of_app; right; by left).
    apply elem_of_seq in Hf. lia.
Qed.

(** A reduced row determines the pivot coordinate of what it
    annihilates from the coordinates at the other columns. *)
Lemma pivot_relation n pcs f q ck w :
  seq 0 n ≡ₚ (pcs ++ [f]) → NoDup pcs → ck ∈ pcs →
  pivot_row ell pcs q ck → length q = n → length w = n →
  annihilates ell w q → ent w ck + ent q f * ent w f ≅ 0.
Proof.
  intros Hperm Hnd Hin (H1 & _ & Hothers) Hq Hw Hann. unfold annihilates in Hann.
  rewrite (dotZ_sumf q w n), (sumf_perm _ _ _ Hperm), sumf_app in Hann by done.
  rewrite (sumf_single pcs _ ck) in Hann; [|done|done|].
  - unfold sumf in Hann at 1. simpl in Hann.
    rewrite H1, Z.mul_1_l, Z.add_0_r in Hann. done.
  - intros j Hj Hne. rewrite (Hothers j Hj Hne). by rewrite Z.mul_0_l.
Qed.

(** With [n] columns and [n - 1] pivots the kernel is a line: two
    vectors annihilated by the rows are proportional. *)
Lemma kernel_line n (m : list (list Z)) (u v : list Z) :
  Forall (λ r, length r = n) m →
  S (rank ops n m) = n →
  length u = n → length v = n →
  Forall (annihilates ell u) m → Forall (annihilates ell v) m →
  ent v 0 ≅ 1 →
  ∀ j, (j < n)%nat → ent u j ≅ ent u 0 * ent v j.
Proof.
  intros Hm Hrank Hu Hv Hannu Hannv Hv0.
  destruct (gauss_jordan_rref n n 0 [] [] m eq_refl (rref_start n m Hm))
    as (pcs & Hlp & Hlr & Hs & Hlt & Hpiv & Hz).
  unfold rank in Hrank.
  set (R := (gauss_jordan ops (seq 0 n) [] m).1) in *.
  destruct (gauss_jordan_annihilates n u (seq 0 n) [] m) as [HRu _];
    [done | constructor | done | constructor | done |].
  destruct (gauss_jordan_annihilates n v (seq 0 n) [] m) as [HRv _];
    [done | constructor | done | constructor | done |].
  fold R in HRu, HRv.
  pose proof (sorted_lt_NoDup _ Hs) as Hnd.
  pose proof (Forall2_length _ _ _ Hpiv) as Hlen.
  destruct (free_column n pcs Hnd Hlt) as (f & Hperm & Hf & Hfn); [lia|].
  (* the coordinates at the pivot columns, from the one at [f] *)
  assert (Hrel2 : ∀ j, (j < n)%nat → j ≠ f →
            ∃ t, ent u j + t * ent u f ≅ 0 ∧ ent v j + t * ent v f ≅ 0).
  { intros j Hj Hjf.
    assert (j ∈ pcs) as Hin.
    { assert (j ∈ seq 0 n) as Hjs by (apply elem_of_seq; lia).
      rewrite Hperm in Hjs. apply elem_of_app in Hjs as [?|Hjs]; [done|].
      by apply list_elem_of_singleton in Hjs. }
    apply list_elem_of_lookup in Hin as [k Hk].
    destruct (Forall2_lookup_r _ _ _ _ _ Hpiv Hk) as (q & Hq & Hrow).
    exists (ent q f). rewrite Forall_forall in Hlp, HRu, HRv.
    assert (q ∈ R) as HqR by (by eapply list_elem_of_lookup_2).
    assert (j ∈ pcs) as Hjp by (by eapply list_elem_of_lookup_2).
    split; apply (pivot_relation n pcs f q j); try done; auto. }
  (* cross-multiplied, the two vectors agree *)
  assert (Hcross : ∀ j, (j < n)%nat → ent u j * ent v f ≅ ent v j * ent u f).
  { intros j Hj. destruct (decide (j = f)) as [->|Hjf]; [by rewrite Z.mul_comm|].
    destruct (Hrel2 j Hj Hjf) as (t & Htu & Htv).
    assert (ent u j ≅ - (t * ent u f)) as ->.
    { replace (ent u j) with ((ent u j + t * ent u f) + - (t * ent u f)) by ring.
      rewrite Htu. done. }
    assert (ent v j ≅ - (t * ent v f)) as ->.
    { replace (ent v j) with ((ent v j + t * ent v f) + - (t * ent v f)) by ring.
      rewrite Htv. done. }
    replace (- (t * ent u f) * ent v f) with (- (t * ent v f) * ent u f) by ring. done. }
  assert (Hvf : ¬ ent v f ≅ 0).
  { intros Hvf0. apply one_not_zero. rewrite <- Hv0.
    destruct (decide (0%nat = f)) as [<-|H0f]; [done|].
    destruct (Hrel2 0%nat ltac:(lia) H0f) as (t & _ & Htv).
    rewrite Hvf0, Z.mul_0_r, Z.add_0_r in Htv. done. }
  intros j Hj.
  assert (H0 : ent u 0 * ent v f ≅ ent u f).
  { rewrite (Hcross 0%nat) by lia. by rewrite Hv0, Z.mul_1_l. }
  assert (Hdiff : (ent u j - ent u 0 * ent v j) * ent v f ≅ 0).
  { replace ((ent u j - ent u 0 * ent v j) * ent v f)
      with (ent u j * ent v f - ent v j * (ent u 0 * ent v f)) by ring.
    rewrite H0, (Hcross j Hj). by rewrite Z.sub_diag. }
  apply eqm_cancel in Hdiff; [|done].
  replace (ent u j) with ((ent u j - ent u 0 * ent v j) + ent u 0 * ent v j) by ring.
  by rewrite Hdiff.
Qed.

(** The rows left over by a finished elimination are zero. *)
Lemma zero_row_annihilates n (r u : list Z) :
  length r = n → length u = n →
  (∀ j, (j < n)%nat → ent r j ≅ 0) → annihilates ell u r.
Proof.
  intros Hr Hu Hz. unfold annihilates. rewrite (dotZ_sumf r u n) by done.
  apply sumf_zero. intros j Hj%elem_of_seq. rewrite (Hz j) by lia. by rewrite Z.mul_0_l.
Qed.

Lemma sumf_two idx g a b :
  NoDup idx → a ∈ idx → b ∈ idx → a ≠ b →
  (∀ j, j ∈ idx → j ≠ a → j ≠ b → g j ≅ 0) → sumf idx g ≅ g a + g b.
Proof.
  intros Hnd Ha Hb Hab Hz. apply elem_of_Permutation in Ha as [idx' Hp].
  rewrite (sumf_perm _ _ g Hp). unfold sumf at 1. simpl. fold (sumf idx' g).
  assert (∀ j, j ∈ idx' → j ∈ idx) as Hsub by (intros j Hj; rewrite Hp; by right).
  rewrite Hp in Hnd, Hb. apply NoDup_cons in Hnd as [Hnot Hnd'].
  apply elem_of_cons in Hb as [->|Hb]; [done|].
  rewrite (sumf_single idx' g b); [done|done|done|].
  intros j Hj Hne. apply Hz; [by apply Hsub | | done]. intros ->. done.
Qed.

(** The entries of a kernel row. *)
Lemma list_find_pivot pcs (R : list (list Z)) k q ck :
  NoDup pcs → Forall2 (pivot_row ell pcs) R pcs →
  R !! k = Some q → pcs !! k = Some ck →
  list_find (λ q', leading ops q' = Some ck) R = Some (k, q).
Proof.
  intros Hnd Hpiv Hq Hck. apply list_find_Some. split; [done|]. split.
  - eapply pivot_row_leading. by eapply Forall2_lookup_lr.
  - intros j y Hy Hj Hlead.
    destruct (Forall2_lookup_l _ _ _ _ _ Hpiv Hy) as (cj & Hcj & Hrow).
    apply pivot_row_leading in Hrow. rewrite Hrow in Hlead. injection Hlead as ->.
    pose proof (NoDup_lookup _ _ _ _ Hnd Hcj Hck). lia.
Qed.

Lemma list_find_free pcs (R : list (list Z)) j :
  Forall2 (pivot_row ell pcs) R pcs → j ∉ pcs →
  list_find (λ q', leading ops q' = Some j) R = None.
Proof.
  intros Hpiv Hj. apply list_find_None, Forall_forall. intros q Hq Hlead.
  apply list_elem_of_lookup in Hq as [k Hk].
  destruct (Forall2_lookup_l _ _ _ _ _ Hpiv Hk) as (ck & Hck & Hrow).
  apply pivot_row_leading in Hrow. rewrite Hrow in Hlead. injection Hlead as ->.
  apply Hj. by eapply list_elem_of_lookup_2.
Qed.

Lemma ent_kernel_row n (R : list (list Z)) f j :
  (j < n)%nat →
  ent (kernel_row ops n R f) j
  = if Nat.eqb j f then f1 ops
    else match list_find (λ q, leading ops q = Some j) R with
         | Some kq => fopp ops (ent kq.2 f)
         | None => f0 ops
         end.
Proof.
  intros Hj. unfold entry at 1, kernel_row. rewrite list_lookup_fmap.
  rewrite lookup_seq_lt by lia. done.
Qed.

Lemma length_kernel_row n (R : list (list Z)) f : length (kernel_row ops n R f) = n.
Proof. unfold kernel_row. by rewrite length_map, length_seq. Qed.

Lemma kernel_row_annihilated n pcs (R : list (list Z)) f k q ck :
  NoDup pcs → Forall (λ j, (j < n)%nat) pcs →
  Forall2 (pivot_row ell pcs) R pcs → Forall (λ r, length r = n) R →
  (f < n)%nat → f ∉ pcs → R !! k = Some q → pcs !! k = Some ck →
  annihilates ell (kernel_row ops n R f) q.
Proof.
  intros Hnd Hlt Hpiv HlR Hf Hfp Hq Hck. unfold annihilates.
  pose proof (Forall2_lookup_lr _ _ _ _ _ _ Hpiv Hq Hck) as Hrow.
  rewrite Forall_forall in Hlt. rewrite Forall_forall in HlR.
  assert (ck ∈ pcs) as Hin by (by eapply list_elem_of_lookup_2).
  assert (length q = n) as Hlq by (by eapply HlR, list_elem_of_lookup_2).
  pose proof (Hlt ck Hin) as Hckn.
  rewrite (dotZ_sumf q _ n) by (done || apply length_kernel_row).
  rewrite (sumf_two (seq 0 n) _ f ck); [| apply NoDup_seq | by apply elem_of_seq; lia
     | by apply elem_of_seq; lia | by intros -> |].
  - rewrite !ent_kernel_row by done. rewrite Nat.eqb_refl.
    destruct (Nat.eqb_spec ck f) as [->|_]; [done|].
    rewrite (list_find_pivot pcs R k q ck) by done.
    destruct Hrow as (H1 & _ & _). simpl. rewrite (Zmod_eqm ell), H1.
    rewrite (Zmod_eqm ell). ring_simplify (ent q f * 1 + 1 * - ent q f). reflexivity.
  - intros j Hj%elem_of_seq Hjf Hjc. rewrite ent_kernel_row by lia.
    destruct (Nat.eqb_spec j f); [done|].
    destruct (decide (j ∈ pcs)) as [Hjp|Hjp].
    + destruct Hrow as (_ & _ & Hothers). rewrite (Hothers j Hjp Hjc). by rewrite Z.mul_0_l.
    + rewrite (list_find_free pcs R j) by done. simpl. by rewrite Z.mul_0_r.
Qed.

Lemma annihilates_vscale_r n c (a q : list Z) :
  length q = n → length a = n →
  annihilates ell a q → annihilates ell (vscale ops c a) q.
Proof.
  unfold annihilates. intros Hq Ha H.
  rewrite dotZ_comm, (dotZ_vscale _ _ _ n), dotZ_comm, H by done.
  by rewrite Z.mul_0_r.
Qed.

Lemma annihilates_vadd_r n (a b q : list Z) :
  length q = n → length a = n → length b = n →
  annihilates ell a q → annihilates ell b q → annihilates ell (vadd ops a b) q.
Proof.
  unfold annihilates. intros Hq Ha Hb H1 H2.
  rewrite dotZ_comm, (dotZ_vadd _ _ _ n), (dotZ_comm a), (dotZ_comm b), H1, H2 by done.
  done.
Qed.

(** The vectors of the kernel basis are in the kernel. *)
Lemma right_kernel_basis_annihilates n (m : list (list Z)) b :
  Forall (λ r, length r = n) m → b ∈ right_kernel_basis ops n m →
  length b = n ∧ Forall (annihilates ell b) m.
Proof.
  intros Hm Hb. unfold right_kernel_basis in Hb.
  destruct (gauss_jordan_rref n n 0 [] [] m eq_refl (rref_start n m Hm))
    as (pcs & Hlp & Hlr & Hs & Hlt & Hpiv & Hz).
  set (R := (gauss_jordan ops (seq 0 n) [] m).1) in *.
  set (rest := (gauss_jordan ops (seq 0 n) [] m).2) in *.
  set (free := filter _ (seq 0 n)) in Hb.
  pose proof (sorted_lt_NoDup _ Hs) as Hnd.
  (* the rows of the kernel matrix are annihilated by the reduced rows *)
  set (P := λ w : list Z, Forall (λ q, annihilates ell w q) R).
  assert (HK : Forall (λ w, length w = n ∧ P w) (map (kernel_row ops n R) free)).
  { apply Forall_fmap, Forall_forall. intros f Hf. simpl.
    unfold free in Hf. apply list_elem_of_filter in Hf as [Hfree Hfn%elem_of_seq].
    split; [apply length_kernel_row|]. unfold P. apply Forall_forall. intros q Hq.
    apply list_elem_of_lookup in Hq as [k Hk].
    destruct (Forall2_lookup_l _ _ _ _ _ Hpiv Hk) as (ck & Hck & Hrow).
    apply (kernel_row_annihilated n pcs R f k q ck); try done; [lia|].
    intros Hin. apply list_elem_of_lookup in Hin as [k' Hk'].
    destruct (Forall2_lookup_r _ _ _ _ _ Hpiv Hk') as (q' & Hq' & Hrow').
    rewrite Forall_forall in Hfree. apply (Hfree q'); [by eapply list_elem_of_lookup_2|].
    by eapply pivot_row_leading. }
  destruct (gauss_jordan_linear n P) with (cols := seq 0 n) (pivots := @nil (list Z))
    (rest := map (kernel_row ops n R) free) as [HB _].
  - intros c a Ha HPa. unfold P in *. rewrite Forall_forall in HPa, Hlp |- *.
    intros q Hq. apply (annihilates_vscale_r n); auto.
  - intros a a' Ha Ha' HPa HPa'. unfold P in *.
    rewrite Forall_forall in HPa, HPa', Hlp |- *.
    intros q Hq. apply (annihilates_vadd_r n); auto.
  - constructor.
  - done.
  - rewrite Forall_forall in HB. destruct (HB b Hb) as [Hlb HPb]. split; [done|].
    apply (gauss_jordan_annihilates_back n b (seq 0 n) [] m Hlb (Forall_nil_2 _) Hm).
    + exact HPb.
    + fold rest. rewrite Forall_forall in Hz. rewrite Forall_forall in Hlr.
      apply Forall_forall. intros r Hr.
      apply (zero_row_annihilates n); [by apply Hlr | done | by apply Hz].
Qed.

(** The first vector of the kernel basis starts with 0 or with 1. *)
Lemma right_kernel_basis_first n (m : list (list Z)) b bs :
  (0 < n)%nat → right_kernel_basis ops n m = b :: bs →
  length b = n ∧ (ent b 0 ≅ 0 ∨ ent b 0 ≅ 1).
Proof.
  intros Hn Hb. unfold right_kernel_basis in Hb.
  set (K := map _ (filter _ (seq 0 n))) in Hb.
  assert (Forall (λ r, length r = n) K) as HK.
  { unfold K. apply Forall_fmap, Forall_true. intros f. apply length_kernel_row. }
  destruct (gauss_jordan_rref n n 0 [] [] K eq_refl (rref_start n K HK))
    as (pcs & Hlp & _ & _ & _ & Hpiv & _).
  rewrite Hb in Hlp, Hpiv. apply Forall_cons in Hlp as [Hlb _]. split; [done|].
  apply Forall2_cons_inv_l in Hpiv as (c0 & pcs' & (H1 & Hbefore & _) & _ & ->).
  destruct c0 as [|c0]; [by right|]. left. apply Hbefore. lia.
Qed.

(** Combinations of rows. *)
Lemma length_vec_mat n (c : list Z) (rows : list (list Z)) :
  Forall (λ r, length r = n) rows → length (vec_mat ops n c rows) = n.
Proof.
  unfold vec_mat. intros H. revert c.
  induction H as [|r rows Hr _ IH]; intros [|a c]; simpl;
    try (by rewrite length_replicate).
  change (foldr (vadd ops) (replicate n 0) (zip_with (vscale ops) c rows))
    with (vec_mat ops n c rows) in *.
  rewrite length_vadd; rewrite length_vscale; [done|].
  unfold vec_mat. by rewrite IH.
Qed.

Lemma dotZ_replicate_0 n (v : list Z) : dotZ (replicate n 0) v = 0.
Proof.
  unfold dotZ. revert v. induction n as [|n IH]; intros [|b v]; simpl; try done.
  by rewrite IH.
Qed.

Lemma dotZ_vec_mat n (c : list Z) (rows : list (list Z)) (v : list Z) :
  Forall (λ r, length r = n) rows → length v = n →
  dotZ (vec_mat ops n c rows) v ≅ dotZ c (map (λ r, dotZ r v) rows).
Proof.
  intros H Hv. revert c.
  induction H as [|r rows Hr Hrows IH]; intros [|a c]; unfold vec_mat; simpl;
    try (by rewrite dotZ_replicate_0).
  change (foldr (vadd ops) (replicate n 0) (zip_with (vscale ops) c rows))
    with (vec_mat ops n c rows).
  rewrite (dotZ_vadd _ _ _ n), (dotZ_vscale _ _ _ n), IH;
    try done; [by rewrite length_vscale | by apply length_vec_mat].
Qed.

Lemma dotZ_zero_r (c zs : list Z) : Forall (λ z, z ≅ 0) zs → dotZ c zs ≅ 0.
Proof.
  unfold dotZ. intros H. revert c.
  induction H as [|z zs Hz _ IH]; intros [|a c]; simpl; try done.
  rewrite Hz, IH. by rewrite Z.mul_0_r.
Qed.

(** What is in the row space is annihilated with the rows. *)
Lemma in_row_space_annihilates n (rows : list (list Z)) (x v : list Z) :
  Forall (λ r, length r = n) rows → length v = n →
  Forall (annihilates ell v) rows → in_row_space ell n rows x →
  annihilates ell v x.
Proof.
  intros Hrows Hv Hann [c Hc]. unfold annihilates.
  rewrite (dotZ_congruent _ _ _ Hc), (dotZ_vec_mat n) by done.
  apply dotZ_zero_r, Forall_fmap. done.
Qed.

Lemma ent_map {A} (g : A → Z) (l : list A) i a :
  l !! i = Some a → ent (map g l) i = g a.
Proof. intros H. unfold entry. by rewrite list_lookup_fmap, H. Qed.

Lemma dotZ_unit_vector n j (v : list Z) :
  (j < n)%nat → length v = n → dotZ (unit_vector ops n j) v ≅ ent v j.
Proof.
  intros Hj Hv. rewrite (dotZ_sumf _ v n); [|by unfold unit_vector; rewrite length_map, length_seq|done].
  rewrite (sumf_single (seq 0 n) _ j); [| apply NoDup_seq | apply elem_of_seq; lia |].
  - unfold unit_vector. rewrite (ent_map _ _ j j) by (by apply lookup_seq_lt).
    rewrite Nat.eqb_refl. simpl. rewrite (Zmod_eqm ell). by rewrite Z.mul_1_l.
  - intros i Hi%elem_of_seq Hne. unfold unit_vector.
    rewrite (ent_map _ _ i i) by (apply lookup_seq_lt; lia).
    destruct (Nat.eqb_spec j i); [lia|]. done.
Qed.

(** The kernel vector of an ideal of codimension 1 is multiplicative:
    with [table] the structure matrices, whose first one is the
    identity, the image of a product of two basis elements is the
    product of their images. *)
Lemma kernel_vector_multiplicative n (table : list (list (list Z)))
    (rows : list (list Z)) (v : list Z) :
  length table = n →
  Forall (λ Si, length Si = n ∧ Forall (λ r, length r = n) Si) table →
  table !! 0%nat = Some (identity_matrix ops n) →
  Forall (λ r, length r = n) rows →
  S (rank ops n rows) = n →
  length v = n → Forall (annihilates ell v) rows → ent v 0 ≅ 1 →
  (∀ j w, (j < n)%nat → w ∈ rows → in_row_space ell n rows (left_mul ell table j w)) →
  ∀ i j Si row, (i < n)%nat → (j < n)%nat →
    table !! i = Some Si → Si !! j = Some row →
    dotZ row v ≅ ent v i * ent v j.
Proof.
  intros Hlen. subst n. set (n := length table).
  intros Hshape Hid Hrows Hrank Hv Hann Hv0 Hideal i j Si row Hi Hj HSi Hrow.
  set (Tj := map (λ Sk, default [] (Sk !! j)) table).
  assert (Forall (λ r, length r = n) Tj) as HTj.
  { unfold Tj. apply Forall_fmap. eapply Forall_impl; [exact Hshape|].
    intros Sk [HlS HrS]. simpl.
    destruct (lookup_lt_is_Some_2 Sk j) as [r Hr]; [lia|]. rewrite Hr. simpl.
    rewrite Forall_forall in HrS. by eapply HrS, list_elem_of_lookup_2. }
  set (a := map (λ r, dotZ r v) Tj).
  assert (length a = n) as Ha by (unfold a, Tj; by rewrite !length_map).
  assert (Forall (annihilates ell a) rows) as Hanna.
  { apply Forall_forall. intros w Hw. unfold annihilates, a.
    rewrite <- (dotZ_vec_mat n) by done.
    change (vec_mat ops n w Tj) with (left_mul ell table j w) at 1.
    apply (in_row_space_annihilates n rows); try done. by apply Hideal. }
  pose proof (kernel_line n rows a v Hrows Hrank Ha Hv Hanna Hann Hv0 i Hi) as Hline.
  assert (ent a i = dotZ row v) as Hai.
  { unfold a, Tj. rewrite map_map. rewrite (ent_map _ _ i Si) by done. by rewrite Hrow. }
  assert (ent a 0 ≅ ent v j) as Ha0.
  { unfold a, Tj. rewrite map_map. rewrite (ent_map _ _ 0%nat _ Hid).
    unfold identity_matrix. rewrite list_lookup_fmap, lookup_seq_lt by done. simpl.
    by apply dotZ_unit_vector. }
  rewrite <- Hai, Hline, Ha0. by rewrite Z.mul_comm.
Qed.
End Residues.

(** *** The vectors that [reduction_maps] returns *)

Lemma reduction_maps_inv maximal_ideals betas ell vv :
  Z.prime ell → reduction_maps maximal_ideals betas ell = OK vv →
  ∃ b0 structure s0,
    betas !! 0%nat = Some b0 ∧ K_eq_one b0 = true
    ∧ structure_matrices betas ell = OK structure
    ∧ structure !! 0%nat = Some s0 ∧ matrix_is_one ell s0 = true
    ∧ candidate_vectors maximal_ideals (length betas) ell structure = OK vv
    ∧ rescale_loop vv = OK tt.
Proof.
  intros Hell H. unfold reduction_maps, GF_field in H.
  apply is_prime_spec in Hell. rewrite Hell in H.
  apply bind_OK in H as (b0 & Hb0 & H). apply bind_OK in H as ([] & H1 & H).
  cbn [mbind result_bind] in H.
  apply bind_OK in H as (structure & Hs & H). apply bind_OK in H as (s0 & Hs0 & H).
  apply bind_OK in H as ([] & Hid & H). apply bind_OK in H as (cands & Hc & H).
  apply bind_OK in H as ([] & Hloop & H). apply OK_inj in H. subst cands.
  exists b0, structure, s0. unfold getitem in Hb0, Hs0.
  destruct (betas !! 0%nat) as [b|]; [|done]. apply OK_inj in Hb0. subst b.
  destruct (structure !! 0%nat) as [s|]; [|done]. apply OK_inj in Hs0. subst s.
  unfold assert in H1, Hid.
  destruct (K_eq_one b0); [|done]. destruct (matrix_is_one ell s0); [|done]. done.
Qed.

Lemma candidate_vectors_inv maximal_ideals d ell structure vv :
  candidate_vectors maximal_ideals d ell structure = OK vv →
  Forall2 (λ M v, ∃ b bs,
      right_kernel_basis (Zmod_ops ell) d (map (map residue) (basis_matrix M)) = b :: bs
      ∧ v = map (GF ell) b)
    (filter (λ M, rank (Zmod_ops ell) d (map (map residue) (basis_matrix M))
                  = (d - 1)%nat) (maximal_ideals ell structure)) vv.
Proof.
  unfold candidate_vectors. intros H. apply mapM_OK in H.
  eapply Forall2_impl; [exact H|]. intros M v Hv. simpl in Hv.
  unfold getitem, kernel_basis in Hv.
  destruct (right_kernel_basis _ _ _) as [|b bs]; [done|].
  simpl in Hv. apply OK_inj in Hv. subst v. eauto.
Qed.

Lemma GF_eq_mod ell x y : x mod ell = y mod ell → GF ell x = GF ell y.
Proof. unfold GF. by intros ->. Qed.

Lemma GF_mul_GF ell x y : GF_mul (GF ell x) (GF ell y) = OK (GF ell (x * y)).
Proof.
  unfold GF_mul, GF_binop. simpl. rewrite Z.eqb_refl. f_equal.
  apply GF_eq_mod. destruct (Z.eq_dec ell 0) as [->|].
  - by rewrite !Z.mod_0_r.
  - by rewrite <- Z.mul_mod.
Qed.

Lemma scale_by_one ell (b : list Z) :
  mapM (λ vi, GF_mul vi (GF ell 1)) (map (GF ell) b) = OK (map (GF ell) b).
Proof.
  induction b as [|x b IH]; [done|]. simpl.
  rewrite GF_mul_GF, Z.mul_1_r. simpl. by rewrite IH.
Qed.

Lemma GF_inv_one ell : 2 ≤ ell → GF_inv (GF ell 1) = OK (GF ell 1).
Proof.
  intros Hell. unfold GF_inv. simpl. rewrite !Z.mod_1_l by lia.
  destruct (Z.eqb_spec 1 0); [lia|]. by rewrite Z.pow_1_l by lia.
Qed.

(** The residues of a vector over [GF(ell)] in the dot product. *)
Lemma dot_GF ell (c b : list Z) :
  eqm ell (dot c (map (GF ell) b)) (dotZ c b).
Proof.
  unfold dot, dotZ. revert b. induction c as [|a c IH]; intros [|x b]; simpl; try done.
  rewrite IH, (Zmod_eqm ell). done.
Qed.

Lemma vector_over_GF ell (b : list Z) : b ≠ [] → vector_over ell (map (GF ell) b).
Proof.
  intros Hb. split; [by destruct b|]. apply Forall_fmap, Forall_true. done.
Qed.

(** A candidate that passes the loop of [reduction_maps] starts with 1. *)
Lemma candidate_first_coordinate ell d (m : list (list Z)) b bs :
  Z.prime ell → (0 < d)%nat →
  right_kernel_basis (Zmod_ops ell) d m = b :: bs →
  (∃ v0, map (GF ell) b !! 0%nat = Some v0
         ∧ (GF_eq_int v0 1 = true ∨ GF_eq_int v0 0 = false)) →
  eqm ell (entry (Zmod_ops ell) b 0) 1 ∧ map (GF ell) b !! 0%nat = Some (GF ell 1).
Proof.
  intros Hell Hd Hb (v0 & Hv0 & Hcase). pose proof (Z.prime_ge_2 _ Hell) as Hge.
  destruct (right_kernel_basis_first ell Hell d m b bs Hd Hb) as [Hlen H01].
  destruct b as [|x b]; [simpl in Hlen; lia|]. simpl in Hv0. injection Hv0 as <-.
  unfold entry in *. simpl in *.
  assert (eqm ell x 1) as Hx.
  { destruct H01 as [H0|H1]; [|done]. exfalso. unfold GF_eq_int in Hcase. simpl in Hcase.
    unfold eqm in H0. rewrite Z.mod_0_l in H0 by lia.
    rewrite !Z.mod_mod, H0, Z.mod_1_l, Z.mod_0_l in Hcase by lia.
    destruct Hcase as [Hc|Hc]; [by apply Z.eqb_eq in Hc | by apply Z.eqb_neq in Hc]. }
  split; [done|]. f_equal. by apply GF_eq_mod.
Qed.

Lemma returned_vectors maximal_ideals betas ell vv :
  Z.prime ell → reduction_maps maximal_ideals betas ell = OK vv →
  ∃ structure s0,
    structure_matrices betas ell = OK structure
    ∧ structure !! 0%nat = Some s0 ∧ matrix_is_one ell s0 = true
    ∧ candidate_vectors maximal_ideals (length betas) ell structure = OK vv
    ∧ (0 < length betas)%nat
    ∧ Forall2 (λ M v, ∃ b bs,
          right_kernel_basis (Zmod_ops ell) (length betas)
            (map (map residue) (basis_matrix M)) = b :: bs
          ∧ v = map (GF ell) b
          ∧ eqm ell (entry (Zmod_ops ell) b 0) 1
          ∧ v !! 0%nat = Some (GF ell 1))
        (filter (λ M, rank (Zmod_ops ell) (length betas)
                        (map (map residue) (basis_matrix M))
                      = (length betas - 1)%nat) (maximal_ideals ell structure)) vv.
Proof.
  intros Hell H.
  destruct (reduction_maps_inv _ _ _ _ Hell H)
    as (b0 & structure & s0 & Hb0 & _ & Hs & Hs0 & Hid & Hc & Hloop).
  exists structure, s0. split; [done|]. split; [done|]. split; [done|]. split; [done|].
  assert (0 < length betas)%nat as Hd by (by eapply lookup_lt_Some).
  split; [done|].
  apply rescale_loop_OK in Hloop. apply candidate_vectors_inv in Hc.
  eapply Forall2_impl; [exact (Forall2_with _ (λ _, True) _ _ _ Hc (Forall_true _ _ (λ _, I)) Hloop)|].
  intros M v (_ & Hv0 & b & bs & Hb & ->). exists b, bs.
  split; [done|]. split; [done|].
  by apply (candidate_first_coordinate ell (length betas)
              (map (map residue) (basis_matrix M)) b bs).
Qed.

(** C1: every vector that [reduction_maps] returns for a prime [ell]
    has first coordinate exactly 1 in [GF(ell)], and it is its candidate,
    the first kernel basis vector of a maximal ideal, scaled by the
    inverse of the first coordinate of the candidate. *)
Theorem reduction_maps_first_coordinate
    (maximal_ideals : Z → list (list (list GFelt)) → list Ideal)
    (betas : list NFelt) (ell : Z) (vv : list (list GFelt))
    (Hell : Z.prime ell)
    (Hvv : reduction_maps maximal_ideals betas ell = OK vv) :
  Forall (λ v, v !! 0%nat = Some (GF ell 1)) vv
  ∧ ∃ structure cands,
      structure_matrices betas ell = OK structure
      ∧ candidate_vectors maximal_ideals (length betas) ell structure = OK cands
      ∧ Forall2 (λ c v, ∃ c0 c0inv,
            c !! 0%nat = Some c0 ∧ GF_eq_int c0 0 = false
            ∧ GF_inv c0 = OK c0inv
            ∧ mapM (λ ci, GF_mul ci c0inv) c = OK v) cands vv.
Proof.
  pose proof (Z.prime_ge_2 _ Hell) as Hge.
  destruct (returned_vectors _ _ _ _ Hell Hvv)
    as (structure & s0 & Hs & _ & _ & Hc & _ & Hall).
  split.
  - eapply Forall2_Forall_r; [exact Hall|]. apply Forall_true.
    by intros M v (b & bs & _ & _ & _ & Hv0).
  - exists structure, vv. split; [done|]. split; [done|].
    apply Forall_Forall2_diag. eapply Forall2_Forall_r; [exact Hall|]. apply Forall_true.
    intros M v (b & bs & _ & -> & _ & Hv0).
    exists (GF ell 1), (GF ell 1). split; [done|]. split.
    { unfold GF_eq_int. simpl. rewrite Z.mod_mod, Z.mod_1_l, Z.mod_0_l by lia.
      by apply Z.eqb_neq. }
    split; [by apply GF_inv_one | apply scale_by_one].
Qed.

Lemma reduction_maps_first_coordinate_witness :
  reduction_maps ideals_sqrt7 sqrt7_betas 3
  = OK [[GF 3 1; GF 3 2]; [GF 3 1; GF 3 1]]
  ∧ Forall (λ v, v !! 0%nat = Some (GF 3 1)) [[GF 3 1; GF 3 2]; [GF 3 1; GF 3 1]].
Proof.
  split; [vm_compute; reflexivity|].
  eapply proj1, (reduction_maps_first_coordinate ideals_sqrt7 sqrt7_betas 3).
  - apply is_prime_spec. vm_compute. reflexivity.
  - vm_compute. reflexivity.
Defined.

Lemma residues_mkGF ell (m : list (list Z)) :
  map (map residue) (map (map (mkGF ell)) m) = m.
Proof.
  induction m as [|r m IH]; [done|]. simpl. rewrite IH. f_equal.
  induction r as [|x r IHr]; [done|]. simpl. by rewrite IHr.
Qed.

(** C2: for a prime [ell], when the maximal ideals that Sage returns
    are ideals of the algebra of the structure matrices, every vector
    [v] that [reduction_maps] returns is multiplicative on the basis:
    [apply_red] of row [j] of the [i]-th structure matrix, the
    coordinates of [betas[i] * betas[j]], is the product in [GF(ell)]
    of [apply_red] of the coordinates of [betas[i]] and of [betas[j]]. *)
Theorem reduction_maps_multiplicative
    (maximal_ideals : Z → list (list (list GFelt)) → list Ideal)
    (betas : list NFelt) (ell : Z)
    (structure : list (list (list GFelt))) (vv : list (list GFelt))
    (Hell : Z.prime ell)
    (Hs : structure_matrices betas ell = OK structure)
    (Hideals : Forall (λ M, is_ideal ell structure (basis_matrix M))
                      (maximal_ideals ell structure))
    (Hvv : reduction_maps maximal_ideals betas ell = OK vv) :
  ∀ v i j, v ∈ vv → (i < length betas)%nat → (j < length betas)%nat →
    (∃ si row x a b,
       structure !! i = Some si ∧ si !! j = Some row
       ∧ apply_red (map residue row) (RedVector v) = OK x
       ∧ apply_red (basis_coeffs (length betas) i) (RedVector v) = OK a
       ∧ apply_red (basis_coeffs (length betas) j) (RedVector v) = OK b
       ∧ GF_mul a b = OK x)
    ∧ multiplicative_at structure (RedVector v) i j = OK true.
Proof.
  intros v i j Hv Hi Hj. pose proof (Z.prime_ge_2 _ Hell) as Hge.
  destruct (returned_vectors _ _ _ _ Hell Hvv)
    as (structure' & s0 & Hs' & Hs0 & Hid & Hc & Hd & Hall).
  assert (structure' = structure) as -> by congruence.
  destruct (structure_matrices_shape _ _ _ Hs) as [Hlen Hshape].
  set (d := length betas) in *.
  (* the vector and its ideal *)
  apply list_elem_of_lookup in Hv as [k Hk].
  destruct (Forall2_lookup_r _ _ _ _ _ Hall Hk) as (M & HM & b & bs & Hb & -> & Hb0 & _).
  apply list_elem_of_lookup_2, list_elem_of_filter in HM as [Hrank HM].
  rewrite Forall_forall in Hideals. destruct (Hideals M HM) as [Hrows Hmul].
  rewrite Hlen in Hrows, Hmul. fold d in Hrows, Hmul.
  set (rows := map (map residue) (basis_matrix M)) in *.
  destruct (right_kernel_basis_annihilates ell Hell d rows b Hrows) as [Hlb Hann];
    [rewrite Hb; by left|].
  (* the table of residues *)
  set (table := map (map (map residue)) structure) in *.
  destruct (lookup_lt_is_Some_2 structure i) as [si Hsi]; [lia|].
  pose proof Hshape as Hshape'. rewrite Forall_forall in Hshape'.
  destruct (Hshape' si) as [Hlsi Hrsi]; [by eapply list_elem_of_lookup_2|].
  destruct (lookup_lt_is_Some_2 si j) as [row Hrow]; [lia|].
  assert (eqm ell (dotZ (map residue row) b)
            (entry (Zmod_ops ell) b i * entry (Zmod_ops ell) b j)) as Hmult.
  { apply (kernel_vector_multiplicative ell Hell d table rows b) with (Si := map (map residue) si);
      try done.
    - unfold table. by rewrite length_map.
    - unfold table. apply Forall_fmap. eapply Forall_impl; [exact Hshape|].
      intros Sk [H1 H2]. simpl. rewrite length_map. split; [done|].
      apply Forall_fmap. eapply Forall_impl; [exact H2|]. intros r Hr. simpl.
      by rewrite length_map.
    - unfold table. rewrite list_lookup_fmap, Hs0. simpl. f_equal.
      unfold matrix_is_one in Hid. apply bool_decide_eq_true in Hid.
      destruct (Hshape' s0) as [Hls0 _]; [by eapply list_elem_of_lookup_2|].
      rewrite Hid at 1. rewrite Hls0. apply residues_mkGF.
    - lia.
    - intros j' w Hj' Hw. by apply Hmul.
    - unfold table. by rewrite list_lookup_fmap, Hsi.
    - by rewrite list_lookup_fmap, Hrow. }
  (* back to [GF(ell)] *)
  assert (b ≠ []) as Hne by (intros ->; simpl in Hlb; lia).
  pose proof (vector_over_GF ell b Hne) as Hover.
  assert (∀ i', (i' < d)%nat →
            apply_red (basis_coeffs d i') (RedVector (map (GF ell) b))
            = OK (GF ell (entry (Zmod_ops ell) b i'))) as Hbasis.
  { intros i' Hi'. rewrite (apply_red_dot ell) by done.
    destruct (lookup_lt_is_Some_2 b i') as [x Hx]; [lia|].
    rewrite (dot_basis d i' _ (GF ell x)) by (done || by rewrite list_lookup_fmap, Hx).
    unfold entry. rewrite Hx. simpl. by rewrite GF_mod_mod. }
  assert (apply_red (map residue row) (RedVector (map (GF ell) b))
          = OK (GF ell (entry (Zmod_ops ell) b i * entry (Zmod_ops ell) b j))) as Hx.
  { rewrite (apply_red_dot ell) by done. f_equal. apply GF_eq_mod.
    rewrite <- Hmult. apply dot_GF. }
  split.
  - exists si, row. do 3 eexists. split; [done|]. split; [done|].
    split; [exact Hx|]. split; [by apply Hbasis|]. split; [by apply Hbasis|].
    apply GF_mul_GF.
  - unfold multiplicative_at, getitem. rewrite Hsi. cbn [mbind result_bind].
    rewrite Hrow. cbn [mbind result_bind]. rewrite Hx. cbn [mbind result_bind].
    rewrite Hlen. fold d. rewrite !Hbasis by done. cbn [mbind result_bind].
    rewrite GF_mul_GF. cbn [mbind result_bind]. by rewrite bool_decide_eq_true_2.
Qed.

(** *** Forms with a Hecke field of degree 1 *)

Lemma kernel_of_zero_ideal ell : 2 ≤ ell →
  right_kernel_basis (Zmod_ops ell) 1 [] = [[1]].
Proof.
  intros Hell. unfold right_kernel_basis. cbn.
  destruct (decide (Forall (λ q : list Z, leading (Zmod_ops ell) q ≠ Some 0%nat) []))
    as [_|Hn]; [|by destruct Hn].
  cbn. rewrite !Z.mod_1_l by lia. cbn.
  rewrite Z.pow_1_l, Z.mod_1_l by lia. cbn. by rewrite Z.mod_1_l by lia.
Qed.

Lemma GF_pow_one ell : 2 ≤ ell → GF ell (1 * 1 ^ (ell - 2)) = GF ell 1.
Proof. intros Hell. by rewrite Z.pow_1_l, Z.mul_1_l by lia. Qed.

Lemma degree_one_betas nf c0 c1 :
  hecke_ring_numerators (web nf) = None ∨ hecke_ring_numerators (web nf) = Some [] →
  hecke_betas nf [c0; c1] = OK [mkNF [c0; c1] [1%Q]].
Proof. intros Hnum. unfold hecke_betas. by destruct Hnum as [-> | ->]. Qed.

Lemma degree_one_structure c0 c1 ell : 2 ≤ ell →
  structure_matrices [mkNF [c0; c1] [1%Q]] ell = OK [[[GF ell 1]]].
Proof.
  intros Hell. unfold structure_matrices.
  change (inverse Q_ops (length [mkNF [c0; c1] [1%Q]]) (map coords [mkNF [c0; c1] [1%Q]]))
    with (inverse Q_ops 1 [[1%Q]]).
  assert (inverse Q_ops 1 [[1%Q]] = OK [[1%Q]]) as -> by (vm_compute; reflexivity).
  cbn [mbind result_bind mapM length map].
  assert (mat_mul Q_ops 1
            [coords (K_mul (mkNF [c0; c1] [1%Q]) (mkNF [c0; c1] [1%Q]))] [[1%Q]]
          = [[1%Q]]) as -> by (vm_compute; reflexivity).
  unfold change_ring. cbn [mapM mbind result_bind]. unfold GF_of_Q. cbn [Qden Qnum].
  rewrite Z.mod_1_l by lia. cbn. by rewrite GF_pow_one.
Qed.

Lemma degree_one_reduction_maps maximal_ideals c0 c1 ell :
  Z.prime ell → maximal_ideals ell [[[GF ell 1]]] = [zero_ideal] →
  reduction_maps maximal_ideals [mkNF [c0; c1] [1%Q]] ell = OK [[GF ell 1]].
Proof.
  intros Hell Hzero. pose proof (Z.prime_ge_2 _ Hell) as Hge.
  unfold reduction_maps, GF_field. apply is_prime_spec in Hell. rewrite Hell.
  cbn [getitem lookup list_lookup mbind result_bind].
  assert (K_eq_one (mkNF [c0; c1] [1%Q]) = true) as -> by (vm_compute; reflexivity).
  cbn [assert mbind result_bind]. rewrite degree_one_structure by done.
  cbn [getitem lookup list_lookup mbind result_bind].
  assert (matrix_is_one ell [[GF ell 1]] = true) as ->.
  { unfold matrix_is_one. by apply bool_decide_eq_true_2. }
  cbn [assert mbind result_bind]. unfold candidate_vectors. rewrite Hzero.
  assert (rank (Zmod_ops ell) 1 (map (map residue) (basis_matrix zero_ideal)) = 0%nat)
    as Hrank by reflexivity.
  cbn [length]. rewrite filter_cons, decide_True by done. rewrite filter_nil.
  cbn [mapM]. unfold kernel_basis. cbn [basis_matrix zero_ideal map].
  rewrite kernel_of_zero_ideal by done.
  cbn [map getitem lookup list_lookup mbind result_bind rescale_loop].
  assert (GF_eq_int (GF ell 1) 1 = true) as ->.
  { unfold GF_eq_int. simpl. rewrite Z.mod_mod by lia. apply Z.eqb_refl. }
  done.
Qed.

(** C6: a newform whose Hecke field has degree 1, the field
    [NumberField(Qx(f.field_poly))] that [get_forms] attaches to a
    rational form, gets exactly one reduction map for every prime
    [ell], the vector [(1)], and [reduce_ap_mod_ell] with that map sends
    every integer [ap] to its value modulo [ell] in [GF(ell)]. The
    algebra of the form is [GF(ell)] itself, whose only maximal ideal
    is zero. *)
Theorem rational_form_reduction
    (maximal_ideals : Z → list (list (list GFelt)) → list Ideal)
    (nf : Newform) (ell c0 c1 : Z)
    (Hell : Z.prime ell)
    (Hfield : hecke_field nf = NumberField [c0; c1])
    (Hcyc : hecke_ring_cyclotomic_generator (web nf) = 0)
    (Hnum : hecke_ring_numerators (web nf) = None
            ∨ hecke_ring_numerators (web nf) = Some [])
    (Hzero : maximal_ideals ell [[[GF ell 1]]] = [zero_ideal]) :
  make_reductions maximal_ideals nf ell = OK [RedVector [GF ell 1]]
  ∧ (∀ a, apply_red [a] (RedVector [GF ell 1]) = OK (GF ell a))
  ∧ ∃ d, reduce_ap_mod_ell nf (RedVector [GF ell 1]) false = OK d
         ∧ dom d = list_to_set (primes_first_n (length (ap nf)))
         ∧ ∀ i p a, primes_first_n (length (ap nf)) !! i = Some p →
             ap nf !! i = Some [a] → d !! p = Some (GF ell a).
Proof.
  pose proof (Z.prime_ge_2 _ Hell) as Hge.
  assert (vector_over ell [GF ell 1]) as Hover.
  { split; [done|]. by repeat constructor. }
  assert (Happly : ∀ a, apply_red [a] (RedVector [GF ell 1]) = OK (GF ell a)).
  { intros a. rewrite (apply_red_dot ell) by done. f_equal. apply GF_eq_mod.
    unfold dot. simpl. rewrite Z.mod_1_l by lia. f_equal. lia. }
  split; [|split; [done|]].
  - unfold make_reductions. rewrite Hfield, Hcyc. cbn [Z.eqb assert mbind result_bind].
    rewrite degree_one_betas by done. cbn [mbind result_bind].
    by rewrite degree_one_reduction_maps.
  - destruct (reduce_ap_mod_ell_total nf ell [GF ell 1] Hover) as [d Hd].
    exists d. split; [done|].
    destruct (reduce_ap_mod_ell_OK _ _ _ _ Hd) as [Hdom Hval]. split; [done|].
    intros i p a Hp Ha. destruct (Hval i p Hp) as (a' & v & Ha' & Hv & Hl).
    rewrite Ha in Ha'. injection Ha' as <-. rewrite Happly in Hv. congruence.
Qed.

Lemma rational_form_reduction_witness :
  make_reductions ideals_degree_one nf_degree_one 2 = OK [RedVector [GF 2 1]].
Proof.
  eapply proj1, (rational_form_reduction ideals_degree_one nf_degree_one 2 0 1).
  - apply is_prime_spec. vm_compute. reflexivity.
  - reflexivity.
  - reflexivity.
  - left. reflexivity.
  - reflexivity.
Defined.

Lemma reduction_maps_multiplicative_witness :
  reduction_maps ideals_sqrt7 sqrt7_betas 3
  = OK [[GF 3 1; GF 3 2]; [GF 3 1; GF 3 1]]
  ∧ multiplicative_at
      [[[GF 3 1; GF 3 0]; [GF 3 0; GF 3 1]]; [[GF 3 0; GF 3 1]; [GF 3 1; GF 3 0]]]
      (RedVector [GF 3 1; GF 3 2]) 1 1 = OK true.
Proof.
  split; [vm_compute; reflexivity|].
  eapply proj2, (reduction_maps_multiplicative ideals_sqrt7 sqrt7_betas 3
    [[[GF 3 1; GF 3 0]; [GF 3 0; GF 3 1]]; [[GF 3 0; GF 3 1]; [GF 3 1; GF 3 0]]]
    [[GF 3 1; GF 3 2]; [GF 3 1; GF 3 1]]).
  - apply is_prime_spec. vm_compute. reflexivity.
  - vm_compute. reflexivity.
  - assert (∀ rows : list (list Z), rows = [[1; 1]] ∨ rows = [[1; 2]] →
      ∀ (i : nat) (w : list Z), (i < 2)%nat → w ∈ rows →
        in_row_space 3 2 rows
          (left_mul 3 [[[1; 0]; [0; 1]]; [[0; 1]; [1; 0]]] i w)
        ∧ in_row_space 3 2 rows
            (right_mul 3 [[[1; 0]; [0; 1]]; [[0; 1]; [1; 0]]] i w)) as Hmul.
    { intros rows Hrows i w Hi Hw.
      destruct Hrows as [-> | ->]; apply list_elem_of_singleton in Hw as ->;
        destruct i as [|[|i]]; try lia;
        split; first [ exists [1]; vm_compute; by repeat constructor
                     | exists [2]; vm_compute; by repeat constructor ]. }
    apply Forall_cons; split; [|apply Forall_cons; split; [|apply Forall_nil_2]].
    + split; [by repeat constructor|].
      intros i w Hi Hw. exact (Hmul [[1; 1]] (or_introl eq_refl) i w Hi Hw).
    + split; [by repeat constructor|].
      intros i w Hi Hw. exact (Hmul [[1; 2]] (or_intror eq_refl) i w Hi Hw).
  - vm_compute. reflexivity.
  - left.
  - vm_compute. lia.
  - vm_compute. lia.
Defined.

Lemma filter_ext_in {A} (P Q : A → Prop)
    `{∀ x, Decision (P x)} `{∀ x, Decision (Q x)} (l : list A) :
  (∀ x, x ∈ l → P x ↔ Q x) → filter P l = filter Q l.
Proof.
  induction l as [|a l IH]; intros HPQ; [done|].
  rewrite !filter_cons, IH by (intros x Hx; apply HPQ; by right).
  destruct (HPQ a) as [H1 H2]; [by left|].
  destruct (decide (P a)), (decide (Q a)); try done; tauto.
Qed.

Lemma indexed_by_ap ell l i r :
  multiplicity_indexed l → Forall (λ r, rec_ell r = Some ell) l →
  l !! i = Some r →
  rec_ell r = Some ell
  ∧ rec_index r
    = Some (1 + Z.of_nat (length (filter (λ r', rec_ap r' = rec_ap r) (take i l)))).
Proof.
  intros Hidx Hells Hr. rewrite Forall_forall in Hells.
  assert (rec_ell r = Some ell) as He by (by eapply Hells, list_elem_of_lookup_2).
  split; [done|]. rewrite (Hidx i r Hr). do 4 f_equal.
  apply filter_ext_in. intros r' Hin. apply elem_of_take in Hin as (j & Hj & _).
  assert (rec_ell r' = Some ell) as He' by (by eapply Hells, list_elem_of_lookup_2).
  unfold same_reduction. destruct (compare_record r r') as [[]|] eqn:Hc.
  - apply compare_record_true in Hc as [_ Hap]. done.
  - split; [done|]. intros Hap.
    assert (compare_record r r' = OK true) as Hc'; [|congruence].
    apply compare_record_true. split; [eauto | done].
  - split; [done|]. intros Hap.
    assert (compare_record r r' = OK true) as Hc'; [|congruence].
    apply compare_record_true. split; [eauto | done].
Qed.

(** C3: every record appended by [run] carries 1 + the number of equal
    records appended before it for the same [ell], and [nnf[ell]]
    counts the records of index 1. With [ap] mappings A, B, A, A, C the
    indices are 1, 1, 2, 3, 1 and the count is 3. *)
Theorem run_multiplicity_index
    (maximal_ideals : Z → list (list (list GFelt)) → list Ideal) (db : Database)
    (levels ells : list Z) (st : run_state)
    (Hrun : run_sweep maximal_ideals db levels ells = OK st) :
  run maximal_ideals db levels ells = OK (st_nf st, st_nfx st)
  ∧ (∀ ell l, st_nf st !! ell = Some l →
       multiplicity_indexed l ∧ st_nnf st !! ell = Some (distinct_count l))
  ∧ (∀ ell l i r, st_nf st !! ell = Some l → l !! i = Some r →
       rec_ell r = Some ell
       ∧ rec_index r
         = Some (1 + Z.of_nat (length (filter (λ r', rec_ap r' = rec_ap r) (take i l)))))
  ∧ (∃ st5 l A B C,
       run_sweep ideals_degree_one db_ex [11; 13; 15; 17; 19] [2] = OK st5
       ∧ st_nf st5 !! 2 = Some l
       ∧ A ≠ B ∧ A ≠ C ∧ B ≠ C
       ∧ map rec_ap l = [A; B; A; A; C]
       ∧ map rec_index l = [Some 1; Some 1; Some 2; Some 3; Some 1]
       ∧ st_nnf st5 !! 2 = Some 3).
Proof.
  split; [unfold run; by rewrite Hrun|]. split; [|split].
  - intros ell l Hl.
    destruct (run_sweep_indexed _ _ _ _ _ Hrun ell l Hl) as (? & _ & ?). done.
  - intros ell l i r Hl Hr.
    destruct (run_sweep_indexed _ _ _ _ _ Hrun ell l Hl) as (Hidx & Hells & _).
    by apply indexed_by_ap.
  - eexists. eexists.
    exists (dict_of_pairs [(2, GF 2 0); (3, GF 2 1); (5, GF 2 1)]).
    exists (dict_of_pairs [(2, GF 2 1); (3, GF 2 1); (5, GF 2 1)]).
    exists (dict_of_pairs [(2, GF 2 1); (3, GF 2 0); (5, GF 2 0)]).
    split; [vm_compute; reflexivity|].
    split; [vm_compute; reflexivity|].
    split; [intros H; apply (f_equal (lookup 2)) in H; vm_compute in H; congruence|].
    split; [intros H; apply (f_equal (lookup 2)) in H; vm_compute in H; congruence|].
    split; [intros H; apply (f_equal (lookup 3)) in H; vm_compute in H; congruence|].
    split; [vm_compute; reflexivity|].
    split; vm_compute; reflexivity.
Qed.

Lemma run_multiplicity_index_witness :
  ∃ st, run_sweep ideals_degree_one db_ex [11; 13; 15; 17; 19] [2] = OK st
        ∧ ∀ ell l, st_nf st !! ell = Some l →
            multiplicity_indexed l ∧ st_nnf st !! ell = Some (distinct_count l).
Proof.
  eexists. split; [vm_compute; reflexivity|].
  apply (run_multiplicity_index ideals_degree_one db_ex [11; 13; 15; 17; 19] [2]).
  vm_compute. reflexivity.
Defined.

(** C7: for a prime [ell] that divides the level [N], [get_forms]
    returns two empty lists, whatever the weight and the tables hold. *)
Theorem get_forms_skips_level_divisible_by_ell
    (maximal_ideals : Z → list (list (list GFelt)) → list Ideal) (db : Database)
    (N k ell : Z) (Hell : Z.prime ell) (Hdiv : (ell | N)) :
  get_forms maximal_ideals db N k ell = OK ([], []).
Proof.
  pose proof (Z.prime_ge_2 _ Hell). unfold get_forms.
  destruct (Z.eqb_spec ell 0); [lia|].
  apply Z.mod_divide in Hdiv; [|done]. by rewrite Hdiv.
Qed.

Lemma get_forms_skips_level_divisible_by_ell_witness :
  get_forms ideals_degree_one db_ex 22 2 11 = OK ([], []).
Proof.
  apply (get_forms_skips_level_divisible_by_ell ideals_degree_one db_ex 22 2 11).
  - apply is_prime_spec. vm_compute. reflexivity.
  - exists 2. lia.
Defined.

(** *** Strings *)

Lemma remove_spaces_app s t :
  remove_spaces (s +:+ t) = remove_spaces s +:+ remove_spaces t.
Proof.
  induction s as [|c s IH]; simpl; [done|].
  destruct (Ascii.eqb c " "); simpl; by rewrite IH.
Qed.

Lemma string_of_uint_no_space d :
  remove_spaces (NilEmpty.string_of_uint d) = NilEmpty.string_of_uint d.
Proof. induction d; simpl; by rewrite ?IHd. Qed.

Lemma str_of_Z_no_space n : remove_spaces (str_of_Z n) = str_of_Z n.
Proof.
  unfold str_of_Z, NilZero.string_of_int, NilZero.string_of_uint.
  destruct (Z.to_int n) as [d|d]; destruct d; simpl; by rewrite ?string_of_uint_no_space.
Qed.

Lemma str_of_GF_no_space x : remove_spaces (str_of_GF x) = str_of_GF x.
Proof. apply str_of_Z_no_space. Qed.

Lemma remove_spaces_concat items :
  remove_spaces (String.concat ", " items)
  = String.concat "," (map remove_spaces items).
Proof.
  induction items as [|x [|y items] IH]; [done..|].
  change (String.concat ", " (x :: y :: items))
    with (x +:+ ", " +:+ String.concat ", " (y :: items)).
  change (String.concat "," (map remove_spaces (x :: y :: items)))
    with (remove_spaces x +:+ "," +:+ String.concat "," (map remove_spaces (y :: items))).
  rewrite !remove_spaces_app, IH. done.
Qed.

Lemma remove_spaces_str_of_list items :
  Forall (λ s, remove_spaces s = s) items →
  remove_spaces (str_of_list items) = "[" +:+ String.concat "," items +:+ "]".
Proof.
  intros H. unfold str_of_list. rewrite !remove_spaces_app, remove_spaces_concat.
  assert (map remove_spaces items = items) as ->; [|done].
  induction H as [|s items Hs _ IH]; simpl; [done|]. by rewrite Hs, IH.
Qed.

Lemma drop_last_bracket s : drop_last (s +:+ "]") = s.
Proof.
  induction s as [|c s IH]; simpl; [done|]. rewrite IH.
  by destruct s.
Qed.

Lemma slice_brackets s : slice_1_m1 ("[" +:+ s +:+ "]") = s.
Proof. simpl. apply drop_last_bracket. Qed.

Lemma ap_field_string vals :
  slice_1_m1 (remove_spaces (str_of_list (map str_of_GF vals)))
  = String.concat "," (map str_of_GF vals).
Proof.
  rewrite remove_spaces_str_of_list, slice_brackets; [done|].
  apply Forall_fmap, Forall_true. intros x. apply str_of_GF_no_space.
Qed.

Lemma chi_field_string (chi : list (Z * GFelt)) :
  remove_spaces (str_of_list
    (map (λ av, str_of_list [str_of_Z av.1; str_of_GF av.2]) chi))
  = "[" +:+ String.concat ","
      (map (λ av, "[" +:+ String.concat "," [str_of_Z av.1; str_of_GF av.2] +:+ "]") chi)
    +:+ "]".
Proof.
  unfold str_of_list at 1. rewrite !remove_spaces_app, remove_spaces_concat.
  assert (map remove_spaces
            (map (λ av : Z * GFelt, str_of_list [str_of_Z av.1; str_of_GF av.2]) chi)
          = map (λ av, "[" +:+ String.concat "," [str_of_Z av.1; str_of_GF av.2] +:+ "]") chi)
    as ->; [|done].
  induction chi as [|[a v] chi IH]; [done|].
  rewrite !map_cons, IH. f_equal. cbn [fst snd].
  rewrite remove_spaces_str_of_list; [done|].
  repeat constructor; [apply str_of_Z_no_space | apply str_of_GF_no_space].
Qed.

(** *** Sorted keys *)

Lemma sorted_keys_unique {A} (d : gmap Z A) keys :
  StronglySorted Z.lt keys → (∀ p, p ∈ keys ↔ is_Some (d !! p)) →
  sorted_keys d = keys.
Proof.
  intros Hs Hk. unfold sorted_keys.
  assert (NoDup keys) as Hnd.
  { clear Hk. induction Hs as [|a l Hl IH Ha]; [constructor|].
    constructor; [|done].
    intros Hin. rewrite Forall_forall in Ha. specialize (Ha _ Hin). lia. }
  apply (StronglySorted_unique Z.le).
  - apply StronglySorted_merge_sort; apply _.
  - clear Hk Hnd. induction Hs as [|a l Hl IH Ha]; constructor; [done|].
    eapply Forall_impl; [done|]. intros; simpl in *; lia.
  - rewrite merge_sort_Permutation. apply NoDup_Permutation; [|done|].
    + apply NoDup_fst_map_to_list.
    + intros p. rewrite Hk. split.
      * intros ([k v] & -> & H%elem_of_map_to_list)%list_elem_of_fmap. eauto.
      * intros [v H%elem_of_map_to_list]. apply list_elem_of_fmap. by exists (p, v).
Qed.

(** C8: for a record with a four-part label, [nf_to_string] returns
    the fields label, N, k, c, id, dim, ell, index, chi_mod_ell, ap
    joined by colons, where N, k, c, id are the dot-separated parts of
    the label; chi_mod_ell is the bracketed list of bracketed pairs
    without spaces, ap the values at the prime keys in ascending order,
    joined by commas without brackets or spaces, and cut to the first
    [nap] of them when a positive [nap] is given. The record of
    11.2.a.a gives [11.2.a.a:11:2:a:a:1:2:1:[]:1,0,1]. *)
Theorem nf_to_string_format (nfr : nf_record) (nap : option Z)
    (N k c id : string) (ell index : Z) (keys : list Z) (vals : list GFelt)
    (Hlabel : split_on "." (rec_label nfr) = [N; k; c; id])
    (Hell : rec_ell nfr = Some ell) (Hindex : rec_index nfr = Some index)
    (Hsorted : StronglySorted Z.lt keys)
    (Hkeys : ∀ p, p ∈ keys ↔ is_Some (rec_ap nfr !! p))
    (Hvals : Forall2 (λ p v, rec_ap nfr !! p = Some v) keys vals)
    (Hnap : ∀ n, nap = Some n → 0 < n) :
  nf_to_string nfr nap
  = OK (String.concat ":"
      [ rec_label nfr; N; k; c; id;
        str_of_Z (rec_d nfr); str_of_Z ell; str_of_Z index;
        "[" +:+ String.concat ","
          (map (λ av, "[" +:+ String.concat "," [str_of_Z av.1; str_of_GF av.2] +:+ "]")
               (rec_chi_mod_ell nfr)) +:+ "]";
        String.concat ","
          (map str_of_GF
             (match nap with Some n => take (Z.to_nat n) vals | None => vals end)) ])
  ∧ nf_to_string record_11 None = OK "11.2.a.a:11:2:a:a:1:2:1:[]:1,0,1"%string.
Proof.
  split; [|vm_compute; reflexivity].
  unfold nf_to_string. rewrite Hlabel, Hell, Hindex. cbn [unpack4 getkey fmap result_fmap mbind result_bind].
  rewrite (sorted_keys_unique _ keys Hsorted Hkeys).
  assert (mapM (λ p, getkey (rec_ap nfr !! p)) keys = OK vals) as ->.
  { apply mapM_OK. eapply Forall2_impl; [done|]. by intros p v ->. }
  cbn [mbind result_bind]. rewrite ap_field_string, chi_field_string.
  do 3 f_equal. repeat (f_equal; []). f_equal. do 2 f_equal.
  destruct nap as [n|]; [|done]. specialize (Hnap n eq_refl).
  destruct (Z.eqb_spec n 0); [lia|]. simpl negb. cbn [andb].
  destruct (Z.ltb_spec n (Z.of_nat (length vals))).
  - unfold slice_to. by destruct (Z.leb_spec 0 n); [|lia].
  - by rewrite take_ge by lia.
Qed.

Lemma nf_to_string_format_witness :
  nf_to_string record_11 (Some 2) = OK "11.2.a.a:11:2:a:a:1:2:1:[]:1,0"%string.
Proof.
  apply (nf_to_string_format record_11 (Some 2) "11" "2" "a" "a" 2 1
           [2; 3; 5] [GF 2 1; GF 2 0; GF 2 1]).
  - reflexivity.
  - reflexivity.
  - reflexivity.
  - repeat constructor; lia.
  - intros p. change (rec_ap record_11)
      with (dict_of_pairs [(2, GF 2 1); (3, GF 2 0); (5, GF 2 1)]).
    rewrite <- elem_of_dom, dict_of_pairs_dom. simpl. set_solver.
  - repeat constructor.
  - intros n [= <-]. lia.
Defined.

(** * Further properties of the code *)

(** ** Further properties of the reduction engine *)

(** *** [apply_red] as a linear map *)

(** X1: over a vector [red] of [GF(ell)], [apply_red] is linear in the
    coefficients: it sends a sum of two vectors of one length to the sum
    of the images, a multiple to the multiple, and depends on the
    coefficients only modulo [ell]. *)
Theorem apply_red_linear (ell : Z) (red : list GFelt) (c1 c2 : list Z) (k : Z)
    (Hred : vector_over ell red) (Hlen : length c1 = length c2) :
  (∃ x y, apply_red c1 (RedVector red) = OK x
          ∧ apply_red c2 (RedVector red) = OK y
          ∧ apply_red (zip_with Z.add c1 c2) (RedVector red) = GF_add x y
          ∧ apply_red (map (Z.mul k) c1) (RedVector red) = OK (GF_scale k x))
  ∧ (Forall2 (λ a b, a mod ell = b mod ell) c1 c2 →
     apply_red c1 (RedVector red) = apply_red c2 (RedVector red)).
Proof.
  split.
  - exists (GF ell (dot c1 red)), (GF ell (dot c2 red)).
    rewrite !(apply_red_dot ell) by done. split; [done|]. split; [done|].
    rewrite GF_add_GF, dot_add, dot_scale by done. split; [done|].
    unfold GF_scale, GF. simpl. do 2 f_equal.
    destruct (Z.eq_dec ell 0) as [->|Hell]; [by rewrite !Z.mod_0_r|].
    by rewrite Z.mul_mod_idemp_r.
  - intros Hmod. rewrite !(apply_red_dot ell) by done.
    unfold GF. by rewrite (dot_mod ell c1 c2 red Hmod).
Qed.

Lemma apply_red_linear_witness :
  apply_red [1; 2] (RedVector [GF 5 1; GF 5 3])
  = apply_red [6; -3] (RedVector [GF 5 1; GF 5 3]).
Proof.
  apply (apply_red_linear 5 [GF 5 1; GF 5 3] [1; 2] [6; -3] 1).
  - split; [done | repeat constructor].
  - reflexivity.
  - repeat constructor.
Defined.

(** X2: the image of the [i]-th basis element under a vector [red] of
    [GF(ell)] is the [i]-th entry of [red]; so the first coordinate of
    [red] is the image of [betas[0] = 1]. *)
Theorem apply_red_basis (ell : Z) (red : list GFelt) (d i : nat) (r : GFelt)
    (Hred : vector_over ell red) (Hi : (i < d)%nat) (Hr : red !! i = Some r) :
  apply_red (basis_coeffs d i) (RedVector red) = OK (GF ell (residue r))
  ∧ (0 ≤ residue r < ell → apply_red (basis_coeffs d i) (RedVector red) = OK r).
Proof.
  rewrite (apply_red_dot ell) by done. rewrite (dot_basis d i red r) by done.
  split; [done|]. intros Hrange. destruct Hred as [_ Hall].
  rewrite Forall_forall in Hall.
  assert (parent r = ell) as Hp by (by eapply Hall, list_elem_of_lookup_2).
  destruct r as [p x]. simpl in *. subst p. unfold GF.
  by rewrite Z.mod_small.
Qed.

Lemma apply_red_basis_witness :
  apply_red (basis_coeffs 2 1) (RedVector [GF 5 1; GF 5 3]) = OK (GF 5 3).
Proof.
  apply (apply_red_basis 5 [GF 5 1; GF 5 3] 2 1 (GF 5 3)).
  - split; [done | repeat constructor].
  - lia.
  - reflexivity.
  - vm_compute. split; congruence.
Defined.

(** *** Records of one form *)

(** X3: [compare_record] looks at ['ell'] and ['ap'] only. It is
    symmetric, also in the exception it raises; on records that carry
    an ['ell'] it is reflexive and transitive; it raises [KeyError]
    exactly when one of the two records has no ['ell']. *)
Theorem compare_record_equivalence (r1 r2 r3 : nf_record) :
  compare_record r1 r2 = compare_record r2 r1
  ∧ (is_Some (rec_ell r1) → compare_record r1 r1 = OK true)
  ∧ (compare_record r1 r2 = OK true → compare_record r2 r3 = OK true →
     compare_record r1 r3 = OK true)
  ∧ (compare_record r1 r2 = Raise KeyError ↔ rec_ell r1 = None ∨ rec_ell r2 = None)
  ∧ (rec_ell r1 = rec_ell r3 → rec_ap r1 = rec_ap r3 →
     compare_record r1 r2 = compare_record r3 r2).
Proof.
  split; [|split; [|split; [|split]]].
  - unfold compare_record.
    destruct (rec_ell r1) as [e1|], (rec_ell r2) as [e2|]; simpl; try done.
    f_equal. rewrite Z.eqb_sym. f_equal. apply bool_decide_ext. split; congruence.
  - intros [e He]. apply compare_record_true. eauto.
  - intros [(e & H1 & H2) Hap]%compare_record_true
           [(e' & H2' & H3) Hap']%compare_record_true.
    apply compare_record_true. split; [|congruence].
    exists e. split; [done|]. congruence.
  - unfold compare_record.
    destruct (rec_ell r1) as [e1|], (rec_ell r2) as [e2|]; simpl;
      split; try done; auto; intros [?|?]; done.
  - unfold compare_record. by intros -> ->.
Qed.

Lemma compare_record_equivalence_witness :
  compare_record record_11 record_11 = OK true.
Proof.
  destruct (compare_record_equivalence record_11 record_11 record_11)
    as (_ & Hrefl & _).
  apply Hrefl. simpl. eauto.
Defined.

(** X4: [reduce_chi_mod_ell] returns the empty list for a character of
    order 1 whatever values are stored; for another order it reduces the
    stored values in their order and keeps the generators, and it raises
    [TypeError] when no values are stored. *)
Theorem reduce_chi_mod_ell_values (nf : Newform) (ell : Z) (red : list GFelt)
    (Hred : vector_over ell red) :
  (char_order (web nf) = 1 → ∀ r, reduce_chi_mod_ell nf r = OK [])
  ∧ (char_order (web nf) ≠ 1 → hecke_ring_character_values (web nf) = None →
     ∀ r, reduce_chi_mod_ell nf r = Raise TypeError)
  ∧ (char_order (web nf) ≠ 1 →
     ∀ values, hecke_ring_character_values (web nf) = Some values →
       reduce_chi_mod_ell nf (RedVector red)
       = OK (map (λ ac, (ac.1, GF ell (dot ac.2 red))) values)).
Proof.
  unfold reduce_chi_mod_ell. split; [|split].
  - by intros -> r.
  - intros Hne Hnone r. destruct (Z.eqb_spec (char_order (web nf)) 1); [done|].
    by rewrite Hnone.
  - intros Hne values Hv. destruct (Z.eqb_spec (char_order (web nf)) 1); [done|].
    rewrite Hv. apply mapM_OK. apply Forall2_fmap_r, Forall_Forall2_diag, Forall_true.
    intros [a c]. apply bind_OK. eexists. split; [by apply apply_red_dot | done].
Qed.

Lemma reduce_chi_mod_ell_values_witness :
  reduce_chi_mod_ell nf_degree_one (RedVector [GF 2 1]) = OK [].
Proof.
  apply (reduce_chi_mod_ell_values nf_degree_one 2 [GF 2 1]).
  - split; [done | repeat constructor].
  - reflexivity.
Defined.

(** X5: with a vector [red] of [GF(ell)], [reduce_an_mod_ell] never
    raises and returns one value for each stored [an], the dot product
    with [red]; with the closure of the branch [K == QQ] it raises
    [TypeError] as soon as one [an] is stored. *)
Theorem reduce_an_mod_ell_values (nf : Newform) (ell : Z) (red : list GFelt)
    (Hred : vector_over ell red) :
  reduce_an_mod_ell nf (RedVector red) = OK (map (λ a, GF ell (dot a red)) (an nf))
  ∧ (∀ l, reduce_an_mod_ell nf (RedVector red) = OK l → length l = length (an nf))
  ∧ (an nf ≠ [] → ∀ ell', reduce_an_mod_ell nf (RedLambda ell') = Raise TypeError).
Proof.
  assert (reduce_an_mod_ell nf (RedVector red)
          = OK (map (λ a, GF ell (dot a red)) (an nf))) as H.
  { apply mapM_OK. apply Forall2_fmap_r, Forall_Forall2_diag, Forall_true.
    intros a. by apply apply_red_dot. }
  split; [done|]. split.
  - intros l Hl. rewrite H in Hl. injection Hl as <-. by rewrite length_map.
  - unfold reduce_an_mod_ell. by destruct (an nf).
Qed.

Lemma reduce_an_mod_ell_values_witness :
  reduce_an_mod_ell nf_degree_one (RedVector [GF 2 1]) = OK [].
Proof.
  apply (reduce_an_mod_ell_values nf_degree_one 2 [GF 2 1]).
  split; [done | repeat constructor].
Defined.

(** X6: the record of [nf_mod_ell] copies label, level, weight and
    dimension of the form and holds the dictionary of
    [reduce_ap_mod_ell]; it has no ['ell'] and no ['index'], so that
    [compare_record] raises [KeyError] on it, on either side. *)
Theorem nf_mod_ell_record (nf : Newform) (red : reduction) (r : nf_record)
    (Hr : nf_mod_ell nf red = OK r) :
  rec_label r = label (web nf) ∧ rec_N r = level (web nf)
  ∧ rec_k r = weight (web nf) ∧ rec_d r = dim (web nf)
  ∧ reduce_ap_mod_ell nf red false = OK (rec_ap r)
  ∧ reduce_chi_mod_ell nf red = OK (rec_chi_mod_ell r)
  ∧ rec_ell r = None ∧ rec_index r = None
  ∧ (∀ r', compare_record r r' = Raise KeyError
           ∧ compare_record r' r = Raise KeyError)
  ∧ (∀ ell, rec_ell (set_ell r ell) = Some ell
            ∧ compare_record (set_ell r ell) (set_ell r ell) = OK true).
Proof.
  unfold nf_mod_ell in Hr. apply bind_OK in Hr as (apd & Hap & Hr).
  apply bind_OK in Hr as (chi & Hchi & [= <-]). simpl.
  repeat split; try done.
  - unfold compare_record. simpl. by destruct (rec_ell r').
  - unfold compare_record. simpl. by rewrite Z.eqb_refl, bool_decide_eq_true_2.
Qed.

Lemma nf_mod_ell_record_witness :
  ∃ r, nf_mod_ell nf_degree_one (RedVector [GF 2 1]) = OK r
       ∧ rec_label r = "11.2.a.a"%string.
Proof.
  eexists. split; [vm_compute; reflexivity|].
  apply (nf_mod_ell_record nf_degree_one (RedVector [GF 2 1])).
  vm_compute. reflexivity.
Defined.

(** *** The output line *)

Lemma sorted_keys_length {A} (d : gmap Z A) : length (sorted_keys d) = size d.
Proof.
  unfold sorted_keys. rewrite merge_sort_Permutation, length_map.
  by rewrite length_map_to_list.
Qed.

Lemma sorted_keys_values (d : gmap Z GFelt) :
  ∃ vals, mapM (λ p, getkey (d !! p)) (sorted_keys d) = OK vals
          ∧ length vals = size d.
Proof.
  destruct (mapM_total (λ p, getkey (d !! p)) (sorted_keys d)) as [vals Hv].
  - apply Forall_forall. intros p Hp. unfold sorted_keys in Hp.
    rewrite merge_sort_Permutation in Hp.
    apply list_elem_of_fmap in Hp as ([k v] & -> & Hkv%elem_of_map_to_list).
    simpl. rewrite Hkv. simpl. eauto.
  - exists vals. split; [done|]. apply mapM_OK, Forall2_length in Hv.
    by rewrite <- Hv, sorted_keys_length.
Qed.

(** The [ap] that [nf_to_string] keeps, for each value of [nap]. *)
Lemma nf_to_string_same_slice nfr nap1 nap2 :
  (∀ aplist : list GFelt, length aplist = size (rec_ap nfr) →
     match nap1 with
     | Some n => if negb (n =? 0) && (n <? Z.of_nat (length aplist))
                 then slice_to aplist n else aplist
     | None => aplist
     end
     = match nap2 with
       | Some n => if negb (n =? 0) && (n <? Z.of_nat (length aplist))
                   then slice_to aplist n else aplist
       | None => aplist
       end) →
  nf_to_string nfr nap1 = nf_to_string nfr nap2.
Proof.
  intros Hsame. unfold nf_to_string.
  destruct (unpack4 _) as [[[[N k] c] id]|e]; [|done]. cbn [mbind result_bind].
  destruct (str_of_Z <$> getkey (rec_ell nfr)) as [ell|e]; [|done].
  cbn [mbind result_bind].
  destruct (sorted_keys_values (rec_ap nfr)) as (vals & -> & Hlen).
  cbn [mbind result_bind]. by rewrite (Hsame vals Hlen).
Qed.

Lemma nf_to_string_returns nfr nap :
  length (split_on "." (rec_label nfr)) = 4%nat →
  is_Some (rec_ell nfr) → is_Some (rec_index nfr) →
  ∃ s, nf_to_string nfr nap = OK s.
Proof.
  intros Hlab [ell Hell] [index Hindex]. unfold nf_to_string.
  destruct (sorted_keys_values (rec_ap nfr)) as (vals & Hvals & _).
  destruct (split_on "." (rec_label nfr)) as [|N [|k [|c [|id [|x l]]]]]; try done.
  cbn [unpack4 mbind result_bind]. rewrite Hvals, Hell, Hindex.
  cbn [getkey fmap result_fmap mbind result_bind]. eauto.
Qed.

(** X7: [nf_to_string] returns a line exactly for a record whose label
    has four dot-separated parts and that carries ['ell'] and ['index'].
    Another label raises [ValueError], before the keys are read; a
    missing ['ell'] or ['index'] raises [KeyError]. *)
Theorem nf_to_string_succeeds_iff (nfr : nf_record) (nap : option Z) :
  ((∃ s, nf_to_string nfr nap = OK s)
   ↔ length (split_on "." (rec_label nfr)) = 4%nat
     ∧ is_Some (rec_ell nfr) ∧ is_Some (rec_index nfr))
  ∧ (length (split_on "." (rec_label nfr)) ≠ 4%nat →
     nf_to_string nfr nap = Raise ValueError)
  ∧ (length (split_on "." (rec_label nfr)) = 4%nat →
     rec_ell nfr = None ∨ rec_index nfr = None →
     nf_to_string nfr nap = Raise KeyError).
Proof.
  unfold nf_to_string.
  destruct (sorted_keys_values (rec_ap nfr)) as (vals & Hvals & _).
  destruct (split_on "." (rec_label nfr)) as [|N [|k [|c [|id [|x l]]]]] eqn:Hs;
    cbn [unpack4 mbind result_bind length];
    try (split; [split; [by intros [? ?] | intros (? & _); lia]
                | split; [done | intros; lia]]).
  rewrite Hvals.
  destruct (rec_ell nfr) as [ell|], (rec_index nfr) as [index|];
    cbn [getkey fmap result_fmap mbind result_bind].
  - split; [split; [eauto | eauto]|]. split; [done|]. by intros _ [?|?].
  - split; [split; [by intros [? ?] | by intros (_ & _ & [? ?])]|]. done.
  - split; [split; [by intros [? ?] | by intros (_ & [? ?] & _)]|]. done.
  - split; [split; [by intros [? ?] | by intros (_ & [? ?] & _)]|]. done.
Qed.

Lemma nf_to_string_succeeds_iff_witness :
  ∃ s, nf_to_string record_11 (Some 2) = OK s.
Proof.
  apply (nf_to_string_succeeds_iff record_11 (Some 2)).
  vm_compute. eauto.
Defined.

(** X8: the limit [nap] of [nf_to_string] at its edges. [nap = 0] and a
    [nap] that is not below the number of stored [ap] give the line of
    [nap = None]; a negative [nap = -m] cuts the last [m] values, like
    the positive limit [len - m] when that is positive. *)
Theorem nf_to_string_nap_edges (nfr : nf_record) (n : Z) :
  nf_to_string nfr (Some 0) = nf_to_string nfr None
  ∧ (Z.of_nat (size (rec_ap nfr)) ≤ n →
     nf_to_string nfr (Some n) = nf_to_string nfr None)
  ∧ (n < 0 → 0 < Z.of_nat (size (rec_ap nfr)) + n →
     nf_to_string nfr (Some n)
     = nf_to_string nfr (Some (Z.of_nat (size (rec_ap nfr)) + n))).
Proof.
  split; [|split].
  - by apply nf_to_string_same_slice.
  - intros Hn. apply nf_to_string_same_slice. intros aplist ->.
    destruct (Z.ltb_spec n (Z.of_nat (size (rec_ap nfr)))); [lia|].
    by rewrite andb_false_r.
  - intros Hneg Hpos. apply nf_to_string_same_slice. intros aplist Hlen.
    rewrite Hlen. set (len := size (rec_ap nfr)) in *.
    destruct (Z.eqb_spec n 0); [lia|]. destruct (Z.ltb_spec n (Z.of_nat len)); [|lia].
    destruct (Z.eqb_spec (Z.of_nat len + n) 0); [lia|].
    destruct (Z.ltb_spec (Z.of_nat len + n) (Z.of_nat len)); [|lia].
    simpl. unfold slice_to.
    destruct (Z.leb_spec 0 n); [lia|].
    destruct (Z.leb_spec 0 (Z.of_nat len + n)); [|lia].
    f_equal. lia.
Qed.

Lemma nf_to_string_nap_edges_witness :
  nf_to_string record_11 (Some (-1)) = nf_to_string record_11 (Some 2).
Proof.
  apply (nf_to_string_nap_edges record_11 (-1)).
  - lia.
  - vm_compute. reflexivity.
Defined.

(** *** Splitting the line into its fields *)

Lemma contains_app c s t : contains c (s +:+ t) = contains c s || contains c t.
Proof. induction s as [|a s IH]; simpl; [done|]. by rewrite IH, orb_assoc. Qed.

Lemma split_on_clean c s : contains c s = false → split_on c s = [s].
Proof.
  induction s as [|a s IH]; simpl; [done|].
  intros [Ha Hs]%orb_false_iff. by rewrite Ha, (IH Hs).
Qed.

Lemma split_on_sep c s t :
  contains c s = false → split_on c (s +:+ String c t) = s :: split_on c t.
Proof.
  induction s as [|a s IH]; simpl.
  - intros _. by rewrite Ascii.eqb_refl.
  - intros [Ha Hs]%orb_false_iff. by rewrite Ha, (IH Hs).
Qed.

Lemma split_on_concat c fields :
  fields ≠ [] → Forall (λ w, contains c w = false) fields →
  split_on c (String.concat (String c EmptyString) fields) = fields.
Proof.
  intros Hne H. induction H as [|w [|w' fields] Hw Hrest IH]; [done| |].
  - by apply split_on_clean.
  - change (String.concat (String c EmptyString) (w :: w' :: fields))
      with (w +:+ String c (String.concat (String c EmptyString) (w' :: fields))).
    rewrite split_on_sep by done. f_equal. by apply IH.
Qed.

Lemma split_on_parts_clean c d s :
  contains c s = false → Forall (λ w, contains c w = false) (split_on d s).
Proof.
  induction s as [|a s IH]; simpl.
  - intros _. by repeat constructor.
  - intros [Ha Hs]%orb_false_iff. specialize (IH Hs).
    destruct (Ascii.eqb a d); [by constructor|].
    destruct (split_on d s) as [|w ws]; [by repeat constructor; simpl; rewrite Ha|].
    apply Forall_cons in IH as [Hw Hws]. constructor; [|done].
    simpl. by rewrite Ha, Hw.
Qed.

Lemma contains_concat c sep items :
  contains c sep = false → Forall (λ w, contains c w = false) items →
  contains c (String.concat sep items) = false.
Proof.
  intros Hsep H. induction H as [|w [|w' items] Hw _ IH]; [done..|].
  change (String.concat sep (w :: w' :: items))
    with (w +:+ sep +:+ String.concat sep (w' :: items)).
  by rewrite !contains_app, Hw, Hsep, IH.
Qed.

Lemma contains_remove_spaces c s :
  contains c s = false → contains c (remove_spaces s) = false.
Proof.
  induction s as [|a s IH]; simpl; [done|].
  intros [Ha Hs]%orb_false_iff. destruct (Ascii.eqb a " "); simpl; [by apply IH|].
  by rewrite Ha, (IH Hs).
Qed.

Lemma contains_drop_last c s : contains c s = false → contains c (drop_last s) = false.
Proof.
  induction s as [|a s IH]; simpl; [done|].
  intros [Ha Hs]%orb_false_iff. destruct s; [done|]. simpl in *.
  rewrite Ha. by apply IH.
Qed.

Lemma string_of_uint_no_colon d : contains ":" (NilEmpty.string_of_uint d) = false.
Proof. induction d; simpl; by rewrite ?IHd. Qed.

Lemma str_of_Z_no_colon n : contains ":" (str_of_Z n) = false.
Proof.
  unfold str_of_Z, NilZero.string_of_int, NilZero.string_of_uint.
  destruct (Z.to_int n) as [d|d]; destruct d; simpl; by rewrite ?string_of_uint_no_colon.
Qed.

Lemma str_of_list_no_colon items :
  Forall (λ w, contains ":" w = false) items →
  contains ":" (str_of_list items) = false.
Proof.
  intros H. unfold str_of_list. rewrite !contains_app.
  by rewrite (contains_concat ":" ", " items).
Qed.

(** X9: when the label holds no colon, splitting the line of
    [nf_to_string] at the colons gives back its ten fields: the label,
    its four parts, then dimension, [ell], index, character values and
    [ap]; the eighth field is the index. *)
Theorem nf_to_string_fields (nfr : nf_record) (nap : option Z) (s : string)
    (Hs : nf_to_string nfr nap = OK s)
    (Hlabel : contains ":" (rec_label nfr) = false) :
  ∃ N k c id ell index chi ap,
    split_on "." (rec_label nfr) = [N; k; c; id]
    ∧ rec_ell nfr = Some ell ∧ rec_index nfr = Some index
    ∧ split_on ":" s
      = [rec_label nfr; N; k; c; id;
         str_of_Z (rec_d nfr); str_of_Z ell; str_of_Z index; chi; ap]
    ∧ s = String.concat ":" (split_on ":" s).
Proof.
  unfold nf_to_string in Hs.
  pose proof (split_on_parts_clean ":" "." _ Hlabel) as Hparts.
  destruct (split_on "." (rec_label nfr)) as [|N [|k [|c [|id [|x l]]]]]; try done.
  cbn [unpack4 mbind result_bind] in Hs.
  destruct (rec_ell nfr) as [ell|]; [|done].
  cbn [getkey fmap result_fmap mbind result_bind] in Hs.
  destruct (sorted_keys_values (rec_ap nfr)) as (vals & Hvals & _).
  rewrite Hvals in Hs. cbn [mbind result_bind] in Hs.
  destruct (rec_index nfr) as [index|]; [|done].
  cbn [getkey fmap result_fmap mbind result_bind] in Hs.
  apply OK_inj in Hs. subst s.
  apply Forall_cons in Hparts as [HN Hparts].
  apply Forall_cons in Hparts as [Hk Hparts].
  apply Forall_cons in Hparts as [Hc Hparts].
  apply Forall_cons in Hparts as [Hid _].
  match goal with |- context [split_on ":" (String.concat ":" ?fs)] =>
    assert (split_on ":" (String.concat ":" fs) = fs) as Hsplit end.
  { apply (split_on_concat ":"); [done|].
    repeat constructor; try done; try apply str_of_Z_no_colon.
    - apply contains_remove_spaces, str_of_list_no_colon.
      apply Forall_fmap, Forall_true. intros [a v]. cbn [fst snd].
      apply str_of_list_no_colon. repeat constructor; apply str_of_Z_no_colon.
    - unfold slice_1_m1.
      match goal with |- contains _ (match ?t with _ => _ end) = _ =>
        assert (contains ":" t = false) as Ht; [|destruct t; [done|]] end.
      + apply contains_remove_spaces, str_of_list_no_colon.
        apply Forall_fmap, Forall_true. intros v. apply str_of_Z_no_colon.
      + simpl in Ht. apply orb_false_iff in Ht as [_ Ht]. by apply contains_drop_last. }
  do 8 eexists. split; [done|]. split; [done|]. split; [done|].
  split; [exact Hsplit | by rewrite Hsplit].
Qed.

Lemma nf_to_string_fields_witness :
  ∃ N k c id ell index chi ap,
    split_on "." (rec_label record_11) = [N; k; c; id]
    ∧ rec_ell record_11 = Some ell ∧ rec_index record_11 = Some index
    ∧ split_on ":" "11.2.a.a:11:2:a:a:1:2:1:[]:1,0,1"
      = [rec_label record_11; N; k; c; id;
         str_of_Z (rec_d record_11); str_of_Z ell; str_of_Z index; chi; ap]
    ∧ "11.2.a.a:11:2:a:a:1:2:1:[]:1,0,1"%string
      = String.concat ":" (split_on ":" "11.2.a.a:11:2:a:a:1:2:1:[]:1,0,1").
Proof.
  apply (nf_to_string_fields record_11 None).
  - vm_compute. reflexivity.
  - vm_compute. reflexivity.
Defined.

(** *** Bases, candidate vectors and the forms of one triple *)

(** X10: what [reduction_maps] returns for a prime [ell]. It returns
    only for a non-empty basis whose first element is 1 and whose first
    structure matrix is the identity. The vectors it returns are, in
    their order and unchanged, the first vector of the kernel basis of
    each maximal ideal whose basis matrix has rank [d - 1], one for
    each such ideal. Each of them has [d] coordinates, all in
    [GF(ell)], and its first coordinate is not zero. *)
Theorem reduction_maps_result
    (maximal_ideals : Z → list (list (list GFelt)) → list Ideal)
    (betas : list NFelt) (ell : Z) (vv : list (list GFelt))
    (Hell : Z.prime ell)
    (Hvv : reduction_maps maximal_ideals betas ell = OK vv) :
  (∃ b0, betas !! 0%nat = Some b0 ∧ K_eq_one b0 = true)
  ∧ (∃ structure s0,
       structure_matrices betas ell = OK structure
       ∧ length structure = length betas
       ∧ structure !! 0%nat = Some s0 ∧ matrix_is_one ell s0 = true
       ∧ Forall2 (λ M v, kernel_basis (length betas) ell M !! 0%nat = Some v)
           (filter (λ M, rank (Zmod_ops ell) (length betas)
                           (map (map residue) (basis_matrix M))
                         = (length betas - 1)%nat)
                   (maximal_ideals ell structure)) vv
       ∧ (length vv ≤ length (maximal_ideals ell structure))%nat)
  ∧ Forall (λ v, length v = length betas
                 ∧ Forall (λ x, parent x = ell) v
                 ∧ ∃ v0, v !! 0%nat = Some v0 ∧ GF_eq_int v0 0 = false) vv.
Proof.
  pose proof (Z.prime_ge_2 _ Hell) as Hge.
  destruct (reduction_maps_inv _ _ _ _ Hell Hvv)
    as (b0 & structure' & s0' & Hb0 & Hone & Hs' & _).
  destruct (returned_vectors _ _ _ _ Hell Hvv)
    as (structure & s0 & Hs & Hs0 & Hid & Hc & Hd & Hall).
  split; [by exists b0|]. split.
  - exists structure, s0. split; [done|]. split.
    { by destruct (structure_matrices_shape _ _ _ Hs). }
    split; [done|]. split; [done|]. split.
    + eapply Forall2_impl; [exact Hall|].
      intros M v (b & bs & Hb & -> & _ & _). unfold kernel_basis. by rewrite Hb.
    + apply Forall2_length in Hall. rewrite <- Hall. apply length_filter.
  - eapply Forall2_Forall_r; [exact Hall|]. apply Forall_true.
    intros M v (b & bs & Hb & -> & _ & Hv0).
    destruct (right_kernel_basis_first ell Hell (length betas) _ b bs Hd Hb)
      as [Hlen _].
    split; [by rewrite length_map|]. split.
    { apply Forall_fmap, Forall_true. done. }
    exists (GF ell 1). split; [done|]. unfold GF_eq_int. simpl.
    rewrite Z.mod_mod, Z.mod_1_l, Z.mod_0_l by lia. done.
Qed.

Lemma reduction_maps_result_witness :
  reduction_maps ideals_sqrt7 sqrt7_betas 3
  = OK [[GF 3 1; GF 3 2]; [GF 3 1; GF 3 1]]
  ∧ Forall (λ v, length v = length sqrt7_betas
                 ∧ Forall (λ x, parent x = 3) v
                 ∧ ∃ v0, v !! 0%nat = Some v0 ∧ GF_eq_int v0 0 = false)
           [[GF 3 1; GF 3 2]; [GF 3 1; GF 3 1]].
Proof.
  split; [vm_compute; reflexivity|].
  apply (reduction_maps_result ideals_sqrt7 sqrt7_betas 3).
  - apply is_prime_spec. vm_compute. reflexivity.
  - vm_compute. reflexivity.
Defined.

Lemma Qvec_eqb_refl v : Qvec_eqb v v = true.
Proof.
  unfold Qvec_eqb. rewrite Nat.eqb_refl. simpl.
  induction v as [|q v IH]; simpl; [done|]. rewrite IH, andb_true_r.
  apply Qeq_bool_iff. reflexivity.
Qed.

Lemma K_reduce_shape poly p :
  nf_poly (K_reduce poly p) = poly
  ∧ length (nf_coords (K_reduce poly p)) = degree poly.
Proof.
  unfold K_reduce, pad. simpl. split; [done|].
  rewrite length_take, length_app, length_replicate. lia.
Qed.

Lemma K_pow_shape a i :
  length (nf_coords a) = degree (nf_poly a) →
  nf_poly (K_pow a i) = nf_poly a
  ∧ length (nf_coords (K_pow a i)) = degree (nf_poly a).
Proof.
  intros Ha. destruct i as [|i]; cbn [K_pow].
  - unfold K_one. apply K_reduce_shape.
  - unfold K_mul. apply K_reduce_shape.
Qed.

(** X11: for a form without stored numerators and a field of degree at
    least 1, the basis of the Hecke order is the power basis of the
    generator [a] of the field: [betas[i] = a ** i] for each [i] below
    the degree, and there are as many elements as the degree. Each has
    as many coordinates as the degree, and the first is 1, so the
    assertion [betas[0] == 1] holds for it. *)
Theorem hecke_betas_power_basis (nf : Newform) (poly : list Z)
    (Hnum : hecke_ring_numerators (web nf) = None
            ∨ hecke_ring_numerators (web nf) = Some [])
    (Hdeg : (1 ≤ degree poly)%nat) :
  ∃ betas b0,
    hecke_betas nf poly = OK betas
    ∧ length betas = degree poly
    ∧ (∀ i, (i < degree poly)%nat → betas !! i = Some (K_pow (K_gen poly) i))
    ∧ betas !! 0%nat = Some b0 ∧ b0 = K_one poly ∧ K_eq_one b0 = true
    ∧ Forall (λ b, nf_poly b = poly ∧ length (nf_coords b) = degree poly) betas.
Proof.
  set (betas := map (K_pow (K_gen poly)) (seq 0 (degree poly))).
  assert (hecke_betas nf poly = OK betas) as Hb.
  { unfold hecke_betas. by destruct Hnum as [-> | ->]. }
  exists betas, (K_one poly). split; [done|]. split.
  { unfold betas. by rewrite length_map, length_seq. }
  split.
  { intros i Hi. unfold betas. rewrite list_lookup_fmap, lookup_seq_lt by done.
    done. }
  split.
  { unfold betas. destruct (degree poly) as [|d]; [lia|]. done. }
  split; [done|]. split.
  { unfold K_eq_one. change (nf_poly (K_one poly)) with poly.
    apply Qvec_eqb_refl. }
  apply Forall_fmap, Forall_true. intros i.
  destruct (K_reduce_shape poly [0%Q; 1%Q]) as [Hp Hl].
  destruct (K_pow_shape (K_gen poly) i) as [H1 H2];
    [unfold K_gen; by rewrite Hp, Hl|].
  change (nf_poly (K_gen poly)) with poly in H1, H2. done.
Qed.

Lemma hecke_betas_power_basis_witness :
  ∃ betas b0,
    hecke_betas nf_degree_one [-7; 0; 1] = OK betas
    ∧ length betas = degree [-7; 0; 1]
    ∧ (∀ i, (i < degree [-7; 0; 1]%Z)%nat →
         betas !! i = Some (K_pow (K_gen [-7; 0; 1]) i))
    ∧ betas !! 0%nat = Some b0 ∧ b0 = K_one [-7; 0; 1] ∧ K_eq_one b0 = true
    ∧ Forall (λ b, nf_poly b = [-7; 0; 1]
                   ∧ length (nf_coords b) = degree [-7; 0; 1]) betas.
Proof.
  apply (hecke_betas_power_basis nf_degree_one [-7; 0; 1]).
  - left. reflexivity.
  - vm_compute. lia.
Defined.

(** X12: for a form with stored numerators, [hecke_betas] pairs them
    with the denominators up to the shorter of the two lists. It returns
    only if each paired numerator has as many entries as the degree and
    no paired denominator is zero, and then each element of the basis
    is its numerator divided by its denominator. *)
Theorem hecke_betas_generic_basis (nf : Newform) (poly : list Z)
    (nums : list (list Z)) (betas : list NFelt)
    (Hnum : hecke_ring_numerators (web nf) = Some nums) (Hne : nums ≠ [])
    (Hb : hecke_betas nf poly = OK betas) :
  length betas
  = Nat.min (length nums) (length (hecke_ring_denominators (web nf)))
  ∧ Forall2 (λ cd b,
       length cd.1 = degree poly ∧ cd.2 ≠ 0
       ∧ K_div_int (mkNF poly (map inject_Z cd.1)) cd.2 = OK b
       ∧ nf_poly b = poly ∧ length (nf_coords b) = degree poly)
     (zip nums (hecke_ring_denominators (web nf))) betas.
Proof.
  unfold hecke_betas in Hb. rewrite Hnum in Hb.
  destruct nums as [|c0 nums]; [done|]. apply mapM_OK in Hb.
  split.
  - apply Forall2_length in Hb. rewrite <- Hb. apply length_zip_with.
  - eapply Forall2_impl; [done|]. intros [c d] b H. simpl in *.
    apply bind_OK in H as (x & Hx & H). unfold K_of_list in Hx.
    destruct (Nat.eqb_spec (length c) (degree poly)) as [Hlen|]; [|done].
    injection Hx as <-. split; [done|]. unfold K_div_int in *.
    destruct (Z.eqb_spec d 0); [done|]. split; [done|]. split; [done|].
    injection H as <-. simpl. split; [done|].
    unfold vscale. by rewrite !length_map.
Qed.

Lemma hecke_betas_generic_basis_witness :
  ∃ betas,
    hecke_betas nf_sqrt5 [-5; 0; 1] = OK betas
    ∧ length betas = 2%nat.
Proof.
  eexists. split; [vm_compute; reflexivity|].
  destruct (hecke_betas_generic_basis nf_sqrt5 [-5; 0; 1] [[1; 0]; [1; 1]]
              [mkNF [-5; 0; 1] [1%Q; 0%Q]; mkNF [-5; 0; 1] [(1 # 2)%Q; (1 # 2)%Q]])
    as [Hlen _].
  - reflexivity.
  - done.
  - vm_compute. reflexivity.
  - exact Hlen.
Defined.

(** *** [get_forms] *)

Lemma forms_with_field_elem db N k ell fp :
  fp ∈ forms_with_field db N k ell →
  fp.1 ∈ valid_forms db N k ell
  ∧ ∃ c p, field_poly fp.1 = Some (c :: p) ∧ fp.2 = c :: p.
Proof.
  unfold forms_with_field. intros (f & Hf & Hfp)%list_elem_of_omap.
  unfold field_poly_truthy in Hfp.
  destruct (field_poly f) as [[|c p]|] eqn:Hpoly; try done.
  injection Hfp as <-. simpl. split; [done|]. eauto.
Qed.

Lemma valid_forms_elem db N k ell f :
  f ∈ valid_forms db N k ell →
  char_order_valid (char_order f) ell = OK true
  ∧ ∃ lbl, lbl ∈ mf_newforms_search db N k ∧ f = by_label db lbl.
Proof.
  unfold valid_forms. intros [Hv Hin]%list_elem_of_filter. split; [done|].
  apply list_elem_of_fmap in Hin as (lbl & -> & Hl). eauto.
Qed.

Lemma get_forms_inv maximal_ideals db N k ell forms missing :
  get_forms maximal_ideals db N k ell = OK (forms, missing) →
  ell ≠ 0
  ∧ Forall (λ f,
      web f ∈ valid_forms db N k ell
      ∧ (∃ lbl, lbl ∈ mf_newforms_search db N k ∧ web f = by_label db lbl)
      ∧ char_order_valid (char_order (web f)) ell = OK true
      ∧ (∃ c p, field_poly (web f) = Some (c :: p)
                ∧ hecke_field f = NumberField (c :: p)
                ∧ make_reductions maximal_ideals (with_hecke_field (web f, c :: p)) ell
                  = OK (reductions f))
      ∧ reductions f ≠ []
      ∧ mf_hecke_nf_lucky db (label (web f)) = Some (an f, ap f)) forms
  ∧ Forall (λ t, ∃ f,
      f ∈ valid_forms db N k ell ∧ field_poly f = None
      ∧ t = (label f, dim f, ell)) missing
  ∧ (N mod ell ≠ 0 → ∀ f, f ∈ valid_forms db N k ell → field_poly f = None →
       (label f, dim f, ell) ∈ missing)
  ∧ (N mod ell = 0 → forms = [] ∧ missing = []).
Proof.
  intros H.
  unfold get_forms in H. destruct (Z.eqb_spec ell 0) as [|Hell]; [done|].
  split; [done|]. destruct (Z.eqb_spec (N mod ell) 0) as [Hdiv|Hdiv].
  { injection H as <- <-. repeat split; try constructor. done. }
  apply bind_OK in H as (checks & _ & H).
  apply bind_OK in H as (fs & Hfs & H). apply OK_inj in H.
  injection H as <- <-. apply mapM_OK in Hfs. split; [|split; [|split]].
  - apply Forall_forall. intros f [Hred Hin]%list_elem_of_filter.
    apply list_elem_of_lookup in Hin as [i Hi].
    destruct (Forall2_lookup_r _ _ _ _ _ Hfs Hi) as (fp & Hfp & Hatt).
    apply list_elem_of_lookup_2, forms_with_field_elem in Hfp
      as (Hvalid & c & p & Hpoly & Hfp2).
    unfold attach_reductions in Hatt. apply bind_OK in Hatt as (reds & Hreds & Hatt).
    destruct (mf_hecke_nf_lucky db (label fp.1)) as [[a b]|] eqn:Hl; [|done].
    injection Hatt as <-. simpl in *.
    destruct (valid_forms_elem _ _ _ _ _ Hvalid) as [Hco Hlbl].
    split; [done|]. split; [done|]. split; [done|]. split; [|done].
    exists c, p. rewrite Hfp2 in *. split; [done|]. split; [done|].
    destruct fp as [w q]. simpl in *. by subst q.
  - apply Forall_fmap, Forall_forall. intros f [Hnone Hin]%list_elem_of_filter.
    exists f. split; [done|]. split; [|done]. unfold field_poly_is_None in Hnone.
    by destruct (field_poly f).
  - intros _ f Hf Hnone. apply list_elem_of_fmap. exists f. split; [done|].
    apply list_elem_of_filter. split; [|done]. unfold field_poly_is_None.
    by rewrite Hnone.
  - done.
Qed.

(** X13: what [get_forms] returns. Each returned form was found by the
    search for [(N, k)], has a character order valid for [ell], a
    non-empty field polynomial that defines its [hecke_field], the
    non-empty list of reductions that [make_reductions] gave, and the
    [an] and [ap] of the second table. Each triple of the second list is
    label, dimension and [ell] of a found form with a valid character
    order and no field polynomial. No form is in both lists. *)
Theorem get_forms_result
    (maximal_ideals : Z → list (list (list GFelt)) → list Ideal) (db : Database)
    (N k ell : Z) (forms : list Newform) (missing : list (string * Z * Z))
    (H : get_forms maximal_ideals db N k ell = OK (forms, missing)) :
  ell ≠ 0
  ∧ Forall (λ f,
      web f ∈ valid_forms db N k ell
      ∧ (∃ lbl, lbl ∈ mf_newforms_search db N k ∧ web f = by_label db lbl)
      ∧ char_order_valid (char_order (web f)) ell = OK true
      ∧ (∃ c p, field_poly (web f) = Some (c :: p)
                ∧ hecke_field f = NumberField (c :: p)
                ∧ make_reductions maximal_ideals (with_hecke_field (web f, c :: p)) ell
                  = OK (reductions f))
      ∧ reductions f ≠ []
      ∧ mf_hecke_nf_lucky db (label (web f)) = Some (an f, ap f)) forms
  ∧ Forall (λ t, ∃ f,
      f ∈ valid_forms db N k ell ∧ field_poly f = None
      ∧ t = (label f, dim f, ell)) missing
  ∧ (N mod ell ≠ 0 → ∀ f, f ∈ valid_forms db N k ell → field_poly f = None →
       (label f, dim f, ell) ∈ missing).
Proof.
  destruct (get_forms_inv _ _ _ _ _ _ _ H) as (H0 & H1 & H2 & H3 & _). done.
Qed.

Lemma get_forms_result_witness :
  ∃ forms missing,
    get_forms ideals_degree_one db_ex 11 2 2 = OK (forms, missing)
    ∧ Forall (λ t, ∃ f,
        f ∈ valid_forms db_ex 11 2 2 ∧ field_poly f = None
        ∧ t = (label f, dim f, 2)) missing.
Proof.
  do 2 eexists. split; [vm_compute; reflexivity|].
  eapply (get_forms_result ideals_degree_one db_ex 11 2 2).
  vm_compute. reflexivity.
Defined.

(** *** The sweep of [run] *)

Lemma foldM_invariant_in {A S} (P : S → Prop) (f : S → A → result S) l :
  (∀ s a s', a ∈ l → P s → f s a = OK s' → P s') →
  ∀ s s', P s → foldM f s l = OK s' → P s'.
Proof.
  induction l as [|a l IH]; intros Hstep s s' Hs; simpl.
  - by intros [= <-].
  - intros (s1 & H1 & H2)%bind_OK. eapply IH; [| |done].
    + intros s0 b s0' Hb. apply Hstep. by right.
    + eapply Hstep; [by left | done | done].
Qed.

Lemma foldM_skip {A S} (f : S → A → result S) l s :
  (∀ a, a ∈ l → f s a = OK s) → foldM f s l = OK s.
Proof.
  induction l as [|a l IH]; intros H; simpl; [done|].
  rewrite H by left. simpl. apply IH. intros b Hb. apply H. by right.
Qed.

Section SweepOrigin.
Variable maximal_ideals : Z → list (list (list GFelt)) → list Ideal.
Variable db : Database.
Variables levels ells : list Z.

Lemma add_reduction_origin ell N k forms missing f red st st' :
  ell ∈ ells → N ∈ levels → k ∈ weights ell →
  get_forms maximal_ideals db N k ell = OK (forms, missing) →
  f ∈ forms → red ∈ reductions f →
  sweep_invariant maximal_ideals db levels ells st →
  add_reduction ell f st red = OK st' →
  sweep_invariant maximal_ideals db levels ells st'.
Proof.
  intros Hell HN Hk Hget Hf Hred (Hd1 & Hd2 & Hd3 & Hrec & Htri) H.
  unfold add_reduction in H.
  apply bind_OK in H as (r0 & Hr0 & H).
  apply bind_OK in H as (seen & Hseen & H).
  apply bind_OK in H as (cmps & _ & H).
  apply bind_OK in H as (nnf & Hnnf & H). apply OK_inj in H. subst st'.
  assert (st_nf st !! ell = Some seen) as Hl
    by (by destruct (st_nf st !! ell); simplify_eq/=).
  unfold sweep_invariant. simpl. split; [|split; [|split; [|split]]].
  - rewrite dom_insert_lookup_L by eauto. done.
  - destruct (_ =? 0).
    + apply bind_OK in Hnnf as (n & Hn & Hnnf). apply OK_inj in Hnnf. subst nnf.
      rewrite dom_insert_lookup_L; [done|].
      by destruct (st_nnf st !! ell); simplify_eq/=.
    + apply OK_inj in Hnnf. by subst nnf.
  - done.
  - intros ell' l r. destruct (decide (ell = ell')) as [<-|Hne].
    + rewrite lookup_insert_eq. intros [= <-] [Hr|Hr]%elem_of_app.
      * by eapply Hrec.
      * apply list_elem_of_singleton in Hr as ->. split; [done|].
        exists N, k, forms, missing, f, red, r0. eexists. done.
    + rewrite lookup_insert_ne by done. apply Hrec.
  - done.
Qed.

Lemma sweep_triple_origin ell k N st st' :
  ell ∈ ells → k ∈ weights ell → N ∈ levels →
  sweep_invariant maximal_ideals db levels ells st →
  sweep_triple maximal_ideals db ell k st N = OK st' →
  sweep_invariant maximal_ideals db levels ells st'.
Proof.
  intros Hell Hk HN Hinv H. unfold sweep_triple in H.
  apply bind_OK in H as ([forms missing] & Hget & H).
  apply bind_OK in H as (st1 & Hst1 & H). cbn [fst snd] in *.
  assert (sweep_invariant maximal_ideals db levels ells st1) as Hinv1.
  { destruct missing as [|t missing]; [apply OK_inj in Hst1; by subst st1|].
    apply bind_OK in Hst1 as (old & Hold & Hst1). apply OK_inj in Hst1. subst st1.
    destruct Hinv as (Hd1 & Hd2 & Hd3 & Hrec & Htri).
    assert (st_nfx st !! ell = Some old) as Hl
      by (by destruct (st_nfx st !! ell); simplify_eq/=).
    unfold sweep_invariant. simpl. split; [done|]. split; [done|]. split.
    { rewrite dom_insert_lookup_L by eauto. done. }
    split; [done|]. intros ell' l t'. destruct (decide (ell = ell')) as [<-|Hne].
    - rewrite lookup_insert_eq. intros [= <-] [Ht|Ht]%elem_of_app.
      + by eapply Htri.
      + split; [done|]. exists N, k, forms, (t :: missing). done.
    - rewrite lookup_insert_ne by done. apply Htri. }
  revert H. apply foldM_invariant_in; [|done].
  intros s f s' Hf Hs. apply foldM_invariant_in; [|done].
  intros s1 red s1' Hred Hs1. by eapply add_reduction_origin.
Qed.

Lemma run_sweep_origin st :
  run_sweep maximal_ideals db levels ells = OK st →
  sweep_invariant maximal_ideals db levels ells st.
Proof.
  unfold run_sweep. apply foldM_invariant_in.
  - intros s ell s' Hell Hs. apply foldM_invariant_in; [|done].
    intros s1 k s1' Hk Hs1. apply foldM_invariant_in; [|done].
    intros s2 N s2' HN Hs2. by apply sweep_triple_origin.
  - unfold sweep_invariant. simpl. rewrite !dict_of_pairs_dom.
    rewrite <- !list_fmap_compose.
    assert (∀ A (c : A), (fst ∘ (λ ell : Z, (ell, c))) <$> ells = ells) as Hid.
    { intros A c. apply list_eq. intros i. rewrite list_lookup_fmap.
      by destruct (ells !! i). }
    rewrite !Hid. repeat split; try done.
    + apply (const_dict_dom (A:=list nf_record) [] ells ell). eauto.
    + apply const_dict_lookup in H as ->. by apply elem_of_nil in H0.
    + apply (const_dict_dom (A:=list (string * Z * Z)) [] ells ell). eauto.
    + apply const_dict_lookup in H as ->. by apply elem_of_nil in H0.
Qed.

End SweepOrigin.

Lemma weights_elem ell k : k ∈ weights ell ↔ 2 ≤ k ≤ Z.max (ell + 1) 4.
Proof. unfold weights. rewrite elem_of_seqZ. lia. Qed.

Lemma run_OK_inv maximal_ideals db levels ells nf nfx :
  run maximal_ideals db levels ells = OK (nf, nfx) →
  ∃ st, run_sweep maximal_ideals db levels ells = OK st
        ∧ nf = st_nf st ∧ nfx = st_nfx st.
Proof.
  unfold run. intros (st & Hst & H)%bind_OK. apply OK_inj in H.
  injection H as <- <-. eauto.
Qed.

(** X14: without levels [run] looks nothing up and returns, for any
    list of primes, the two dictionaries that map every given prime to
    the empty list. With levels, the two dictionaries that [run]
    returns have the given primes as their keys, and no other key. *)
Theorem run_keys
    (maximal_ideals : Z → list (list (list GFelt)) → list Ideal) (db : Database)
    (levels ells : list Z) :
  run maximal_ideals db [] ells
  = OK (dict_of_pairs (map (λ ell, (ell, [])) ells),
        dict_of_pairs (map (λ ell, (ell, [])) ells))
  ∧ ∀ (nf : gmap Z (list nf_record)) (nfx : gmap Z (list (string * Z * Z))),
      run maximal_ideals db levels ells = OK (nf, nfx) →
      dom nf = list_to_set ells ∧ dom nfx = list_to_set ells
      ∧ (∀ ell, ell ∈ ells ↔ is_Some (nf !! ell))
      ∧ (∀ ell, ell ∈ ells ↔ is_Some (nfx !! ell)).
Proof.
  split.
  - unfold run, run_sweep. rewrite foldM_skip; [done|].
    intros ell _. by apply foldM_skip.
  - intros nf nfx Hrun.
    apply run_OK_inv in Hrun as (st & Hst & -> & ->).
    destruct (run_sweep_origin _ _ _ _ _ Hst) as (Hd1 & _ & Hd3 & _).
    split; [done|]. split; [done|]. split.
    + intros ell. by rewrite <- elem_of_dom, Hd1, elem_of_list_to_set.
    + intros ell. by rewrite <- elem_of_dom, Hd3, elem_of_list_to_set.
Qed.

Lemma run_keys_witness :
  ∃ nf nfx, run ideals_degree_one db_ex [11; 13] [2; 3] = OK (nf, nfx)
            ∧ dom nf = list_to_set [2; 3].
Proof.
  do 2 eexists. split; [vm_compute; reflexivity|].
  eapply (proj2 (run_keys ideals_degree_one db_ex [11; 13] [2; 3])).
  vm_compute. reflexivity.
Defined.

(** X15: with a level to look at, [run] does not survive the prime 0:
    [get_forms] computes [N % ell] first, and when 0 is the first prime
    the [ZeroDivisionError] is the exception that ends the sweep. *)
Theorem run_prime_zero
    (maximal_ideals : Z → list (list (list GFelt)) → list Ideal) (db : Database)
    (levels ells : list Z) (N k : Z) (Hlevels : levels ≠ []) :
  get_forms maximal_ideals db N k 0 = Raise ZeroDivisionError
  ∧ run maximal_ideals db levels (0 :: ells) = Raise ZeroDivisionError.
Proof.
  split; [done|]. destruct levels as [|N0 levels']; [done|]. reflexivity.
Qed.

Lemma run_prime_zero_witness :
  run ideals_degree_one db_ex [11] [0; 2] = Raise ZeroDivisionError.
Proof.
  apply (run_prime_zero ideals_degree_one db_ex [11] [2] 11 2). done.
Defined.

Lemma filter_last_match {A} (P : A → Prop) `{∀ x, Decision (P x)} (l : list A) :
  filter P l ≠ [] →
  ∃ pre x post, l = pre ++ x :: post ∧ P x
                ∧ length (filter P l) = S (length (filter P pre)).
Proof.
  induction l as [|a l IH] using rev_ind; [done|].
  rewrite filter_app, filter_cons, filter_nil. destruct (decide (P a)) as [Ha|Ha].
  - intros _. exists l, a, []. split; [done|]. split; [done|].
    rewrite length_app. simpl. lia.
  - rewrite app_nil_r. intros Hne.
    destruct (IH Hne) as (pre & x & post & -> & Hx & Hlen).
    exists pre, x, (post ++ [a]). split; [by rewrite <- app_assoc|].
    split; [done|]. exact Hlen.
Qed.

(** X16: in each list that [run] returns, the index of a record is at
    least 1 and at most its position in the list, the first record has
    index 1, and the records with one [ap] dictionary are numbered
    1, 2, 3, ... in their order: an earlier one has a smaller index, and
    a record of index [n ≥ 2] comes after one of index [n - 1]. *)
Theorem run_index_numbering
    (maximal_ideals : Z → list (list (list GFelt)) → list Ideal) (db : Database)
    (levels ells : list Z)
    (nf : gmap Z (list nf_record)) (nfx : gmap Z (list (string * Z * Z)))
    (ell : Z) (l : list nf_record) (j : nat) (r : nf_record)
    (Hrun : run maximal_ideals db levels ells = OK (nf, nfx))
    (Hl : nf !! ell = Some l) (Hr : l !! j = Some r) :
  ∃ n, rec_index r = Some n
       ∧ 1 ≤ n ≤ Z.of_nat j + 1
       ∧ (∀ i r', (i < j)%nat → l !! i = Some r' → rec_ap r' = rec_ap r →
            ∃ m, rec_index r' = Some m ∧ m < n)
       ∧ (2 ≤ n → ∃ i r', (i < j)%nat ∧ l !! i = Some r'
                          ∧ rec_ap r' = rec_ap r ∧ rec_index r' = Some (n - 1)).
Proof.
  apply run_OK_inv in Hrun as (st & Hst & -> & ->).
  destruct (run_sweep_indexed _ _ _ _ _ Hst ell l Hl) as (Hidx & Hells & _).
  pose proof (λ i x, indexed_by_ap ell l i x Hidx Hells) as Hap.
  destruct (Hap j r Hr) as [_ Hn].
  assert (Hsame : ∀ x (k : list nf_record), rec_ap x = rec_ap r →
            filter (λ y, rec_ap y = rec_ap x) k = filter (λ y, rec_ap y = rec_ap r) k).
  { intros x k Hx. apply filter_ext_in. intros y _. by rewrite Hx. }
  assert (Hj : (j < length l)%nat) by (by eapply lookup_lt_Some).
  eexists. split; [exact Hn|]. split; [|split].
  - pose proof (length_filter (λ y, rec_ap y = rec_ap r) (take j l)) as Hle.
    rewrite length_take in Hle. lia.
  - intros i r' Hi Hr' Heq. destruct (Hap i r' Hr') as [_ Hm].
    eexists. split; [exact Hm|]. rewrite (Hsame r' _ Heq).
    assert (take j l = take i l ++ r' :: drop (S i) (take j l)) as ->.
    { rewrite <- (take_drop_middle (take j l) i r') at 1
        by (by rewrite lookup_take_lt).
      by rewrite take_take, Nat.min_l by lia. }
    rewrite (filter_app _ (take i l)), filter_cons, decide_True by done.
    rewrite length_app. simpl. lia.
  - intros Hn2.
    destruct (filter_last_match (λ y, rec_ap y = rec_ap r) (take j l))
      as (pre & x & post & Hsplit & Hx & Hlen).
    { intros Hnil. rewrite Hnil in Hn2. simpl in Hn2. lia. }
    assert (length pre < j)%nat as Hpre.
    { apply (f_equal length) in Hsplit. rewrite length_take, length_app in Hsplit.
      simpl in Hsplit. lia. }
    assert (l !! length pre = Some x) as Hlx.
    { rewrite <- (lookup_take_lt l j) by done.
      rewrite Hsplit. by rewrite list_lookup_middle. }
    exists (length pre), x. split; [done|]. split; [done|]. split; [done|].
    destruct (Hap _ x Hlx) as [_ Hxi]. rewrite Hxi, (Hsame x _ Hx).
    assert (take (length pre) l = pre) as ->.
    { rewrite <- (Nat.min_l (length pre) j) by lia.
      rewrite <- take_take, Hsplit. by rewrite take_app_length. }
    f_equal. rewrite Hlen. lia.
Qed.

Lemma run_index_numbering_witness :
  ∃ nf nfx l r,
    run ideals_degree_one db_ex [11; 13; 15; 17; 19] [2] = OK (nf, nfx)
    ∧ nf !! 2 = Some l ∧ l !! 3%nat = Some r
    ∧ ∃ n, rec_index r = Some n ∧ 1 ≤ n ≤ Z.of_nat 3 + 1
           ∧ (∀ i r', (i < 3)%nat → l !! i = Some r' → rec_ap r' = rec_ap r →
                ∃ m, rec_index r' = Some m ∧ m < n)
           ∧ (2 ≤ n → ∃ i r', (i < 3)%nat ∧ l !! i = Some r'
                              ∧ rec_ap r' = rec_ap r ∧ rec_index r' = Some (n - 1)).
Proof.
  do 4 eexists. split; [vm_compute; reflexivity|].
  split; [vm_compute; reflexivity|]. split; [vm_compute; reflexivity|].
  eapply (run_index_numbering ideals_degree_one db_ex [11; 13; 15; 17; 19] [2]
            _ _ 2 _ 3).
  - vm_compute. reflexivity.
  - vm_compute. reflexivity.
  - vm_compute. reflexivity.
Defined.

(** X17: every record that [run] returns under a prime [ell] comes from
    one reduction of one form that [get_forms] returned for a level [N]
    of the given levels that [ell] does not divide and a weight between
    2 and [max(ell + 1, 4)]: it carries that [ell], the label, level,
    weight and dimension of the form, and the [ap] and character values
    reduced by that reduction. *)
Theorem run_record_origin
    (maximal_ideals : Z → list (list (list GFelt)) → list Ideal) (db : Database)
    (levels ells : list Z)
    (nf : gmap Z (list nf_record)) (nfx : gmap Z (list (string * Z * Z)))
    (ell : Z) (l : list nf_record) (r : nf_record)
    (Hrun : run maximal_ideals db levels ells = OK (nf, nfx))
    (Hl : nf !! ell = Some l) (Hr : r ∈ l) :
  ell ∈ ells ∧ ell ≠ 0
  ∧ ∃ N k forms missing f red,
      N ∈ levels ∧ N mod ell ≠ 0 ∧ 2 ≤ k ≤ Z.max (ell + 1) 4
      ∧ get_forms maximal_ideals db N k ell = OK (forms, missing)
      ∧ f ∈ forms ∧ web f ∈ valid_forms db N k ell
      ∧ red ∈ reductions f
      ∧ rec_ell r = Some ell
      ∧ rec_label r = label (web f) ∧ rec_N r = level (web f)
      ∧ rec_k r = weight (web f) ∧ rec_d r = dim (web f)
      ∧ reduce_ap_mod_ell f red false = OK (rec_ap r)
      ∧ reduce_chi_mod_ell f red = OK (rec_chi_mod_ell r).
Proof.
  apply run_OK_inv in Hrun as (st & Hst & -> & ->).
  destruct (run_sweep_origin _ _ _ _ _ Hst) as (_ & _ & _ & Hrec & _).
  destruct (Hrec ell l r Hl Hr)
    as (Hell & N & k & forms & missing & f & red & r0 & n
        & HN & Hk & Hget & Hf & Hred & Hr0 & ->).
  destruct (get_forms_inv _ _ _ _ _ _ _ Hget) as (H0 & Hforms & _ & _ & Hdiv).
  split; [done|]. split; [done|].
  exists N, k, forms, missing, f, red.
  rewrite Forall_forall in Hforms. destruct (Hforms f Hf) as (Hvalid & _).
  split; [done|]. split.
  { intros Hmod. destruct (Hdiv Hmod) as [-> _]. by apply elem_of_nil in Hf. }
  split; [by apply weights_elem|]. split; [done|]. split; [done|].
  split; [done|]. split; [done|].
  unfold nf_mod_ell in Hr0. apply bind_OK in Hr0 as (apd & Hap & Hr0).
  apply bind_OK in Hr0 as (chi & Hchi & Hr0). apply OK_inj in Hr0. subst r0.
  simpl. done.
Qed.

Lemma run_record_origin_witness :
  ∃ nf nfx l r,
    run ideals_degree_one db_ex [11; 13] [2] = OK (nf, nfx)
    ∧ nf !! 2 = Some l ∧ l !! 0%nat = Some r ∧ 2 ∈ [2].
Proof.
  do 4 eexists. split; [vm_compute; reflexivity|].
  split; [vm_compute; reflexivity|]. split; [vm_compute; reflexivity|].
  eapply proj1, (run_record_origin ideals_degree_one db_ex [11; 13] [2]).
  - vm_compute. reflexivity.
  - vm_compute. reflexivity.
  - left.
Defined.

(** X18: every triple that [run] returns under a prime [ell] is label,
    dimension and [ell] of a form without field polynomial, with a
    character order valid for [ell], found for a level of the given
    levels that [ell] does not divide and a weight between 2 and
    [max(ell + 1, 4)]. *)
Theorem run_deferred_origin
    (maximal_ideals : Z → list (list (list GFelt)) → list Ideal) (db : Database)
    (levels ells : list Z)
    (nf : gmap Z (list nf_record)) (nfx : gmap Z (list (string * Z * Z)))
    (ell : Z) (l : list (string * Z * Z)) (t : string * Z * Z)
    (Hrun : run maximal_ideals db levels ells = OK (nf, nfx))
    (Hl : nfx !! ell = Some l) (Ht : t ∈ l) :
  ell ∈ ells ∧ ell ≠ 0
  ∧ ∃ N k f,
      N ∈ levels ∧ N mod ell ≠ 0 ∧ 2 ≤ k ≤ Z.max (ell + 1) 4
      ∧ f ∈ valid_forms db N k ell
      ∧ char_order_valid (char_order f) ell = OK true
      ∧ field_poly f = None
      ∧ t = (label f, dim f, ell).
Proof.
  apply run_OK_inv in Hrun as (st & Hst & -> & ->).
  destruct (run_sweep_origin _ _ _ _ _ Hst) as (_ & _ & _ & _ & Htri).
  destruct (Htri ell l t Hl Ht)
    as (Hell & N & k & forms & missing & HN & Hk & Hget & Hin).
  destruct (get_forms_inv _ _ _ _ _ _ _ Hget) as (H0 & _ & Hmissing & _ & Hdiv).
  split; [done|]. split; [done|].
  rewrite Forall_forall in Hmissing.
  destruct (Hmissing t Hin) as (f & Hf & Hnone & ->).
  exists N, k, f. split; [done|]. split.
  { intros Hmod. destruct (Hdiv Hmod) as [_ ->]. by apply elem_of_nil in Hin. }
  split; [by apply weights_elem|]. split; [done|].
  split; [by apply valid_forms_elem in Hf as [? _]|]. done.
Qed.

Lemma run_deferred_origin_witness :
  ∃ nf nfx,
    run ideals_degree_one db_deferred [37] [3] = OK (nf, nfx)
    ∧ nfx !! 3 = Some [("37.2.e.a"%string, 2, 3)]
    ∧ nf !! 3 = Some []
    ∧ 3 ∈ [3].
Proof.
  do 2 eexists. split; [vm_compute; reflexivity|].
  split; [vm_compute; reflexivity|]. split; [vm_compute; reflexivity|].
  eapply proj1, (run_deferred_origin ideals_degree_one db_deferred [37] [3]).
  - vm_compute. reflexivity.
  - vm_compute. reflexivity.
  - left.
Defined.

(** *** Output files *)

Lemma string_app_assoc s t u : (s +:+ t) +:+ u = s +:+ t +:+ u.
Proof.
  induction s as [|c s IH]; [done|].
  change (String c ((s +:+ t) +:+ u) = String c (s +:+ t +:+ u)). by rewrite IH.
Qed.

Lemma string_app_nil_r s : s +:+ "" = s.
Proof.
  induction s as [|c s IH]; [done|].
  change (String c (s +:+ "") = String c s). by rewrite IH.
Qed.

Lemma concat_lines_app l1 l2 :
  String.concat "" (l1 ++ l2) = String.concat "" l1 +:+ String.concat "" l2.
Proof.
  induction l1 as [|x [|y l1] IH]; [done| |].
  - destruct l2 as [|z l2]; simpl; [by rewrite string_app_nil_r | done].
  - change (String.concat "" ((x :: y :: l1) ++ l2))
      with (x +:+ String.concat "" ((y :: l1) ++ l2)).
    change (String.concat "" (x :: y :: l1)) with (x +:+ String.concat "" (y :: l1)).
    by rewrite IH, string_app_assoc.
Qed.

Lemma write_lines_append fs filename lines1 lines2 :
  write_lines (write_lines fs filename mode_w lines1) filename mode_a lines2
  = write_lines fs filename mode_w (lines1 ++ lines2).
Proof.
  unfold write_lines. rewrite lookup_insert_eq, insert_insert_eq. simpl.
  by rewrite concat_lines_app.
Qed.

Lemma mapM_app {A B} (f : A → result B) l1 l2 bs1 bs2 :
  mapM f l1 = OK bs1 → mapM f l2 = OK bs2 → mapM f (l1 ++ l2) = OK (bs1 ++ bs2).
Proof.
  rewrite !mapM_OK. apply Forall2_app.
Qed.

(** X19: [extra_output] touches no other file, and each line it writes,
    split at the colons, gives back the label, the dimension and the
    prime of its triple when the label holds no colon. Writing a list
    with mode ['w'] and a second list with mode ['a'] leaves the file
    that one call with mode ['w'] on both lists leaves; mode ['w']
    forgets what the file held, and mode ['a'] on a file that does not
    exist acts like mode ['w']. *)
Theorem extra_output_append (fs : gmap string string)
    (l1 l2 : list (string * Z * Z)) (filename other : string) (mode : file_mode) :
  extra_output (extra_output fs l1 filename mode_w) l2 filename mode_a
  = extra_output fs (l1 ++ l2) filename mode_w
  ∧ extra_output fs l1 filename mode_w !! filename
    = Some (String.concat "" (map extra_line l1))
  ∧ (fs !! filename = None →
     extra_output fs l1 filename mode_a = extra_output fs l1 filename mode_w)
  ∧ (other ≠ filename → extra_output fs l1 filename mode !! other = fs !! other)
  ∧ (∀ lab d ell, contains ":" lab = false →
       ∃ body, extra_line (lab, d, ell) = body +:+ newline
               ∧ split_on ":" body = [lab; str_of_Z d; str_of_Z ell]).
Proof.
  unfold extra_output. split; [|split; [|split; [|split]]].
  - by rewrite write_lines_append, map_app.
  - unfold write_lines. by rewrite lookup_insert_eq.
  - intros Hnone. unfold write_lines. by rewrite Hnone.
  - intros Hne. unfold write_lines. by rewrite lookup_insert_ne.
  - intros lab d ell Hlab.
    exists (String.concat ":" [lab; str_of_Z d; str_of_Z ell]). split.
    + unfold extra_line. cbn [fst snd String.concat].
      by rewrite !string_app_assoc.
    + apply split_on_concat; [done|].
      repeat constructor; [done|apply str_of_Z_no_colon..].
Qed.

Lemma extra_output_append_witness :
  extra_output ∅ [("37.2.e.a"%string, 2, 3)] "missing.txt" mode_a
  = extra_output ∅ [("37.2.e.a"%string, 2, 3)] "missing.txt" mode_w.
Proof.
  apply (extra_output_append ∅ [("37.2.e.a"%string, 2, 3)] [] "missing.txt" "x" mode_w).
  reflexivity.
Defined.

Lemma data_output_returns fs l filename mode nap :
  Forall (λ r, ∃ s, nf_to_string r nap = OK s) l →
  ∃ fs', data_output fs l filename mode nap = OK fs'.
Proof.
  intros Hall. unfold data_output.
  destruct (mapM_total (λ nf, s ← nf_to_string nf nap; OK (s +:+ newline)) l)
    as [lines Hlines].
  { eapply Forall_impl; [done|]. intros r [s Hs]. rewrite Hs. simpl. eauto. }
  rewrite Hlines. simpl. eauto.
Qed.

(** X20: [data_output] returns exactly when every record of the list
    can be written by [nf_to_string], and then the file holds the lines
    of the records in their order, each followed by a newline. Writing
    a list with mode ['w'] and a second list with mode ['a'] leaves the
    file that one call with mode ['w'] on both lists leaves. *)
Theorem data_output_lines (fs : gmap string string) (l1 l2 : list nf_record)
    (filename : string) (mode : file_mode) (nap : option Z) :
  ((∃ fs', data_output fs l1 filename mode nap = OK fs')
   ↔ Forall (λ r, ∃ s, nf_to_string r nap = OK s) l1)
  ∧ (∀ lines, Forall2 (λ r s, nf_to_string r nap = OK s) l1 lines →
       data_output fs l1 filename mode_w nap
       = OK (<[filename := String.concat "" (map (λ s, s +:+ newline) lines)]> fs))
  ∧ (∀ fs1 fs2,
       data_output fs l1 filename mode_w nap = OK fs1 →
       data_output fs1 l2 filename mode_a nap = OK fs2 →
       data_output fs (l1 ++ l2) filename mode_w nap = OK fs2).
Proof.
  split; [|split].
  - unfold data_output. split.
    + intros [fs' Hfs]. apply bind_OK in Hfs as (lines & Hl & _).
      apply mapM_OK in Hl.
      apply Forall_forall. intros r Hr. apply list_elem_of_lookup in Hr as [i Hi].
      destruct (Forall2_lookup_l _ _ _ _ _ Hl Hi) as (s & _ & Hs).
      apply bind_OK in Hs as (s0 & Hs0 & _). eauto.
    + apply data_output_returns.
  - intros lines Hlines. unfold data_output.
    assert (mapM (λ nf, s ← nf_to_string nf nap; OK (s +:+ newline)) l1
            = OK (map (λ s, s +:+ newline) lines)) as ->; [|done].
    apply mapM_OK, Forall2_fmap_r. eapply Forall2_impl; [done|].
    intros r s Hs. by rewrite Hs.
  - intros fs1 fs2 H1 H2. unfold data_output in *.
    apply bind_OK in H1 as (lines1 & Hl1 & H1). apply OK_inj in H1. subst fs1.
    apply bind_OK in H2 as (lines2 & Hl2 & H2). apply OK_inj in H2. subst fs2.
    rewrite (mapM_app _ _ _ _ _ Hl1 Hl2). simpl.
    by rewrite write_lines_append.
Qed.

Lemma data_output_lines_witness :
  data_output ∅ [record_11] "mod_2.txt" mode_w None
  = OK (<["mod_2.txt"%string :=
          String.concat ""
            (map (λ s, s +:+ newline) ["11.2.a.a:11:2:a:a:1:2:1:[]:1,0,1"%string])]> ∅).
Proof.
  apply (data_output_lines ∅ [record_11] [] "mod_2.txt" mode_w None).
  constructor; [reflexivity | constructor].
Defined.

(** *** Comparing a new record with an old one *)

Lemma compare_ap_loop_true {V} `{EqDecision V} (items : list (Z * V)) (old : gmap Z V) :
  compare_ap_loop items old = OK true
  ↔ Forall (λ pv, old !! pv.1 = Some pv.2) items.
Proof.
  induction items as [|[p v] items IH]; simpl.
  - split; [by constructor | done].
  - rewrite Forall_cons. simpl. destruct (old !! p) as [w|]; simpl.
    + destruct (decide (v ≠ w)) as [Hne|Heq%dec_stable].
      * split; [done|]. intros [[= ?] _]. by subst.
      * subst w. rewrite IH. split; [by intros ?; split | by intros [_ ?]].
    + split; [done | by intros [? _]].
Qed.

Lemma compare_ap_loop_total {V} `{EqDecision V} (items : list (Z * V)) (old : gmap Z V) :
  Forall (λ pv, is_Some (old !! pv.1)) items →
  ∃ b, compare_ap_loop items old = OK b.
Proof.
  induction 1 as [|[p v] items [w Hw] _ IH]; simpl; [eauto|].
  simpl in Hw. rewrite Hw. simpl. destruct (decide (v ≠ w)); eauto.
Qed.

Lemma compare_ap_loop_raise {V} `{EqDecision V} (items : list (Z * V))
    (old : gmap Z V) (e : exn) :
  compare_ap_loop items old = Raise e
  ↔ e = KeyError
    ∧ ∃ pre pv post, items = pre ++ pv :: post
        ∧ Forall (λ qv, old !! qv.1 = Some qv.2) pre ∧ old !! pv.1 = None.
Proof.
  induction items as [|[p v] items IH]; simpl.
  - split; [done|]. intros (_ & [|??] & ? & ? & ? & _); done.
  - destruct (old !! p) as [w|] eqn:Hp; simpl.
    + destruct (decide (v ≠ w)) as [Hne|Heq%dec_stable].
      * split; [done|]. intros (_ & [|[q u] pre] & pv & post & Heq & Hpre & Hnone).
        -- simplify_eq/=.
        -- apply Forall_cons in Hpre as [Hq _]. simplify_eq/=.
      * subst w. rewrite IH. split.
        -- intros (-> & pre & pv & post & -> & Hpre & Hnone). split; [done|].
           exists ((p, v) :: pre), pv, post. split; [done|]. split; [|done].
           by constructor.
        -- intros (-> & [|[q u] pre] & pv & post & Heq & Hpre & Hnone).
           ++ simplify_eq/=.
           ++ apply Forall_cons in Hpre as [_ Hpre]. simplify_eq/=.
              split; [done|]. by exists pre, pv, post.
    + split.
      * intros [= <-]. split; [done|]. by exists [], (p, v), items.
      * intros (-> & _). done.
Qed.

(** X21: [compare_new_old] returns [True] exactly when the two levels
    are equal and every prime of the new record has the same value in
    the old one; primes that only the old record has are ignored.
    Different levels give [False] before any value is read. With equal
    levels it raises, and then [KeyError], exactly when a prime of the
    new record is missing from the old one and all the primes before it
    agree; when no prime is missing it returns. *)
Theorem compare_new_old_spec {V} `{EqDecision V}
    (new_f : new_record V) (old_f : old_record V) :
  (compare_new_old new_f old_f = OK true
   ↔ old_N old_f = new_N new_f
     ∧ Forall (λ pv, old_ap old_f !! pv.1 = Some pv.2) (new_ap_mod_ell new_f))
  ∧ (old_N old_f ≠ new_N new_f → compare_new_old new_f old_f = OK false)
  ∧ (∀ e, compare_new_old new_f old_f = Raise e
       ↔ old_N old_f = new_N new_f ∧ e = KeyError
         ∧ ∃ pre pv post, new_ap_mod_ell new_f = pre ++ pv :: post
             ∧ Forall (λ qv, old_ap old_f !! qv.1 = Some qv.2) pre
             ∧ old_ap old_f !! pv.1 = None)
  ∧ (Forall (λ pv, is_Some (old_ap old_f !! pv.1)) (new_ap_mod_ell new_f) →
     ∃ b, compare_new_old new_f old_f = OK b)
  ∧ (∀ old_ap', old_ap old_f ⊆ old_ap' →
       compare_new_old new_f old_f = OK true →
       compare_new_old new_f {| old_N := old_N old_f; old_ap := old_ap' |} = OK true).
Proof.
  unfold compare_new_old.
  split; [|split; [|split; [|split]]].
  - destruct (Z.eqb_spec (old_N old_f) (new_N new_f)) as [HN|HN]; simpl.
    + rewrite compare_ap_loop_true. split; [by intros ?; split | by intros [_ ?]].
    + split; [done | by intros [? _]].
  - intros HN. by destruct (Z.eqb_spec (old_N old_f) (new_N new_f)).
  - intros e. destruct (Z.eqb_spec (old_N old_f) (new_N new_f)) as [HN|HN]; simpl.
    + rewrite compare_ap_loop_raise.
      split; [by intros [? ?]; split | by intros (_ & ? & ?); split].
    + split; [done | by intros [? _]].
  - intros Hall. destruct (Z.eqb_spec (old_N old_f) (new_N new_f)); simpl; [|eauto].
    by apply compare_ap_loop_total.
  - intros old_ap' Hsub. cbn [old_N old_ap].
    destruct (Z.eqb_spec (old_N old_f) (new_N new_f)); simpl; [|done].
    rewrite !compare_ap_loop_true. intros Hall.
    eapply Forall_impl; [exact Hall|].
    intros pv Hpv. simpl in *. eapply lookup_weaken; [exact Hpv | exact Hsub].
Qed.

Lemma compare_new_old_spec_witness :
  compare_new_old {| new_N := 11; new_ap_mod_ell := [(2, 0); (3, 1)] |}
                  {| old_N := 11; old_ap := {[ 2 := 0; 3 := 1; 5 := 1 ]} |} = OK true.
Proof.
  apply (proj1 (compare_new_old_spec (V := Z)
                  {| new_N := 11; new_ap_mod_ell := [(2, 0); (3, 1)] |}
                  {| old_N := 11; old_ap := {[ 2 := 0; 3 := 1; 5 := 1 ]} |})).
  split; [reflexivity|].
  constructor; [reflexivity|]. constructor; [reflexivity|]. constructor.
Defined.

(** *** More on [char_order_valid] *)

Lemma prime_to_m_part_mul_ell m ell : 0 < m → Z.prime ell →
  prime_to_m_part (ell * m) ell = prime_to_m_part m ell.
Proof.
  intros Hm Hp. pose proof (Z.prime_ge_2 _ Hp) as Hge.
  destruct (prime_to_m_part_spec m ell Hm Hp)
    as (k & a & -> & _ & _ & Ha & Hda & Hca & Hmaxa).
  destruct (prime_to_m_part_spec (ell * m) ell ltac:(nia) Hp)
    as (k' & b & -> & _ & _ & Hb & Hdb & Hcb & Hmaxb).
  assert (a ≤ b).
  { apply Hmaxb; [done | | done]. by apply Z.divide_mul_r. }
  assert (b ≤ a).
  { apply Hmaxa; [done | | done].
    apply Z.gauss with ell; [done|]. by rewrite Z.gcd_comm in Hcb |- *. }
  f_equal. lia.
Qed.

Lemma prime_to_m_part_coprime m ell : 0 < m → Z.prime ell → Z.gcd m ell = 1 →
  prime_to_m_part m ell = OK m.
Proof.
  intros Hm Hp Hc.
  destruct (prime_to_m_part_spec m ell Hm Hp)
    as (k & a & -> & _ & _ & Ha & Hda & Hca & Hmaxa).
  pose proof (Hmaxa m Hm (Z.divide_refl m) Hc).
  apply Z.divide_pos_le in Hda; [|done]. f_equal. lia.
Qed.

(** X22: for a positive [m] and a prime [ell], [char_order_valid] does
    not see factors [ell]: [ell * m] is valid exactly when [m] is. An
    order coprime to [ell] is valid exactly when it divides [ell - 1],
    so every divisor of [ell - 1] is valid and a valid order coprime to
    [ell] is below [ell]. For [ell = 2] the valid orders are the powers
    of 2. For the order 0 the call raises [ArithmeticError]. *)
Theorem char_order_valid_powers (m ell : Z) (Hm : 0 < m) (Hell : Z.prime ell) :
  char_order_valid (ell * m) ell = char_order_valid m ell
  ∧ (Z.gcd m ell = 1 → (char_order_valid m ell = OK true ↔ (m | ell - 1)))
  ∧ ((m | ell - 1) → char_order_valid m ell = OK true)
  ∧ (Z.gcd m ell = 1 → char_order_valid m ell = OK true → m < ell)
  ∧ (ell = 2 → (char_order_valid m ell = OK true ↔ ∃ k, 0 ≤ k ∧ m = 2 ^ k))
  ∧ char_order_valid 0 ell = Raise ArithmeticError.
Proof.
  pose proof (Z.prime_ge_2 _ Hell) as Hge.
  assert (Hcop : Z.gcd m ell = 1 →
                 (char_order_valid m ell = OK true ↔ (m | ell - 1))).
  { intros Hc. unfold char_order_valid.
    rewrite prime_to_m_part_coprime by done. cbn [mbind result_bind].
    rewrite <- divides_spec. split; [by intros [= ->] | by intros ->]. }
  assert (Hdiv : (m | ell - 1) → Z.gcd m ell = 1).
  { intros Hd. rewrite Z.gcd_comm. apply Z.coprime_prime_l; [done|]. intros Hl.
    assert (Hl' : (ell | ell - 1)) by (eapply Z.divide_trans; eauto).
    apply Z.divide_pos_le in Hl'; lia. }
  split; [|split; [|split; [|split; [|split]]]].
  - unfold char_order_valid. by rewrite prime_to_m_part_mul_ell.
  - done.
  - intros Hd. apply Hcop; [by apply Hdiv | done].
  - intros Hc Hv. apply Hcop in Hv; [|done]. apply Z.divide_pos_le in Hv; lia.
  - intros ->. unfold char_order_valid.
    destruct (prime_to_m_part_spec m 2 Hm Hell)
      as (k & a & Ha & Hk & Heq & Hpos & Hda & Hca & Hmaxa).
    rewrite Ha. cbn [mbind result_bind]. change (2 - 1) with 1.
    assert (OK (divides a 1) = OK true ↔ (a | 1)) as ->.
    { rewrite <- divides_spec. split; [by intros [= ->] | by intros ->]. }
    split.
    + intros Hd. apply Z.divide_1_r_nonneg in Hd; [|lia].
      exists k. split; [done|]. rewrite Heq, Hd. lia.
    + intros (k' & Hk' & ->).
      assert (Hodd : Z.gcd a (2 ^ k') = 1) by by apply Z.coprime_pow_r.
      rewrite <- Hodd. apply Z.gcd_greatest; [apply Z.divide_refl | done].
  - reflexivity.
Qed.

Lemma char_order_valid_powers_witness :
  char_order_valid (5 * 4) 5 = char_order_valid 4 5.
Proof.
  eapply proj1, (char_order_valid_powers 4 5).
  - lia.
  - apply is_prime_spec. vm_compute. reflexivity.
Defined.

(** *** From [run] to the output files *)

(** X23: the records that [run] returns under a prime can be written:
    each of them carries ['ell'] and ['index'], so [data_output] on the
    list returns for every file name, mode and limit [nap] as soon as
    the labels of the records have four dot-separated parts. *)
Theorem run_output_writable
    (maximal_ideals : Z → list (list (list GFelt)) → list Ideal) (db : Database)
    (levels ells : list Z)
    (nf : gmap Z (list nf_record)) (nfx : gmap Z (list (string * Z * Z)))
    (ell : Z) (l : list nf_record)
    (fs : gmap string string) (filename : string) (mode : file_mode) (nap : option Z)
    (Hrun : run maximal_ideals db levels ells = OK (nf, nfx))
    (Hl : nf !! ell = Some l)
    (Hlabels : Forall (λ r, length (split_on "." (rec_label r)) = 4%nat) l) :
  Forall (λ r, rec_ell r = Some ell ∧ is_Some (rec_index r)) l
  ∧ ∃ fs', data_output fs l filename mode nap = OK fs'.
Proof.
  apply run_OK_inv in Hrun as (st & Hst & -> & ->).
  destruct (run_sweep_origin _ _ _ _ _ Hst) as (_ & _ & _ & Hrec & _).
  assert (Hkeys : Forall (λ r, rec_ell r = Some ell ∧ is_Some (rec_index r)) l).
  { apply Forall_forall. intros r Hr.
    destruct (Hrec ell l r Hl Hr)
      as (_ & N & k & forms & missing & f & red & r0 & n & _ & _ & _ & _ & _ & _ & ->).
    simpl. eauto. }
  split; [done|]. apply data_output_returns.
  rewrite Forall_forall in Hkeys, Hlabels |- *. intros r Hr.
  destruct (Hkeys r Hr) as [Hell Hindex].
  apply nf_to_string_returns; [by apply Hlabels | by rewrite Hell | done].
Qed.

Lemma run_output_writable_witness :
  ∃ nf nfx l,
    run ideals_degree_one db_ex [11; 13] [2] = OK (nf, nfx)
    ∧ nf !! 2 = Some l
    ∧ ∃ fs', data_output ∅ l "mod_2_13.txt" mode_w None = OK fs'.
Proof.
  do 3 eexists. split; [vm_compute; reflexivity|].
  split; [vm_compute; reflexivity|].
  eapply proj2, (run_output_writable ideals_degree_one db_ex [11; 13] [2] _ _ 2).
  - vm_compute. reflexivity.
  - vm_compute. reflexivity.
  - constructor; [reflexivity|]. constructor; [reflexivity|]. constructor.
Defined.
